(** * IlmThreadPool: a shallow embedding of [IlmThreadPool.cpp]

    The pool is embedded as an interleaving machine.  Every thread (the
    calling thread and each [WorkerThread]) has a program counter naming
    the statement of the source it is about to run; [step x s] runs that
    one statement of thread [x] atomically, or is [None] when the
    statement blocks (a held [Mutex], a [Semaphore] at zero, a running
    thread being joined) or has no defined behaviour (a dangling
    [TaskGroup]).  A schedule is a list of thread identifiers; properties
    are proved for every schedule.

    What the embedding fixes:
    - one thread calls the member functions of the pool and of its task
      groups, in the order of a program (a list of calls); any number of
      workers run beside it;
    - [Task::execute ()] is opaque: the machine records that a thread
      entered it and that it returned;
    - [int] values wrap at 32 bits, [unsigned] and [size_t] conversions
      are written out; the two [size_t] counters count the nodes of a
      [std::list] and are incremented without wrap-around;
    - a statement that only runs under a mutex it has just taken and
      releases at once ([stopped ()], [stop ()]) is one step. *)

From stdpp Require Import base numbers option list gmap.

(** ** Machine integers *)

Module CInt.
Local Open Scope Z_scope.

Definition INT_MAX : Z := 2 ^ 31 - 1.
Definition INT_MIN : Z := - 2 ^ 31.

(** Value of a 32-bit two's complement [int] after an arithmetic result
    [z] (signed overflow is undefined in C++; compilers wrap). *)
Definition wrap_int (z : Z) : Z := (z + 2 ^ 31) mod 2 ^ 32 - 2 ^ 31.

(** [unsigned] to [int], as in the call [setNumThreads (nthreads)]. *)
Definition int_of_unsigned (u : Z) : Z := wrap_int u.

(** [int] to [size_t] (64 bits), the usual arithmetic conversion applied
    when an [int] is compared with [numThreads]. *)
Definition size_t_of_int (i : Z) : Z := i mod 2 ^ 64.

(** [size_t] to [int], as in [return _data->numThreads]. *)
Definition int_of_size_t (n : Z) : Z := wrap_int n.

Definition is_int (z : Z) : Prop := INT_MIN <= z <= INT_MAX.
Definition is_unsigned (z : Z) : Prop := 0 <= z < 2 ^ 32.

End CInt.
Export CInt.

(** ** Semaphore *)

(** A counting semaphore is its value; [wait] blocks at zero. *)
Definition Semaphore := nat.

Definition Semaphore_wait (v : Semaphore) : option Semaphore :=
  match v with
  | O => None
  | S v' => Some v'
  end.

Definition Semaphore_post (v : Semaphore) : Semaphore := S v.

(** ** TaskGroup::Data *)

Record TaskGroupData := mkTaskGroupData {
  isEmpty : Semaphore;   (* used to signal that the taskgroup is empty *)
  numPending : Z         (* int: number of pending tasks to still execute *)
}.

Module TaskGroup.
Local Open Scope Z_scope.

(** [Data () : isEmpty (1), numPending (0)] *)
Definition Data : TaskGroupData := mkTaskGroupData 1%nat 0.

(** [if (numPending++ == 0) isEmpty.wait ();] *)
Definition addTask (d : TaskGroupData) : option TaskGroupData :=
  let n := wrap_int (numPending d + 1) in
  if numPending d =? 0
  then s ← Semaphore_wait (isEmpty d); Some (mkTaskGroupData s n)
  else Some (mkTaskGroupData (isEmpty d) n).

(** [if (--numPending == 0) isEmpty.post ();] *)
Definition removeTask (d : TaskGroupData) : TaskGroupData :=
  let n := wrap_int (numPending d - 1) in
  if n =? 0
  then mkTaskGroupData (Semaphore_post (isEmpty d)) n
  else mkTaskGroupData (isEmpty d) n.

(** [~Data ()]: [isEmpty.wait ()] *)
Definition drain (d : TaskGroupData) : option TaskGroupData :=
  s ← Semaphore_wait (isEmpty d); Some (mkTaskGroupData s (numPending d)).

(** The gate is open when a wait on [isEmpty] would not block. *)
Definition gate_open (d : TaskGroupData) : Prop := (0 < isEmpty d)%nat.

(** The group invariant: the count is a non-negative [int], the
    semaphore is binary, and it is open exactly at count zero. *)
Definition inv (d : TaskGroupData) : Prop :=
  0 <= numPending d <= INT_MAX /\
  (isEmpty d <= 1)%nat /\
  (gate_open d <-> numPending d = 0).
End TaskGroup.

(** ** Tasks, threads and mutexes *)

(** A [Task*] is its identity together with the group it was built with
    ([Task::Task (TaskGroup* g) : _group (g)]); [group] is [Task::group ()]. *)
Record Task := mkTask { task_id : nat; group : nat }.

#[global] Instance Task_eq_dec : EqDecision Task.
Proof. solve_decision. Defined.

(** The threads of the machine: the thread that calls the pool's member
    functions, and the [WorkerThread]s the pool has created. *)
Inductive ThreadId :=
| Caller
| Worker (w : nat).

#[global] Instance ThreadId_eq_dec : EqDecision ThreadId.
Proof. solve_decision. Defined.

(** A [Mutex] records the thread that holds it. *)
Definition Mutex := option ThreadId.

Definition Mutex_lock (x : ThreadId) (m : Mutex) : option Mutex :=
  match m with
  | None => Some (Some x)
  | Some _ => None
  end.

Definition Mutex_unlock (m : Mutex) : Mutex := None.

(** ** ThreadPool::Data *)

Record PoolData := mkPoolData {
  taskSemaphore : Semaphore;    (* threads wait on this for ready tasks *)
  taskMutex : Mutex;            (* mutual exclusion for the tasks list *)
  tasks : list Task;            (* the list of tasks to execute *)
  numTasks : Z;                 (* size_t: fast access to list size *)
  threadSemaphore : Semaphore;  (* signaled when a thread starts executing *)
  threadMutex : Mutex;          (* mutual exclusion for threads list *)
  threads : list nat;           (* the list of all threads *)
  numThreads : Z;               (* size_t: fast access to list size *)
  stopping : bool;              (* flag indicating whether to stop threads *)
  stopMutex : Mutex             (* mutual exclusion for stopping flag *)
}.

(** [Data () : numTasks (0), numThreads (0), stopping (false)] *)
Definition PoolData_new : PoolData :=
  mkPoolData 0 None [] 0 0 None [] 0 false None.

Definition set_taskSemaphore (v : Semaphore) (d : PoolData) : PoolData :=
  mkPoolData v (taskMutex d) (tasks d) (numTasks d) (threadSemaphore d)
    (threadMutex d) (threads d) (numThreads d) (stopping d) (stopMutex d).
Definition set_taskMutex (v : Mutex) (d : PoolData) : PoolData :=
  mkPoolData (taskSemaphore d) v (tasks d) (numTasks d) (threadSemaphore d)
    (threadMutex d) (threads d) (numThreads d) (stopping d) (stopMutex d).
Definition set_tasks (v : list Task) (d : PoolData) : PoolData :=
  mkPoolData (taskSemaphore d) (taskMutex d) v (numTasks d) (threadSemaphore d)
    (threadMutex d) (threads d) (numThreads d) (stopping d) (stopMutex d).
Definition set_numTasks (v : Z) (d : PoolData) : PoolData :=
  mkPoolData (taskSemaphore d) (taskMutex d) (tasks d) v (threadSemaphore d)
    (threadMutex d) (threads d) (numThreads d) (stopping d) (stopMutex d).
Definition set_threadSemaphore (v : Semaphore) (d : PoolData) : PoolData :=
  mkPoolData (taskSemaphore d) (taskMutex d) (tasks d) (numTasks d) v
    (threadMutex d) (threads d) (numThreads d) (stopping d) (stopMutex d).
Definition set_threadMutex (v : Mutex) (d : PoolData) : PoolData :=
  mkPoolData (taskSemaphore d) (taskMutex d) (tasks d) (numTasks d)
    (threadSemaphore d) v (threads d) (numThreads d) (stopping d) (stopMutex d).
Definition set_threads (v : list nat) (d : PoolData) : PoolData :=
  mkPoolData (taskSemaphore d) (taskMutex d) (tasks d) (numTasks d)
    (threadSemaphore d) (threadMutex d) v (numThreads d) (stopping d) (stopMutex d).
Definition set_numThreads (v : Z) (d : PoolData) : PoolData :=
  mkPoolData (taskSemaphore d) (taskMutex d) (tasks d) (numTasks d)
    (threadSemaphore d) (threadMutex d) (threads d) v (stopping d) (stopMutex d).
Definition set_stopping (v : bool) (d : PoolData) : PoolData :=
  mkPoolData (taskSemaphore d) (taskMutex d) (tasks d) (numTasks d)
    (threadSemaphore d) (threadMutex d) (threads d) (numThreads d) v (stopMutex d).
Definition set_stopMutex (v : Mutex) (d : PoolData) : PoolData :=
  mkPoolData (taskSemaphore d) (taskMutex d) (tasks d) (numTasks d)
    (threadSemaphore d) (threadMutex d) (threads d) (numThreads d) (stopping d) v.

(** ** Program counters *)

(** Where a [WorkerThread] stands in [WorkerThread::run ()]. *)
Inductive WorkerPc :=
| WStart                 (* created by start (); run () not yet entered *)
| WWaitTask              (* _data->taskSemaphore.wait () *)
| WLockTask              (* Lock taskLock (_data->taskMutex) *)
| WCheck                 (* if (_data->numTasks > 0) *)
| WRelease (t : Task)    (* popped t; taskLock.release () *)
| WExecute (t : Task)    (* about to call task->execute () *)
| WExecuting (t : Task)  (* inside task->execute () *)
| WAcquire (t : Task)    (* taskLock.acquire () *)
| WRetire (t : Task)     (* delete task; taskGroup->_data->removeTask () *)
| WStopped               (* else if (_data->stopped ()) *)
| WUnlock                (* end of the block: ~Lock, next iteration *)
| WBreak                 (* break: ~Lock on the way out of the loop *)
| WExited.               (* run () has returned *)

(** What [finish ()] returns to. *)
Inductive FinishCont :=
| KResize (count : Z)    (* called from setNumThreads (count) *)
| KDestroy.              (* called from ~Data () *)

(** Where the calling thread stands. *)
Inductive CallerPc :=
| CReady                 (* between calls: the next command of the program *)
| CThrown                (* Iex::ArgExc has left setNumThreads *)
| CDestroyed             (* ~ThreadPool has returned *)
(* ThreadPool::setNumThreads (count) *)
| SNT_Lock (count : Z)   (* Lock lock (_data->threadMutex) *)
| SNT_Branch (count : Z) (* if (count > numThreads) .. else if (count < numThreads) *)
| SNT_Grow (count : Z)   (* while (_data->numThreads < count) *)
| SNT_Return (count : Z) (* ~Lock, return *)
(* ThreadPool::Data::finish () *)
| FIN_Stop (k : FinishCont)              (* stop () *)
| FIN_Post (k : FinishCont) (i : Z)      (* i < numThreads; taskSemaphore.post () *)
| FIN_Wait (k : FinishCont) (i : Z)      (* threadSemaphore.wait (); i++ *)
| FIN_Join (k : FinishCont) (rest : list nat)  (* join all the threads *)
| FIN_Lock1 (k : FinishCont)             (* Lock lock1 (taskMutex) *)
| FIN_Lock2 (k : FinishCont)             (* Lock lock2 (stopMutex) *)
| FIN_Clear (k : FinishCont)             (* threads.clear () .. stopping = false *)
| FIN_Unlock (k : FinishCont)            (* ~lock2, ~lock1 *)
(* ThreadPool::addTask (task) *)
| AT_Lock (t : Task)      (* Lock lock (_data->threadMutex) *)
| AT_Branch (t : Task)    (* if (_data->numThreads == 0) *)
| AT_Execute (t : Task)   (* about to call task->execute () *)
| AT_Executing (t : Task) (* inside task->execute () *)
| AT_Delete (t : Task)    (* delete task *)
| AT_LockTask (t : Task)  (* Lock taskLock (_data->taskMutex) *)
| AT_Push (t : Task)      (* push_back, numTasks++, group addTask *)
| AT_UnlockTask           (* ~taskLock *)
| AT_Post                 (* _data->taskSemaphore.post () *)
| AT_Return               (* ~lock, return *)
(* ThreadPool::numThreads () *)
| NT_Lock                 (* Lock lock (_data->threadMutex) *)
| NT_Read                 (* return _data->numThreads *)
(* TaskGroup::~TaskGroup () *)
| TG_Wait (g : nat)       (* delete _data: isEmpty.wait () *)
(* ThreadPool::~ThreadPool () *)
| DT_Lock                 (* delete _data: Lock lock (threadMutex) *)
| DT_Unlock.              (* ~lock *)

(** The calls the calling thread makes, in program order. *)
Inductive Command :=
| NewTaskGroup (g : nat)
| DeleteTaskGroup (g : nat)
| AddTask (t : Task)
| SetNumThreads (count : Z)
| NumThreads
| DeletePool.

(** What the machine records of a run. *)
Inductive Event :=
| EvSubmit (t : Task)                   (* addTask (t) was called *)
| EvEnqueue (t : Task)                  (* t was pushed into the FIFO *)
| EvExecBegin (x : ThreadId) (t : Task) (* x entered t->execute () *)
| EvExecEnd (x : ThreadId) (t : Task)   (* t->execute () returned to x *)
| EvDelete (t : Task)                   (* delete t *)
| EvGroupAdd (g : nat)                  (* TaskGroup::Data::addTask () ran on g *)
| EvGroupRemove (g : nat)               (* TaskGroup::Data::removeTask () ran on g *)
| EvDrained (g : nat)                   (* ~TaskGroup returned *)
| EvNumThreads (n : Z)                  (* numThreads () returned n *)
| EvResized (count : Z)                 (* setNumThreads (count) returned *)
| EvFinish (dropped : list Task)        (* finish () cleared the queue *)
| EvArgExc.                             (* Iex::ArgExc was thrown *)

#[global] Instance WorkerPc_eq_dec : EqDecision WorkerPc.
Proof. solve_decision. Defined.
#[global] Instance FinishCont_eq_dec : EqDecision FinishCont.
Proof. solve_decision. Defined.
#[global] Instance CallerPc_eq_dec : EqDecision CallerPc.
Proof. solve_decision. Defined.
#[global] Instance Event_eq_dec : EqDecision Event.
Proof. solve_decision. Defined.

(** ** Machine state *)

Record State := mkState {
  pool : PoolData;                  (* the ThreadPool's _data *)
  groups : gmap nat TaskGroupData;  (* the live TaskGroups' _data *)
  workers : list WorkerPc;          (* every WorkerThread ever created *)
  caller : CallerPc;
  program : list Command;           (* calls still to make *)
  log : list Event                  (* most recent first *)
}.

Definition with_pool (d : PoolData) (s : State) : State :=
  mkState d (groups s) (workers s) (caller s) (program s) (log s).
Definition with_groups (m : gmap nat TaskGroupData) (s : State) : State :=
  mkState (pool s) m (workers s) (caller s) (program s) (log s).
Definition with_workers (W : list WorkerPc) (s : State) : State :=
  mkState (pool s) (groups s) W (caller s) (program s) (log s).
Definition at_worker (w : nat) (pc : WorkerPc) (s : State) : State :=
  with_workers (<[w := pc]> (workers s)) s.
Definition at_caller (pc : CallerPc) (s : State) : State :=
  mkState (pool s) (groups s) (workers s) pc (program s) (log s).
Definition with_program (p : list Command) (s : State) : State :=
  mkState (pool s) (groups s) (workers s) (caller s) p (log s).
Definition record (e : Event) (s : State) : State :=
  mkState (pool s) (groups s) (workers s) (caller s) (program s) (e :: log s).

(** ** ThreadPool::Data: stopped, stop *)

(** [bool stopped () const]: [Lock lock (stopMutex); return stopping;] run
    by thread [x]; blocks while [stopMutex] is held. *)
Definition Data_stopped (x : ThreadId) (d : PoolData) : option bool :=
  _ ← Mutex_lock x (stopMutex d); Some (stopping d).

(** [void stop ()]: [Lock lock (stopMutex); stopping = true;] *)
Definition Data_stop (x : ThreadId) (d : PoolData) : option PoolData :=
  _ ← Mutex_lock x (stopMutex d); Some (set_stopping true d).

(** ** WorkerThread::run *)

Definition WorkerThread_run (w : nat) (s : State) : option State :=
  pc ← workers s !! w;
  let d := pool s in
  match pc with
  | WStart =>
      (* signal that the thread has started executing *)
      Some (at_worker w WWaitTask
              (with_pool (set_threadSemaphore (Semaphore_post (threadSemaphore d)) d) s))
  | WWaitTask =>
      (* wait for a task to become available *)
      v ← Semaphore_wait (taskSemaphore d);
      Some (at_worker w WLockTask (with_pool (set_taskSemaphore v d) s))
  | WLockTask =>
      m ← Mutex_lock (Worker w) (taskMutex d);
      Some (at_worker w WCheck (with_pool (set_taskMutex m d) s))
  | WCheck =>
      if (0 <? numTasks d)%Z
      then
        (* pop off the next task in the FIFO *)
        match tasks d with
        | [] => None
        | t :: q =>
            Some (at_worker w (WRelease t)
                    (with_pool (set_numTasks (numTasks d - 1)%Z (set_tasks q d)) s))
        end
      else Some (at_worker w WStopped s)
  | WRelease t =>
      Some (at_worker w (WExecute t)
              (with_pool (set_taskMutex (Mutex_unlock (taskMutex d)) d) s))
  | WExecute t =>
      Some (at_worker w (WExecuting t) (record (EvExecBegin (Worker w) t) s))
  | WExecuting t =>
      Some (at_worker w (WAcquire t) (record (EvExecEnd (Worker w) t) s))
  | WAcquire t =>
      m ← Mutex_lock (Worker w) (taskMutex d);
      Some (at_worker w (WRetire t) (with_pool (set_taskMutex m d) s))
  | WRetire t =>
      gd ← groups s !! group t;
      Some (at_worker w WUnlock
              (record (EvGroupRemove (group t))
                 (record (EvDelete t)
                    (with_groups (<[group t := TaskGroup.removeTask gd]> (groups s)) s))))
  | WStopped =>
      b ← Data_stopped (Worker w) d;
      if b : bool
      then Some (at_worker w WBreak s)
      else Some (at_worker w WUnlock s)
  | WUnlock =>
      Some (at_worker w WWaitTask
              (with_pool (set_taskMutex (Mutex_unlock (taskMutex d)) d) s))
  | WBreak =>
      Some (at_worker w WExited
              (with_pool (set_taskMutex (Mutex_unlock (taskMutex d)) d) s))
  | WExited => None
  end.

(** ** ThreadPool::Data::finish *)

Definition finish_return (k : FinishCont) : CallerPc :=
  match k with
  | KResize count => SNT_Grow count
  | KDestroy => DT_Unlock
  end.

Definition Data_finish (pc : CallerPc) (s : State) : option State :=
  let d := pool s in
  match pc with
  | FIN_Stop k =>
      d' ← Data_stop Caller d;
      Some (at_caller (FIN_Post k 0%Z) (with_pool d' s))
  | FIN_Post k i =>
      (* signal enough times to allow all threads to stop; wait until
         all threads have started their run functions *)
      if (size_t_of_int i <? numThreads d)%Z
      then Some (at_caller (FIN_Wait k i)
                   (with_pool (set_taskSemaphore (Semaphore_post (taskSemaphore d)) d) s))
      else Some (at_caller (FIN_Join k (threads d)) s)
  | FIN_Wait k i =>
      v ← Semaphore_wait (threadSemaphore d);
      Some (at_caller (FIN_Post k (wrap_int (i + 1))) (with_pool (set_threadSemaphore v d) s))
  | FIN_Join k rest =>
      match rest with
      | [] => Some (at_caller (FIN_Lock1 k) s)
      | w :: rest' =>
          (* join: returns once the thread has left run () *)
          match workers s !! w with
          | Some WExited => Some (at_caller (FIN_Join k rest') s)
          | _ => None
          end
      end
  | FIN_Lock1 k =>
      m ← Mutex_lock Caller (taskMutex d);
      Some (at_caller (FIN_Lock2 k) (with_pool (set_taskMutex m d) s))
  | FIN_Lock2 k =>
      m ← Mutex_lock Caller (stopMutex d);
      Some (at_caller (FIN_Clear k) (with_pool (set_stopMutex m d) s))
  | FIN_Clear k =>
      Some (at_caller (FIN_Unlock k)
              (record (EvFinish (tasks d))
                 (with_pool
                    (set_stopping false
                       (set_numTasks 0%Z
                          (set_numThreads 0%Z
                             (set_tasks [] (set_threads [] d))))) s)))
  | FIN_Unlock k =>
      Some (at_caller (finish_return k)
              (with_pool
                 (set_taskMutex (Mutex_unlock (taskMutex d))
                    (set_stopMutex (Mutex_unlock (stopMutex d)) d)) s))
  | _ => None
  end.

(** ** ThreadPool::setNumThreads *)

(** [new WorkerThread (_data)] followed by [push_back] and [numThreads++]:
    the new thread exists, and may run, from this statement on. *)
Definition spawn_worker (s : State) : State :=
  let d := pool s in
  let w := length (workers s) in
  with_workers (workers s ++ [WStart])
    (with_pool (set_numThreads (numThreads d + 1)%Z (set_threads (threads d ++ [w]) d)) s).

(** The first statement: [if (count < 0) throw Iex::ArgExc (..)]. *)
Definition ThreadPool_setNumThreads_enter (count : Z) (s : State) : State :=
  if (count <? 0)%Z
  then at_caller CThrown (record EvArgExc s)
  else at_caller (SNT_Lock count) s.

(** The rest, under [threadMutex].  The two [while] loops of the source
    are the same statement, here [SNT_Grow]. *)
Definition ThreadPool_setNumThreads (pc : CallerPc) (s : State) : option State :=
  let d := pool s in
  match pc with
  | SNT_Lock count =>
      (* lock access to thread list and size *)
      m ← Mutex_lock Caller (threadMutex d);
      Some (at_caller (SNT_Branch count) (with_pool (set_threadMutex m d) s))
  | SNT_Branch count =>
      if (size_t_of_int count >? numThreads d)%Z
      then (* add more threads *)
        Some (at_caller (SNT_Grow count) s)
      else if (size_t_of_int count <? numThreads d)%Z
      then (* stop all existing threads once they are finished processing *)
        Some (at_caller (FIN_Stop (KResize count)) s)
      else Some (at_caller (SNT_Return count) s)
  | SNT_Grow count =>
      if (numThreads d <? size_t_of_int count)%Z
      then Some (spawn_worker s)
      else Some (at_caller (SNT_Return count) s)
  | SNT_Return count =>
      Some (at_caller CReady
              (record (EvResized count)
                 (with_pool (set_threadMutex (Mutex_unlock (threadMutex d)) d) s)))
  | _ => None
  end.

(** ** ThreadPool::addTask *)

Definition ThreadPool_addTask (pc : CallerPc) (s : State) : option State :=
  let d := pool s in
  match pc with
  | AT_Lock t =>
      (* lock the threads, needed to access numThreads *)
      m ← Mutex_lock Caller (threadMutex d);
      Some (at_caller (AT_Branch t) (with_pool (set_threadMutex m d) s))
  | AT_Branch t =>
      if (numThreads d =? 0)%Z
      then Some (at_caller (AT_Execute t) s)
      else Some (at_caller (AT_LockTask t) s)
  | AT_Execute t =>
      Some (at_caller (AT_Executing t) (record (EvExecBegin Caller t) s))
  | AT_Executing t =>
      Some (at_caller (AT_Delete t) (record (EvExecEnd Caller t) s))
  | AT_Delete t =>
      Some (at_caller AT_Return (record (EvDelete t) s))
  | AT_LockTask t =>
      (* get exclusive access to the tasks queue *)
      m ← Mutex_lock Caller (taskMutex d);
      Some (at_caller (AT_Push t) (with_pool (set_taskMutex m d) s))
  | AT_Push t =>
      (* push the task into the FIFO *)
      gd ← groups s !! group t;
      gd' ← TaskGroup.addTask gd;
      Some (at_caller AT_UnlockTask
              (record (EvGroupAdd (group t))
                 (record (EvEnqueue t)
                    (with_groups (<[group t := gd']> (groups s))
                       (with_pool
                          (set_numTasks (numTasks d + 1)%Z (set_tasks (tasks d ++ [t]) d))
                          s)))))
  | AT_UnlockTask =>
      Some (at_caller AT_Post
              (with_pool (set_taskMutex (Mutex_unlock (taskMutex d)) d) s))
  | AT_Post =>
      (* signal that we have a new task to process *)
      Some (at_caller AT_Return
              (with_pool (set_taskSemaphore (Semaphore_post (taskSemaphore d)) d) s))
  | AT_Return =>
      Some (at_caller CReady
              (with_pool (set_threadMutex (Mutex_unlock (threadMutex d)) d) s))
  | _ => None
  end.

(** ** ThreadPool::numThreads *)

Definition ThreadPool_numThreads (pc : CallerPc) (s : State) : option State :=
  let d := pool s in
  match pc with
  | NT_Lock =>
      m ← Mutex_lock Caller (threadMutex d);
      Some (at_caller NT_Read (with_pool (set_threadMutex m d) s))
  | NT_Read =>
      Some (at_caller CReady
              (record (EvNumThreads (int_of_size_t (numThreads d)))
                 (with_pool (set_threadMutex (Mutex_unlock (threadMutex d)) d) s)))
  | _ => None
  end.

(** ** Destructors *)

(** [TaskGroup::~TaskGroup ()]: [delete _data], whose destructor waits
    until the taskgroup is empty before returning. *)
Definition TaskGroup_delete (pc : CallerPc) (s : State) : option State :=
  match pc with
  | TG_Wait g =>
      gd ← groups s !! g;
      _ ← TaskGroup.drain gd;
      Some (at_caller CReady (record (EvDrained g) (with_groups (delete g (groups s)) s)))
  | _ => None
  end.

(** [ThreadPool::~ThreadPool ()]: [delete _data], whose destructor is
    [Lock lock (threadMutex); finish ();]. *)
Definition ThreadPool_delete (pc : CallerPc) (s : State) : option State :=
  let d := pool s in
  match pc with
  | DT_Lock =>
      m ← Mutex_lock Caller (threadMutex d);
      Some (at_caller (FIN_Stop KDestroy) (with_pool (set_threadMutex m d) s))
  | DT_Unlock =>
      Some (at_caller CDestroyed
              (with_pool (set_threadMutex (Mutex_unlock (threadMutex d)) d) s))
  | _ => None
  end.

(** ** The calling thread *)

(** The next call of the program. *)
Definition call (c : Command) (s : State) : option State :=
  match c with
  | NewTaskGroup g =>
      (* TaskGroup () : _data (new Data ()), at an address not in use *)
      match groups s !! g with
      | Some _ => None
      | None => Some (with_groups (<[g := TaskGroup.Data]> (groups s)) s)
      end
  | DeleteTaskGroup g => Some (at_caller (TG_Wait g) s)
  | AddTask t => Some (at_caller (AT_Lock t) (record (EvSubmit t) s))
  | SetNumThreads count => Some (ThreadPool_setNumThreads_enter count s)
  | NumThreads => Some (at_caller NT_Lock s)
  | DeletePool => Some (at_caller DT_Lock s)
  end.

Definition caller_step (s : State) : option State :=
  match caller s with
  | CReady =>
      match program s with
      | [] => None
      | c :: rest => call c (with_program rest s)
      end
  | CThrown | CDestroyed => None
  | SNT_Lock _ | SNT_Branch _ | SNT_Grow _ | SNT_Return _ =>
      ThreadPool_setNumThreads (caller s) s
  | FIN_Stop _ | FIN_Post _ _ | FIN_Wait _ _ | FIN_Join _ _ | FIN_Lock1 _
  | FIN_Lock2 _ | FIN_Clear _ | FIN_Unlock _ =>
      Data_finish (caller s) s
  | AT_Lock _ | AT_Branch _ | AT_Execute _ | AT_Executing _ | AT_Delete _
  | AT_LockTask _ | AT_Push _ | AT_UnlockTask | AT_Post | AT_Return =>
      ThreadPool_addTask (caller s) s
  | NT_Lock | NT_Read => ThreadPool_numThreads (caller s) s
  | TG_Wait _ => TaskGroup_delete (caller s) s
  | DT_Lock | DT_Unlock => ThreadPool_delete (caller s) s
  end.

(** ** Interleaving *)

Definition step (x : ThreadId) (s : State) : option State :=
  match x with
  | Caller => caller_step s
  | Worker w => WorkerThread_run w s
  end.

(** A scheduled thread that cannot move leaves the state as it is. *)
Definition exec (s : State) (x : ThreadId) : State :=
  match step x s with
  | Some s' => s'
  | None => s
  end.

Definition run (sched : list ThreadId) (s : State) : State :=
  fold_left exec sched s.

(** The calling thread run on its own for [n] statements. *)
Definition solo (n : nat) (s : State) : State :=
  run (replicate n Caller) s.

(** [ThreadPool pool (nthreads);] followed by the calls of [prog]:
    [_data (new Data ())], then [setNumThreads (nthreads)] with the
    [unsigned] argument converted to [int]. *)
Definition ThreadPool (nthreads : Z) (prog : list Command) : State :=
  mkState PoolData_new ∅ [] CReady
    (SetNumThreads (int_of_unsigned nthreads) :: prog) [].

(** [ThreadPool g_threadPool (0);], the global pool behind
    [globalThreadPool ()] and [addGlobalTask (task)]. *)
Definition g_threadPool (prog : list Command) : State := ThreadPool 0 prog.

(** What [ThreadPool::numThreads ()] would return in state [s]. *)
Definition numThreads_result (s : State) : Z :=
  int_of_size_t (numThreads (pool s)).

(** Round-robin schedules, for running scenarios. *)
Definition round (nworkers : nat) : list ThreadId :=
  Caller :: (Worker <$> seq 0 nworkers).

Fixpoint rounds (n nworkers : nat) : list ThreadId :=
  match n with
  | O => []
  | S n' => round nworkers ++ rounds n' nworkers
  end.

(** ** Lock discipline *)

(** The statements at which the calling thread holds each mutex. *)
Definition caller_holds_thread (pc : CallerPc) : bool :=
  match pc with
  | CReady | CThrown | CDestroyed | SNT_Lock _ | AT_Lock _ | NT_Lock
  | TG_Wait _ | DT_Lock => false
  | _ => true
  end.

Definition caller_holds_task (pc : CallerPc) : bool :=
  match pc with
  | FIN_Lock2 _ | FIN_Clear _ | FIN_Unlock _ | AT_Push _ | AT_UnlockTask => true
  | _ => false
  end.

Definition caller_holds_stop (pc : CallerPc) : bool :=
  match pc with
  | FIN_Clear _ | FIN_Unlock _ => true
  | _ => false
  end.

(** The statements at which a worker holds [taskMutex]. *)
Definition worker_holds_task (pc : WorkerPc) : bool :=
  match pc with
  | WCheck | WRelease _ | WRetire _ | WStopped | WUnlock | WBreak => true
  | _ => false
  end.

Definition worker_holds (W : list WorkerPc) (w : nat) : bool :=
  from_option worker_holds_task false (W !! w).

Definition held_by (b : bool) : Mutex := if b then Some Caller else None.

Record LockInv (s : State) : Prop := {
  lock_thread : threadMutex (pool s) = held_by (caller_holds_thread (caller s));
  lock_stop : stopMutex (pool s) = held_by (caller_holds_stop (caller s));
  lock_task_caller :
    taskMutex (pool s) = Some Caller <-> caller_holds_task (caller s) = true;
  lock_task_worker : forall w,
    taskMutex (pool s) = Some (Worker w) <-> worker_holds (workers s) w = true
}.

(** The mutexes thread [x] holds in state [s]. *)
Inductive MutexName := TaskMutex | ThreadMutex | StopMutex.

Definition locks_held (x : ThreadId) (s : State) : list MutexName :=
  (if decide (taskMutex (pool s) = Some x) then [TaskMutex] else []) ++
  (if decide (threadMutex (pool s) = Some x) then [ThreadMutex] else []) ++
  (if decide (stopMutex (pool s) = Some x) then [StopMutex] else []).

(** Thread [x] is inside a task's [execute ()]. *)
Definition executing (x : ThreadId) (s : State) : Prop :=
  match x with
  | Caller => exists t, caller s = AT_Executing t
  | Worker w => exists t, workers s !! w = Some (WExecuting t)
  end.

(** ** Counters and lists *)

Record CountInv (s : State) : Prop := {
  count_tasks : numTasks (pool s) = Z.of_nat (length (tasks (pool s)));
  count_threads : numThreads (pool s) = Z.of_nat (length (threads (pool s)))
}.

(** ** Workers and shutdown *)

Definition exited (W : list WorkerPc) (w : nat) : Prop := W !! w = Some WExited.

(** What [finish ()] knows of the workers it has joined. *)
Definition caller_joined (W : list WorkerPc) (ths : list nat) (pc : CallerPc) : Prop :=
  match pc with
  | FIN_Join _ rest =>
      exists joined, ths = joined ++ rest /\ Forall (exited W) joined
  | FIN_Lock1 _ | FIN_Lock2 _ | FIN_Clear _ => Forall (exited W) ths
  | _ => True
  end.

Record WorkerInv (s : State) : Prop := {
  live_in_threads : forall w pc,
    workers s !! w = Some pc -> pc <> WExited -> w ∈ threads (pool s);
  joined_exited : caller_joined (workers s) (threads (pool s)) (caller s)
}.

(** The statements of [finish ()] between [stop ()] and the reset. *)
Definition caller_stopping (pc : CallerPc) : bool :=
  match pc with
  | FIN_Post _ _ | FIN_Wait _ _ | FIN_Join _ _ | FIN_Lock1 _ | FIN_Lock2 _
  | FIN_Clear _ => true
  | _ => false
  end.

(** The worker has left its loop. *)
Definition worker_left (pc : WorkerPc) : bool :=
  match pc with
  | WBreak | WExited => true
  | _ => false
  end.

(** The calling thread is on the queueing branch of [addTask]. *)
Definition caller_queueing (pc : CallerPc) : bool :=
  match pc with
  | AT_LockTask _ | AT_Push _ => true
  | _ => false
  end.

(** The calling thread is on the synchronous branch of [addTask]. *)
Definition caller_inline (pc : CallerPc) : bool :=
  match pc with
  | AT_Execute _ | AT_Executing _ | AT_Delete _ => true
  | _ => false
  end.

Record StopInv (s : State) : Prop := {
  stop_flag : stopping (pool s) = caller_stopping (caller s);
  left_stopping : forall w pc,
    workers s !! w = Some pc -> worker_left pc = true ->
    w ∈ threads (pool s) ->
    stopping (pool s) = true /\ tasks (pool s) = [];
  stopped_empty : forall w,
    workers s !! w = Some WStopped -> tasks (pool s) = [];
  nothreads_empty : threads (pool s) = [] -> tasks (pool s) = [];
  queueing_threads :
    caller_queueing (caller s) = true -> threads (pool s) <> [];
  inline_nothreads :
    caller_inline (caller s) = true -> threads (pool s) = []
}.

(** ** Task accounting *)

(** The task a worker has popped and not yet retired. *)
Definition worker_task (pc : WorkerPc) : option Task :=
  match pc with
  | WRelease t | WExecute t | WExecuting t | WAcquire t | WRetire t => Some t
  | _ => None
  end.

(** The task the calling thread has accepted and not yet queued or deleted. *)
Definition caller_task (pc : CallerPc) : option Task :=
  match pc with
  | AT_Lock t | AT_Branch t | AT_Execute t | AT_Executing t | AT_Delete t
  | AT_LockTask t | AT_Push t => Some t
  | _ => None
  end.

Definition executed (t : Task) (l : list Event) : Prop :=
  exists x, EvExecEnd x t ∈ l.

Definition begun (t : Task) (l : list Event) : Prop :=
  exists x, EvExecBegin x t ∈ l.

(** [t] has been executed and deleted. *)
Definition completed (t : Task) (l : list Event) : Prop :=
  executed t l /\ EvDelete t ∈ l.

Definition worker_has (W : list WorkerPc) (t : Task) : Prop :=
  exists w pc, W !! w = Some pc /\ worker_task pc = Some t.

Record TaskInv (s : State) : Prop := {
  submitted_accounted : forall t,
    EvSubmit t ∈ log s ->
    t ∈ tasks (pool s) \/ worker_has (workers s) t \/
    caller_task (caller s) = Some t \/ completed t (log s);
  worker_executed : forall w t,
    workers s !! w = Some (WAcquire t) \/ workers s !! w = Some (WRetire t) ->
    executed t (log s);
  caller_executed : forall t, caller s = AT_Delete t -> executed t (log s);
  caller_submitted : forall t,
    caller_task (caller s) = Some t -> EvSubmit t ∈ log s;
  enqueued_submitted : forall t, EvEnqueue t ∈ log s -> EvSubmit t ∈ log s
}.

(** ** Group accounting *)

Definition task_in (g : nat) (t : Task) : nat :=
  if decide (group t = g) then 1 else 0.

Definition worker_pending (g : nat) (pc : WorkerPc) : nat :=
  from_option (task_in g) 0 (worker_task pc).

(** The tasks of group [g] that are queued or held by a worker. *)
Definition pending (g : nat) (s : State) : nat :=
  sum_list_with (task_in g) (tasks (pool s)) +
  sum_list_with (worker_pending g) (workers s).

Definition is_AddTask (c : Command) : nat :=
  match c with
  | AddTask _ => 1
  | _ => 0
  end.

(** The [addTask] calls of a program. *)
Definition adds (prog : list Command) : nat := sum_list_with is_AddTask prog.

(** Tasks in the machine or still to be submitted. *)
Definition holds_one (o : option Task) : nat := from_option (fun _ => 1) 0 o.

Definition load (s : State) : nat :=
  length (tasks (pool s)) +
  sum_list_with (fun pc => holds_one (worker_task pc)) (workers s) +
  holds_one (caller_task (caller s)) +
  adds (program s).

(** The value of a group's semaphore at [n] pending tasks. *)
Definition gate_of (n : nat) : Semaphore := if decide (n = 0) then 1 else 0.

Record GroupInv (s : State) : Prop := {
  group_count : forall g d,
    groups s !! g = Some d ->
    numPending d = Z.of_nat (pending g s) /\
    isEmpty d = gate_of (pending g s);
  group_alive : forall g, groups s !! g = None -> pending g s = 0
}.

(** ** The invariant of the machine *)

Record Inv (s : State) : Prop := {
  inv_lock : LockInv s;
  inv_count : CountInv s;
  inv_worker : WorkerInv s;
  inv_stop : StopInv s;
  inv_task : TaskInv s
}.

(** The invariant of a machine whose program submits fewer than 2^31
    tasks: no group's [int] counter can overflow. *)
Record BoundedInv (s : State) : Prop := {
  binv_inv : Inv s;
  binv_group : GroupInv s;
  binv_load : (Z.of_nat (load s) <= INT_MAX)%Z
}.

(** ** Properties of the log *)

(** [HistInv Q s]: every event [e] of the log satisfies [Q e l], where
    [l] is the log as it stood just before [e] was recorded. *)
Definition HistInv (Q : Event -> list Event -> Prop) (s : State) : Prop :=
  forall l1 l2 e, log s = l1 ++ e :: l2 -> Q e l2.

(** When [~TaskGroup] returns, the tasks submitted to the group so far
    have been executed and deleted. *)
Definition drained_after_completion (e : Event) (l : list Event) : Prop :=
  match e with
  | EvDrained g => forall t, EvSubmit t ∈ l -> group t = g -> completed t l
  | _ => True
  end.


(** The argument of the most recent [setNumThreads] call that returned. *)
Fixpoint last_resized (l : list Event) : option Z :=
  match l with
  | [] => None
  | EvResized count :: _ => Some count
  | _ :: l' => last_resized l'
  end.

(** [numThreads ()] returns the argument of the last [setNumThreads]. *)
Definition numThreads_after_resize (e : Event) (l : list Event) : Prop :=
  match e with
  | EvNumThreads r => forall N, last_resized l = Some N -> r = N
  | _ => True
  end.

(** ** Resizing *)

(** The arguments of the program's calls are C++ values. *)
Definition command_ok (c : Command) : Prop :=
  match c with
  | SetNumThreads count => is_int count
  | _ => True
  end.

(** The [count] of the [setNumThreads] call in progress. *)
Definition caller_count (pc : CallerPc) : option Z :=
  match pc with
  | SNT_Lock count | SNT_Branch count | SNT_Grow count | SNT_Return count
  | FIN_Stop (KResize count) | FIN_Post (KResize count) _
  | FIN_Wait (KResize count) _ | FIN_Join (KResize count) _
  | FIN_Lock1 (KResize count) | FIN_Lock2 (KResize count)
  | FIN_Clear (KResize count) | FIN_Unlock (KResize count) => Some count
  | _ => None
  end.

(** The statements at which the thread count is the one the last
    completed [setNumThreads] left. *)
Definition caller_settled (pc : CallerPc) : bool :=
  match pc with
  | SNT_Grow _ | SNT_Return _ | FIN_Unlock _ | DT_Unlock | CDestroyed => false
  | _ => true
  end.

Record ResizeInv (s : State) : Prop := {
  resize_program : Forall command_ok (program s);
  resize_count : forall count,
    caller_count (caller s) = Some count -> (0 <= count <= INT_MAX)%Z;
  resize_threads : (0 <= numThreads (pool s) <= INT_MAX)%Z;
  resize_grow : forall count,
    caller s = SNT_Grow count -> (numThreads (pool s) <= count)%Z;
  resize_cleared : forall k,
    caller s = FIN_Unlock k -> numThreads (pool s) = 0%Z;
  resize_return : forall count,
    caller s = SNT_Return count -> numThreads (pool s) = count;
  resize_settled : forall N,
    caller_settled (caller s) = true ->
    last_resized (log s) = Some N -> numThreads (pool s) = N
}.

(** ** The calls made so far *)

(** The argument of the last [setNumThreads] call of a list of calls. *)
Definition last_count (calls : list Command) : option Z :=
  foldl (fun acc c => match c with SetNumThreads count => Some count | _ => acc end)
        None calls.

(** The [setNumThreads] call in progress. *)
Definition pending_call (pc : CallerPc) : list Command :=
  match caller_count pc with
  | Some count => [SetNumThreads count]
  | None => []
  end.

(** Unless [Iex::ArgExc] was thrown, the calls of the program are those
    made so far ([made], without a [setNumThreads] that has not yet
    returned), the [setNumThreads] in progress and those still to make;
    and the last [setNumThreads] the log shows to have returned is the
    last of [made]. *)
Definition CallInv (calls : list Command) (s : State) : Prop :=
  caller s = CThrown \/
  exists made, calls = made ++ pending_call (caller s) ++ program s /\
    last_resized (log s) = last_count made.

(** ** The return of a shrinking call *)




(** ** What a call leaves untouched *)

(** The task queue, its counter, the stopping flag and the task groups
    are the same in [s] and [s']. *)
Definition same_queue (s s' : State) : Prop :=
  tasks (pool s') = tasks (pool s) /\
  numTasks (pool s') = numTasks (pool s) /\
  stopping (pool s') = stopping (pool s) /\
  groups s' = groups s.

(** The worker list and its counter are the same in [s] and [s']. *)
Definition same_threads (s s' : State) : Prop :=
  threads (pool s') = threads (pool s) /\
  numThreads (pool s') = numThreads (pool s) /\
  workers s' = workers s.

(** [s'] is [s] with [k] more workers, started and appended to the list. *)
Definition grown (k : nat) (s s' : State) : Prop :=
  threads (pool s') = threads (pool s) ++ seq (length (workers s)) k /\
  numThreads (pool s') = (numThreads (pool s) + Z.of_nat k)%Z /\
  workers s' = workers s ++ replicate k WStart.

(** The statements of [setNumThreads] outside [finish ()]. *)
Definition in_setNumThreads (pc : CallerPc) : bool :=
  match pc with
  | SNT_Lock _ | SNT_Branch _ | SNT_Grow _ | SNT_Return _ => true
  | _ => false
  end.

(** What the synchronous branch of [addTask (t)] records, most recent
    first. *)
Definition inline_events (t : Task) : list Event :=
  [EvDelete t; EvExecEnd Caller t; EvExecBegin Caller t; EvSubmit t].

(** The log of [addTask] called on each task of [ts] in turn by a pool
    without threads, most recent first. *)
Fixpoint inline_log (ts : list Task) : list Event :=
  match ts with
  | [] => []
  | t :: ts' => inline_log ts' ++ inline_events t
  end.

(** ** Scenarios *)

Module Scenario.
(** A group with three tasks pending. *)
Definition busy_group : TaskGroupData := mkTaskGroupData 0 3%Z.

Definition t0 : Task := mkTask 0 0.
Definition t1 : Task := mkTask 1 0.

(** A pool without threads, a group, and two tasks about to be added. *)
Definition inline_call : State :=
  solo 5 (ThreadPool 0 [NewTaskGroup 0; AddTask t0; AddTask t1]).

(** The same pool inside the first task's [execute ()]. *)
Definition inline_executing : State := solo 4 inline_call.

(** The same pool once the first [addTask] has returned. *)
Definition inline_returned : State := solo 7 inline_call.

(** A pool of four threads about to be given a negative count. *)
Definition negative_call : State :=
  solo 9 (ThreadPool 4 [SetNumThreads (-1); NumThreads]).

(** A pool of two threads about to be resized to two, then to five. *)
Definition resize_call : State :=
  solo 7 (ThreadPool 2 [SetNumThreads 2; SetNumThreads 5]).

(** [setNumThreads (4)]; ten tasks of one group; [setNumThreads (0)];
    [~TaskGroup]; [setNumThreads (2)]; [numThreads ()]. *)
Definition shrink_program : list Command :=
  [NewTaskGroup 0] ++ (AddTask <$> ((fun n => mkTask n 0) <$> seq 0 10)) ++
  [SetNumThreads 0; DeleteTaskGroup 0; SetNumThreads 2; NumThreads].

Definition shrink_schedule : list ThreadId := rounds 200 6.

Definition shrink_run : State :=
  run shrink_schedule (ThreadPool 4 shrink_program).

(** Two tasks on a pool of one thread. *)
Definition fifo_program : list Command :=
  [NewTaskGroup 0; AddTask t0; AddTask t1; DeleteTaskGroup 0].

Definition fifo_schedule : list ThreadId := rounds 40 1.

Definition fifo_run : State := run fifo_schedule (ThreadPool 1 fifo_program).
(** One task on a pool of one thread, then [setNumThreads (0)]. *)
Definition stop_program : list Command :=
  [NewTaskGroup 0; AddTask t0; SetNumThreads 0].

Definition stop_run : State := run (rounds 40 1) (ThreadPool 1 stop_program).
End Scenario.

(** ** Order of execution *)

(** The tasks given to [addTask] so far, oldest first. *)
Fixpoint submitted (l : list Event) : list Task :=
  match l with
  | [] => []
  | EvSubmit t :: l' => submitted l' ++ [t]
  | _ :: l' => submitted l'
  end.

(** The tasks a program will give to [addTask], in call order. *)
Definition prog_tasks (prog : list Command) : list Task :=
  omap (fun c => match c with AddTask t => Some t | _ => None end) prog.

(** [a] was given to [addTask] before [b]. *)
Definition submitted_before (a b : Task) (l : list Event) : Prop :=
  exists l1 l2 l3, submitted l = l1 ++ a :: l2 ++ b :: l3.

(** The task a worker has popped and whose [execute ()] has not returned. *)
Definition worker_unfinished (pc : WorkerPc) : option Task :=
  match pc with
  | WRelease t | WExecute t | WExecuting t => Some t
  | _ => None
  end.

Definition held (W : list WorkerPc) : list Task := omap worker_unfinished W.

(** The task [addTask] has accepted and neither queued nor executed. *)
Definition caller_unfinished (pc : CallerPc) : list Task :=
  match pc with
  | AT_Lock t | AT_Branch t | AT_LockTask t | AT_Push t | AT_Execute t
  | AT_Executing t => [t]
  | _ => []
  end.

(** Some thread is inside [t]'s [execute ()]. *)
Definition running (s : State) (t : Task) : Prop :=
  caller s = AT_Executing t \/ exists w, workers s !! w = Some (WExecuting t).

(** The program never asks for more than one thread. *)
Definition single_thread (c : Command) : Prop :=
  match c with
  | SetNumThreads count => (count <= 1)%Z
  | _ => True
  end.

(** With at most one worker, the submitted tasks are, in order: those
    whose [execute ()] has returned, the one being executed, the queue,
    and the one being added. *)
Record OrderInv (s : State) : Prop := {
  order_program : Forall single_thread (program s);
  order_count : forall count,
    caller_count (caller s) = Some count -> (0 <= count <= 1)%Z;
  order_threads : length (threads (pool s)) <= 1;
  order_split : exists finished,
    submitted (log s) =
      finished ++ held (workers s) ++ tasks (pool s) ++
      caller_unfinished (caller s) /\
    (forall t, t ∈ finished -> executed t (log s)) /\
    (forall t, begun t (log s) -> t ∈ finished \/ running s t)
}.

(** When [b]'s [execute ()] is entered, the [execute ()] of every task
    submitted before [b] has returned. *)
Definition begins_in_order (e : Event) (l : list Event) : Prop :=
  match e with
  | EvExecBegin _ b => forall a, submitted_before a b l -> executed a l
  | _ => True
  end.

(** * Further properties: definitions *)

(** ** Sequences of calls on a task group *)

(** The two member functions the pool calls on a [TaskGroup::Data]. *)
Inductive GroupOp :=
| OpAdd        (* addTask () *)
| OpRemove.    (* removeTask () *)

Definition group_call (o : GroupOp) (d : TaskGroupData) : option TaskGroupData :=
  match o with
  | OpAdd => TaskGroup.addTask d
  | OpRemove => Some (TaskGroup.removeTask d)
  end.

(** The calls of [ops] in order; [None] when one of them blocks. *)
Fixpoint group_calls (ops : list GroupOp) (d : TaskGroupData) : option TaskGroupData :=
  match ops with
  | [] => Some d
  | o :: ops' => d' ← group_call o d; group_calls ops' d'
  end.

(** What a call adds to the count. *)
Definition op_delta (o : GroupOp) : Z :=
  match o with
  | OpAdd => 1
  | OpRemove => -1
  end.

Definition ops_delta (ops : list GroupOp) : Z :=
  foldr (fun o z => (op_delta o + z)%Z) 0%Z ops.

(** The semaphore is 0 at a positive count and 1 otherwise. *)
Definition gate_at (n : Z) : Semaphore := if (0 <? n)%Z then 0 else 1.

Definition gate_matches (d : TaskGroupData) : Prop :=
  isEmpty d = gate_at (numPending d).

(** ** Where the calling thread stands *)

(** The calling thread is between calls, or has left the pool for good. *)
Definition caller_outside (pc : CallerPc) : bool :=
  match pc with
  | CReady | CThrown | CDestroyed => true
  | _ => false
  end.

(** The statements after [finish ()] has reset the pool, up to the next
    statement that changes it. *)
Definition caller_cleared (pc : CallerPc) : bool :=
  match pc with
  | FIN_Unlock _ | DT_Unlock | CDestroyed => true
  | _ => false
  end.

Definition ClearedInv (s : State) : Prop :=
  caller_cleared (caller s) = true ->
  threads (pool s) = [] /\ tasks (pool s) = [].

(** ** The life of a task *)

Definition is_task (u t : Task) : nat := if decide (t = u) then 1 else 0.

(** Where a thread stands with the task it holds: before the call of
    [execute ()], inside it, or after it and before [delete]. *)
Inductive Stage := Unbegun | Running | Ended.

#[global] Instance Stage_eq_dec : EqDecision Stage.
Proof. solve_decision. Defined.

Definition worker_stage (pc : WorkerPc) : option (Stage * Task) :=
  match pc with
  | WRelease t | WExecute t => Some (Unbegun, t)
  | WExecuting t => Some (Running, t)
  | WAcquire t | WRetire t => Some (Ended, t)
  | _ => None
  end.

Definition caller_stage (pc : CallerPc) : option (Stage * Task) :=
  match pc with
  | AT_Lock t | AT_Branch t | AT_Execute t | AT_LockTask t | AT_Push t =>
      Some (Unbegun, t)
  | AT_Executing t => Some (Running, t)
  | AT_Delete t => Some (Ended, t)
  | _ => None
  end.

Definition at_stage (st : Stage) (u : Task) (o : option (Stage * Task)) : nat :=
  match o with
  | Some (st', t) => if decide (st' = st) then is_task u t else 0
  | None => 0
  end.

(** The threads that hold [u] at stage [st]. *)
Definition in_stage (st : Stage) (u : Task) (s : State) : nat :=
  sum_list_with (fun pc => at_stage st u (worker_stage pc)) (workers s) +
  at_stage st u (caller_stage (caller s)).

(** The copies of [u] whose [execute ()] has not been called: still in
    the program, in the queue, or held by a thread. *)
Definition unbegun (u : Task) (s : State) : nat :=
  sum_list_with (is_task u) (prog_tasks (program s)) +
  sum_list_with (is_task u) (tasks (pool s)) +
  in_stage Unbegun u s.

Definition is_begin (u : Task) (e : Event) : nat :=
  match e with
  | EvExecBegin _ t => is_task u t
  | _ => 0
  end.

Definition is_end (u : Task) (e : Event) : nat :=
  match e with
  | EvExecEnd _ t => is_task u t
  | _ => 0
  end.

Definition is_delete (u : Task) (e : Event) : nat :=
  match e with
  | EvDelete t => is_task u t
  | _ => 0
  end.

(** Every copy of a task the program submits is in exactly one place. *)
Record OnceInv (prog : list Command) (s : State) : Prop := {
  once_begin : forall u,
    unbegun u s + sum_list_with (is_begin u) (log s) =
    sum_list_with (is_task u) (prog_tasks prog);
  once_end : forall u,
    sum_list_with (is_begin u) (log s) =
    in_stage Running u s + sum_list_with (is_end u) (log s);
  once_delete : forall u,
    sum_list_with (is_end u) (log s) =
    in_stage Ended u s + sum_list_with (is_delete u) (log s);
  once_running_caller : forall t,
    caller s = AT_Executing t -> EvExecBegin Caller t ∈ log s;
  once_running_worker : forall w t,
    workers s !! w = Some (WExecuting t) -> EvExecBegin (Worker w) t ∈ log s
}.

(** Each [execute ()] is the first of its task; it returns to the thread
    that called it; [delete] follows the return and is the only one. *)
Definition at_most_once (e : Event) (l : list Event) : Prop :=
  match e with
  | EvExecBegin _ t => ~ begun t l
  | EvExecEnd x t => EvExecBegin x t ∈ l /\ ~ executed t l
  | EvDelete t => executed t l /\ EvDelete t ∉ l
  | _ => True
  end.

(** ** The two semaphores of the pool *)

(** A thread created by [start ()] that has not yet entered [run ()]. *)
Definition unstarted_pc (pc : WorkerPc) : nat :=
  match pc with
  | WStart => 1
  | _ => 0
  end.

Definition unstarted (s : State) : nat :=
  sum_list_with unstarted_pc (workers s).

(** The [threadSemaphore.wait ()] calls that have returned in the
    [finish ()] in progress. *)
Definition acknowledged (s : State) : Z :=
  match caller s with
  | FIN_Post _ i | FIN_Wait _ i => i
  | FIN_Join _ _ | FIN_Lock1 _ | FIN_Lock2 _ | FIN_Clear _ => numThreads (pool s)
  | _ => 0%Z
  end.

(** The [taskSemaphore.post ()] calls made by the [finish ()] in progress. *)
Definition stop_posts (s : State) : Z :=
  match caller s with
  | FIN_Post _ i => i
  | FIN_Wait _ i => (i + 1)%Z
  | FIN_Join _ _ | FIN_Lock1 _ | FIN_Lock2 _ | FIN_Clear _ => numThreads (pool s)
  | _ => 0%Z
  end.

(** [addTask] has pushed a task and not yet posted [taskSemaphore]. *)
Definition owed (pc : CallerPc) : Z :=
  match pc with
  | AT_UnlockTask | AT_Post => 1%Z
  | _ => 0%Z
  end.

(** A worker that has returned from [taskSemaphore.wait ()] and has not
    popped a task for it. *)
Definition holds_token (pc : WorkerPc) : nat :=
  match pc with
  | WLockTask | WCheck | WStopped | WBreak | WExited => 1
  | _ => 0
  end.

Definition tokens_held (s : State) : nat :=
  sum_list_with holds_token (workers s).

(** The threads created before the last [finish ()]. *)
Definition retired (s : State) : nat :=
  length (workers s) - length (threads (pool s)).

Record SemInv (s : State) : Prop := {
  sem_listed :
    threads (pool s) = seq (retired s) (length (threads (pool s))) /\
    length (threads (pool s)) <= length (workers s);
  sem_post : forall k i,
    caller s = FIN_Post k i -> (0 <= i <= numThreads (pool s))%Z;
  sem_wait : forall k i,
    caller s = FIN_Wait k i -> (0 <= i < numThreads (pool s))%Z;
  sem_thread :
    (Z.of_nat (threadSemaphore (pool s)) + Z.of_nat (unstarted s) +
     acknowledged s = numThreads (pool s))%Z;
  sem_task :
    (Z.of_nat (taskSemaphore (pool s)) + Z.of_nat (tokens_held s) +
     owed (caller s) + Z.of_nat (length (threads (pool s))) =
     numTasks (pool s) + stop_posts s + Z.of_nat (length (workers s)))%Z
}.

(** The statements of [finish ()] from the join of the threads to the
    reset of the pool. *)
Definition caller_joining (pc : CallerPc) : bool :=
  match pc with
  | FIN_Join _ _ | FIN_Lock1 _ | FIN_Lock2 _ | FIN_Clear _ => true
  | _ => false
  end.

(** A worker that has returned from [taskSemaphore.wait ()] and has not
    yet looked at the queue. *)
Definition waking (pc : WorkerPc) : nat :=
  match pc with
  | WLockTask | WCheck => 1
  | _ => 0
  end.

Definition woken (s : State) : nat := sum_list_with waking (workers s).

(** ** Programs that use live task groups *)

(** The groups alive before each call: [TaskGroup ()] gives a group that
    is not alive, [~TaskGroup] and [addTask] are given one that is. *)
Fixpoint well_scoped (live : gset nat) (prog : list Command) : bool :=
  match prog with
  | [] => true
  | NewTaskGroup g :: p =>
      bool_decide (g ∉ live) && well_scoped ({[g]} ∪ live) p
  | DeleteTaskGroup g :: p =>
      bool_decide (g ∈ live) && well_scoped (live ∖ {[g]}) p
  | AddTask t :: p =>
      bool_decide (group t ∈ live) && well_scoped live p
  | _ :: p => well_scoped live p
  end.

(** The groups that will be alive when the call in progress returns. *)
Definition live_after (s : State) : gset nat :=
  match caller s with
  | TG_Wait g => dom (groups s) ∖ {[g]}
  | _ => dom (groups s)
  end.

Record ScopeInv (s : State) : Prop := {
  scope_program : well_scoped (live_after s) (program s) = true;
  scope_task : forall t,
    caller_task (caller s) = Some t -> group t ∈ dom (groups s);
  scope_wait : forall g, caller s = TG_Wait g -> g ∈ dom (groups s)
}.

(** ** Absence of deadlock *)

(** A program the pool can run: its thread counts are [int]s, it uses
    live groups, and it submits fewer than 2^31 tasks. *)
Definition well_formed (nthreads : Z) (prog : list Command) : Prop :=
  is_unsigned nthreads /\ Forall command_ok prog /\
  well_scoped ∅ prog = true /\ (Z.of_nat (adds prog) <= INT_MAX)%Z.

Definition LiveInv (s : State) : Prop :=
  BoundedInv s /\ ResizeInv s /\ SemInv s /\ ScopeInv s.

(** The calling thread has no statement left to run. *)
Definition caller_done (s : State) : bool :=
  match caller s with
  | CReady => match program s with [] => true | _ => false end
  | CThrown | CDestroyed => true
  | _ => false
  end.

Definition can_step (s : State) : Prop := exists x s', step x s = Some s'.

(** ** Termination *)

(** The statements a worker still runs before it waits for, or needs,
    another post of [taskSemaphore]. *)
Definition worker_cost (pc : WorkerPc) : nat :=
  match pc with
  | WStart => 1
  | WWaitTask => 0
  | WLockTask => 9
  | WCheck => 8
  | WRelease _ => 7
  | WExecute _ => 6
  | WExecuting _ => 5
  | WAcquire _ => 4
  | WRetire _ => 3
  | WStopped => 7
  | WUnlock => 2
  | WBreak => 1
  | WExited => 0
  end.

(** What the statements after [finish ()] cost. *)
Definition finish_cost (k : FinishCont) : Z :=
  match k with
  | KResize count => 16 * count + 3
  | KDestroy => 2
  end.

(** The statements the calling thread still runs in the call in
    progress, with those it makes the workers run: a post of
    [taskSemaphore] is worth ten statements, a thread of the list
    thirteen (its share of the loops of [finish ()]), a thread still to
    be created sixteen. *)
Definition caller_cost (s : State) : Z :=
  let n := numThreads (pool s) in
  match caller s with
  | CReady | CThrown | CDestroyed => 13 * n
  | SNT_Lock count => 16 * count + 14 + 13 * n
  | SNT_Branch count => 16 * count + 13 + 13 * n
  | SNT_Grow count => 16 * (count - n) + 2 + 13 * n
  | SNT_Return _ => 1 + 13 * n
  | FIN_Stop k => 8 + finish_cost k + 13 * n
  | FIN_Post k i => 7 + finish_cost k + 12 * (n - i) + n
  | FIN_Wait k i => 7 + finish_cost k + 12 * (n - i) - 11 + n
  | FIN_Join k rest => 6 + finish_cost k + Z.of_nat (length rest)
  | FIN_Lock1 k => 5 + finish_cost k
  | FIN_Lock2 k => 4 + finish_cost k
  | FIN_Clear k => 3 + finish_cost k
  | FIN_Unlock k => 2 + finish_cost k + 13 * n
  | AT_Lock _ => 17 + 13 * n
  | AT_Branch _ => 16 + 13 * n
  | AT_Execute _ => 4 + 13 * n
  | AT_Executing _ => 3 + 13 * n
  | AT_Delete _ => 2 + 13 * n
  | AT_LockTask _ => 15 + 13 * n
  | AT_Push _ => 14 + 13 * n
  | AT_UnlockTask => 13 + 13 * n
  | AT_Post => 12 + 13 * n
  | AT_Return => 1 + 13 * n
  | NT_Lock => 2 + 13 * n
  | NT_Read => 1 + 13 * n
  | TG_Wait _ => 1 + 13 * n
  | DT_Lock => 11 + 13 * n
  | DT_Unlock => 1 + 13 * n
  end%Z.

Definition command_cost (c : Command) : Z :=
  match c with
  | NewTaskGroup _ => 1
  | DeleteTaskGroup _ => 2
  | AddTask _ => 18
  | SetNumThreads count => 16 * Z.max 0 count + 15
  | NumThreads => 3
  | DeletePool => 12
  end.

Definition program_cost (prog : list Command) : Z :=
  foldr (fun c z => (command_cost c + z)%Z) 0%Z prog.

(** A bound on the statements the machine can still run. *)
Definition measure (s : State) : Z :=
  (program_cost (program s) + caller_cost s +
   Z.of_nat (sum_list_with worker_cost (workers s)) +
   10 * Z.of_nat (taskSemaphore (pool s)))%Z.

(** The statements a schedule gets to run. *)
Fixpoint steps_taken (sched : list ThreadId) (s : State) : nat :=
  match sched with
  | [] => 0
  | x :: sched' =>
      match step x s with
      | Some s' => S (steps_taken sched' s')
      | None => steps_taken sched' s
      end
  end.

Definition MeasureInv (s : State) : Prop := Inv s /\ ResizeInv s /\ SemInv s.

(** ** The threads a program creates *)

(** The threads the [setNumThreads] call in progress can still create. *)
Definition spawns_left (s : State) : Z :=
  match caller s with
  | SNT_Grow count => count - numThreads (pool s)
  | SNT_Return _ => 0
  | pc => default 0%Z (caller_count pc)
  end.

Definition command_threads (c : Command) : Z :=
  match c with
  | SetNumThreads count => Z.max 0 count
  | _ => 0
  end.

Definition program_threads (prog : list Command) : Z :=
  foldr (fun c z => (command_threads c + z)%Z) 0%Z prog.

(** A bound on the threads the pool creates in all. *)
Definition threads_ever (s : State) : Z :=
  (Z.of_nat (length (workers s)) + spawns_left s +
   program_threads (program s))%Z.

Definition RoundInv (k : nat) (s : State) : Prop :=
  LiveInv s /\ (threads_ever s <= Z.of_nat k)%Z.

(** ** The global pool *)

(** [ThreadPool::globalThreadPool ()]: [return g_threadPool;]. *)
Definition globalThreadPool (prog : list Command) : State := g_threadPool prog.

(** [ThreadPool::addGlobalTask (task)]: [g_threadPool.addTask (task)]. *)
Definition addGlobalTask (t : Task) : Command := AddTask t.

(** ** Single calls *)

(** Thread [x] run on its own for [n] statements. *)
Definition alone (x : ThreadId) (n : nat) (s : State) : State :=
  run (replicate n x) s.

(** What the queueing branch of [addTask (t)] records, most recent first. *)
Definition enqueue_events (t : Task) : list Event :=
  [EvGroupAdd (group t); EvEnqueue t; EvSubmit t].

(** What a worker records of one task, most recent first. *)
Definition worker_events (w : nat) (t : Task) : list Event :=
  [EvGroupRemove (group t); EvDelete t;
   EvExecEnd (Worker w) t; EvExecBegin (Worker w) t].

(** ** The queue is first in, first out *)

(** The tasks pushed into the queue so far, oldest first. *)
Fixpoint enqueued (l : list Event) : list Task :=
  match l with
  | [] => []
  | EvEnqueue t :: l' => enqueued l' ++ [t]
  | _ :: l' => enqueued l'
  end.

(** [a] was pushed into the queue before [b]. *)
Definition enqueued_before (a b : Task) (l : list Event) : Prop :=
  exists l1 l2 l3, enqueued l = l1 ++ a :: l2 ++ b :: l3.

Definition is_enqueue (u : Task) (e : Event) : nat :=
  match e with
  | EvEnqueue t => is_task u t
  | _ => 0
  end.

(** The task [addTask] has accepted and may still push into the queue. *)
Definition caller_unqueued (pc : CallerPc) : option Task :=
  match pc with
  | AT_Lock t | AT_Branch t | AT_LockTask t | AT_Push t => Some t
  | _ => None
  end.

(** The queue is the tail of the tasks pushed so far; the workers hold,
    and have run, only tasks of the head. *)
Record FifoInv (prog : list Command) (s : State) : Prop := {
  fifo_queue : exists taken,
    enqueued (log s) = taken ++ tasks (pool s) /\
    (forall w pc t, workers s !! w = Some pc -> worker_task pc = Some t ->
       t ∈ taken) /\
    (forall w t, EvExecBegin (Worker w) t ∈ log s -> t ∈ taken);
  fifo_once : forall u,
    sum_list_with (is_enqueue u) (log s) +
    from_option (is_task u) 0 (caller_unqueued (caller s)) +
    sum_list_with (is_task u) (prog_tasks (program s)) <=
    sum_list_with (is_task u) (prog_tasks prog)
}.

(** ** More scenarios *)

Module Runs.
(** Two tasks on a pool of two threads, then [~ThreadPool]. *)
Definition destroy_program : list Command :=
  [NewTaskGroup 0; AddTask Scenario.t0; AddTask Scenario.t1; DeletePool].

Definition destroy_run : State :=
  run (rounds 60 2) (ThreadPool 2 destroy_program).

(** A pool of one thread, a group, and a task about to be added. *)
Definition enqueue_call : State :=
  solo 7 (ThreadPool 1 [NewTaskGroup 0; AddTask Scenario.t0]).

(** The same pool once [addTask] has returned and the worker has entered
    [run ()]. *)
Definition waiting_worker : State :=
  alone (Worker 0) 1 (solo 8 enqueue_call).

(** The global pool, never resized, about to be destroyed. *)
Definition idle_pool : State := solo 4 (globalThreadPool [DeletePool]).
End Runs.

(** * Proofs *)

(** ** Machine integers *)

Section CIntFacts.
Local Open Scope Z_scope.

Lemma wrap_int_id z : is_int z -> wrap_int z = z.
Proof.
  unfold is_int, INT_MIN, INT_MAX, wrap_int. intros H.
  rewrite Z.mod_small by lia. lia.
Qed.

Lemma wrap_int_high u : 2 ^ 31 <= u < 2 ^ 32 -> wrap_int u = u - 2 ^ 32.
Proof.
  unfold wrap_int. intros H.
  replace (u + 2 ^ 31) with ((u - 2 ^ 31) + 1 * 2 ^ 32) by lia.
  rewrite Z.mod_add by lia. rewrite Z.mod_small by lia. lia.
Qed.

Lemma size_t_of_int_id z : 0 <= z <= INT_MAX -> size_t_of_int z = z.
Proof.
  unfold size_t_of_int, INT_MAX. intros H. apply Z.mod_small. lia.
Qed.
End CIntFacts.

(** ** TaskGroup *)

Section TaskGroupFacts.
Local Open Scope Z_scope.
Import TaskGroup.

Lemma Data_inv : inv Data.
Proof.
  unfold inv, gate_open, Data, INT_MAX; simpl. repeat split; lia.
Qed.

Lemma addTask_inv d :
  inv d -> numPending d < INT_MAX ->
  exists d', addTask d = Some d' /\ inv d' /\
    numPending d' = numPending d + 1 /\
    (numPending d = 0 -> gate_open d /\ ~ gate_open d') /\
    (numPending d <> 0 -> isEmpty d' = isEmpty d).
Proof.
  intros (Hr & Hb & Hg) Hlt. unfold addTask, gate_open in *.
  rewrite wrap_int_id by (unfold is_int, INT_MIN, INT_MAX in *; lia).
  destruct (Z.eqb_spec (numPending d) 0) as [H0|H0].
  - destruct (isEmpty d) as [|[|n]] eqn:He; simpl in *; try lia.
    eexists; split; [reflexivity|]. unfold inv, gate_open; simpl.
    repeat split; try lia.
  - eexists; split; [reflexivity|]. unfold inv, gate_open; simpl.
    repeat split; try lia.
Qed.

Lemma removeTask_inv d :
  inv d -> 0 < numPending d ->
  inv (removeTask d) /\
  numPending (removeTask d) = numPending d - 1 /\
  (numPending d = 1 -> ~ gate_open d /\ gate_open (removeTask d)) /\
  (numPending d <> 1 -> isEmpty (removeTask d) = isEmpty d).
Proof.
  intros (Hr & Hb & Hg) Hlt. unfold removeTask, gate_open in *.
  rewrite wrap_int_id by (unfold is_int, INT_MIN, INT_MAX in *; lia).
  destruct (Z.eqb_spec (numPending d - 1) 0) as [H0|H0];
    unfold inv, gate_open, Semaphore_post; simpl.
  - destruct (isEmpty d) as [|n] eqn:He; simpl in *;
      repeat split; try lia.
  - repeat split; try lia.
Qed.
End TaskGroupFacts.

(** C4: the invariant [TaskGroup.inv] (pending-count a non-negative int,
    gate open exactly at count zero) holds of a new group and is kept by
    [addTask] and by [removeTask]; [addTask] adds one to the count and
    closes the gate exactly when the count was 0, [removeTask] subtracts
    one and opens the gate exactly when the count was 1.  [addTask] is
    taken below INT_MAX (the count is an [int]) and [removeTask] at a
    positive count (it is matched by an earlier [addTask]). *)
Theorem C4_taskgroup_invariant (d : TaskGroupData) :
  TaskGroup.inv d ->
  TaskGroup.inv TaskGroup.Data /\
  ((numPending d < INT_MAX)%Z ->
   exists d', TaskGroup.addTask d = Some d' /\ TaskGroup.inv d' /\
     numPending d' = (numPending d + 1)%Z /\
     (numPending d = 0%Z -> TaskGroup.gate_open d /\ ~ TaskGroup.gate_open d') /\
     (numPending d <> 0%Z -> isEmpty d' = isEmpty d)) /\
  ((0 < numPending d)%Z ->
   TaskGroup.inv (TaskGroup.removeTask d) /\
   numPending (TaskGroup.removeTask d) = (numPending d - 1)%Z /\
   (numPending d = 1%Z ->
    ~ TaskGroup.gate_open d /\ TaskGroup.gate_open (TaskGroup.removeTask d)) /\
   (numPending d <> 1%Z -> isEmpty (TaskGroup.removeTask d) = isEmpty d)).
Proof.
  intros Hinv. split; [apply Data_inv|]. split.
  - intros Hlt. by apply addTask_inv.
  - intros Hpos. by apply removeTask_inv.
Qed.

Lemma C4_taskgroup_invariant_witness :
  TaskGroup.inv TaskGroup.Data /\
  ((numPending Scenario.busy_group < INT_MAX)%Z ->
   exists d', TaskGroup.addTask Scenario.busy_group = Some d' /\
     TaskGroup.inv d' /\
     numPending d' = (numPending Scenario.busy_group + 1)%Z /\
     (numPending Scenario.busy_group = 0%Z ->
      TaskGroup.gate_open Scenario.busy_group /\ ~ TaskGroup.gate_open d') /\
     (numPending Scenario.busy_group <> 0%Z ->
      isEmpty d' = isEmpty Scenario.busy_group)) /\
  ((0 < numPending Scenario.busy_group)%Z ->
   TaskGroup.inv (TaskGroup.removeTask Scenario.busy_group) /\
   numPending (TaskGroup.removeTask Scenario.busy_group) =
     (numPending Scenario.busy_group - 1)%Z /\
   (numPending Scenario.busy_group = 1%Z ->
    ~ TaskGroup.gate_open Scenario.busy_group /\
    TaskGroup.gate_open (TaskGroup.removeTask Scenario.busy_group)) /\
   (numPending Scenario.busy_group <> 1%Z ->
    isEmpty (TaskGroup.removeTask Scenario.busy_group) =
    isEmpty Scenario.busy_group)).
Proof.
  apply (C4_taskgroup_invariant Scenario.busy_group).
  unfold TaskGroup.inv, TaskGroup.gate_open, INT_MAX, Scenario.busy_group. simpl.
  split; [lia|]. split; [lia|]. split; [lia|discriminate].
Defined.

(** ** Stepping *)

(** Unfold the calling thread's statement. *)
Ltac unfold_caller :=
  unfold caller_step, call, ThreadPool_setNumThreads_enter,
    ThreadPool_setNumThreads, Data_finish, ThreadPool_addTask,
    ThreadPool_numThreads, TaskGroup_delete, ThreadPool_delete,
    Data_stop, Data_stopped.

Tactic Notation "unfold_caller" "in" hyp(H) :=
  unfold caller_step, call, ThreadPool_setNumThreads_enter,
    ThreadPool_setNumThreads, Data_finish, ThreadPool_addTask,
    ThreadPool_numThreads, TaskGroup_delete, ThreadPool_delete,
    Data_stop, Data_stopped in H.

(** Case analysis on the statement a step has run. *)
Ltac step_inv H :=
  match type of H with
  | step ?x ?s = Some ?s' =>
      destruct x as [|?w]; simpl in H;
      [ unfold caller_step, call, ThreadPool_setNumThreads_enter in H;
        destruct (caller s) eqn:?Hpc;
        unfold ThreadPool_setNumThreads, Data_finish, ThreadPool_addTask,
          ThreadPool_numThreads, TaskGroup_delete, ThreadPool_delete in H;
        simpl in H
      | unfold WorkerThread_run in H;
        destruct (workers s !! w) as [?pc|] eqn:?Hw; simpl in H; [|done];
        destruct pc; simpl in H ];
      unfold Data_stop, Data_stopped, Mutex_lock, Mutex_unlock,
        Semaphore_wait, Semaphore_post, TaskGroup.drain in H;
      repeat (case_match; simpl in H; simplify_eq/=);
      simplify_option_eq
  end.

(** Comparisons of a step as propositions. *)
Ltac ltb_facts :=
  repeat match goal with
         | E : (_ <? _)%Z = true |- _ => apply Z.ltb_lt in E
         | E : (_ <? _)%Z = false |- _ => apply Z.ltb_ge in E
         | E : (_ >? _)%Z = true |- _ => rewrite Z.gtb_ltb in E
         | E : (_ >? _)%Z = false |- _ => rewrite Z.gtb_ltb in E
         | E : (_ =? _)%Z = true |- _ => apply Z.eqb_eq in E
         | E : (_ =? _)%Z = false |- _ => apply Z.eqb_neq in E
         end.

Lemma run_app sched1 sched2 s :
  run (sched1 ++ sched2) s = run sched2 (run sched1 s).
Proof. apply fold_left_app. Qed.

(** A property kept by every step holds along every schedule. *)
Lemma run_invariant (P : State -> Prop) :
  (forall s x s', P s -> step x s = Some s' -> P s') ->
  forall sched s, P s -> P (run sched s).
Proof.
  intros Hstep sched. induction sched as [|x sched IH]; intros s Hs; [done|].
  simpl. apply IH. unfold exec. destruct (step x s) eqn:E; eauto.
Qed.

Lemma worker_holds_insert W w pc0 pc1 w' :
  W !! w = Some pc0 ->
  worker_holds (<[w:=pc1]> W) w' =
    if decide (w' = w) then worker_holds_task pc1 else worker_holds W w'.
Proof.
  intros H. apply lookup_lt_Some in H as Hlt. unfold worker_holds.
  case_decide; subst.
  - by rewrite list_lookup_insert_eq.
  - by rewrite list_lookup_insert_ne.
Qed.

Lemma worker_holds_snoc W w' :
  worker_holds (W ++ [WStart]) w' = worker_holds W w'.
Proof.
  unfold worker_holds. destruct (decide (w' < length W)).
  - by rewrite lookup_app_l.
  - rewrite (lookup_ge_None_2 W) by lia.
    destruct (decide (w' = length W)) as [->|].
    + by rewrite list_lookup_middle.
    + rewrite lookup_ge_None_2; [done|]. rewrite length_app; simpl; lia.
Qed.

Lemma lookup_at_worker (W : list WorkerPc) w pc0 pc1 w' pc :
  W !! w = Some pc0 -> <[w:=pc1]> W !! w' = Some pc ->
  (w' = w /\ pc = pc1) \/ (w' <> w /\ W !! w' = Some pc).
Proof.
  intros H0 H. apply list_lookup_insert_Some in H.
  destruct H as [(-> & -> & _)|[? ?]]; [left|right]; done.
Qed.

Lemma lookup_spawned (W : list WorkerPc) w' pc :
  (W ++ [WStart]) !! w' = Some pc ->
  W !! w' = Some pc \/ (w' = length W /\ pc = WStart).
Proof.
  intros H. apply lookup_snoc_Some in H.
  destruct H as [[_ H]|[-> <-]]; [left|right]; done.
Qed.

(** ** Lock discipline *)

Lemma LockInv_init prog : LockInv (mkState PoolData_new ∅ [] CReady prog []).
Proof. by constructor. Qed.

Lemma LockInv_step s x s' : LockInv s -> step x s = Some s' -> LockInv s'.
Proof.
  intros [Ht Hs Hc Hk] H.
  step_inv H.
  all: try match goal with k : FinishCont |- _ => destruct k end.
  all: try match goal with Hw : workers _ !! ?w = Some _ |- _ =>
         pose proof (Hk w) as Hkw; unfold worker_holds in Hkw; rewrite Hw in Hkw;
         simpl in Hkw end.
  all: rewrite ?Hpc in *; simpl in *.
  all: unfold spawn_worker; constructor; simpl; rewrite ?Hpc; simpl; try done.
  all: try (intros w'; erewrite ?worker_holds_insert, ?worker_holds_snoc by eassumption;
            try case_decide; subst; simpl).
  all: try (specialize (Hk w')).
  all: try congruence.
  all: intuition congruence.
Qed.

(** ** Counters *)

Lemma CountInv_init prog : CountInv (mkState PoolData_new ∅ [] CReady prog []).
Proof. by constructor. Qed.

Lemma CountInv_step s x s' : CountInv s -> step x s = Some s' -> CountInv s'.
Proof.
  intros [Hq Ht] H.
  step_inv H.
  all: unfold spawn_worker; constructor; simpl; try done.
  all: rewrite ?length_app; simpl; try lia.
  all: match goal with E : tasks _ = _ :: _ |- _ => rewrite E in Hq; simpl in Hq; lia end.
Qed.

(** ** Workers *)

Lemma exited_at_worker W w pc0 pc1 j :
  W !! w = Some pc0 -> pc0 <> WExited -> exited W j -> exited (<[w:=pc1]> W) j.
Proof.
  unfold exited. intros H0 Hne Hj.
  rewrite list_lookup_insert_ne; [done|]. intros ->. congruence.
Qed.

Lemma exited_spawned W j : exited W j -> exited (W ++ [WStart]) j.
Proof. unfold exited. intros H. by apply lookup_app_l_Some. Qed.

Lemma caller_joined_at_worker W w pc0 pc1 ths pc :
  W !! w = Some pc0 -> pc0 <> WExited ->
  caller_joined W ths pc -> caller_joined (<[w:=pc1]> W) ths pc.
Proof.
  intros H0 Hne.
  assert (Hmono : forall l, Forall (exited W) l -> Forall (exited (<[w:=pc1]> W)) l).
  { intros l Hl. eapply Forall_impl; [exact Hl|]. intros j. by eapply exited_at_worker. }
  destruct pc; simpl; try done; eauto.
  intros (joined & -> & Hj). eauto.
Qed.

Lemma WorkerInv_init prog : WorkerInv (mkState PoolData_new ∅ [] CReady prog []).
Proof. constructor; simpl; [|done]. intros w pc H. by rewrite lookup_nil in H. Qed.

Lemma WorkerInv_step s x s' : WorkerInv s -> step x s = Some s' -> WorkerInv s'.
Proof.
  intros [Hl Hj] H.
  step_inv H.
  all: try match goal with k : FinishCont |- _ => destruct k end.
  all: rewrite ?Hpc in *; simpl in *.
  all: unfold spawn_worker; constructor; simpl; rewrite ?Hpc; simpl; try done.
  (* live workers stay listed *)
  all: try (intros w' pc' Hw' Hne';
            first [ eapply lookup_at_worker in Hw' as [[-> ->]|[? ?]]; [| |eassumption];
                    eapply Hl; eauto; congruence
                  | apply lookup_spawned in Hw' as [?|[-> ->]];
                    apply elem_of_app; [left; eauto | right; apply list_elem_of_singleton; done]
                  | idtac ]).
  (* what finish knows of the joined workers *)
  all: try (eapply caller_joined_at_worker; [eassumption|congruence|by rewrite ?Hpc]).
  all: try (exists []; split; [done|constructor]).
  all: try (destruct Hj as (joined & Heq & Hj); rewrite Heq, app_nil_r; exact Hj).
  all: try match goal with Hx : workers _ !! ?n = Some WExited |- _ =>
         destruct Hj as (joined & Heq & Hj); exists (joined ++ [n]); split;
         [by rewrite Heq, <- app_assoc|apply Forall_app; split; [done|by constructor]]
       end.
  (* finish clears the list once every worker has exited *)
  all: exfalso; apply Hne'; specialize (Hl _ _ Hw' Hne');
    rewrite Forall_forall in Hj; specialize (Hj _ Hl); unfold exited in Hj; congruence.
Qed.

(** ** Shutdown *)

Lemma StopInv_init prog : StopInv (mkState PoolData_new ∅ [] CReady prog []).
Proof. constructor; simpl; try done. Qed.

Lemma StopInv_step s x s' :
  LockInv s -> CountInv s -> WorkerInv s -> StopInv s ->
  step x s = Some s' -> StopInv s'.
Proof.
  intros [Lt Ls Lc Lk] [Cq Ct] [Wl Wj] [Sf Sl Ss Sn Sq Si] H.
  step_inv H.
  all: try match goal with k : FinishCont |- _ => destruct k end.
  all: try match goal with Hw : workers _ !! ?w = Some _ |- _ =>
         pose proof (Lk w) as Lkw; unfold worker_holds in Lkw; rewrite Hw in Lkw;
         simpl in Lkw end.
  all: rewrite ?Hpc in *; simpl in *.
  all: unfold spawn_worker; constructor; simpl; rewrite ?Hpc; simpl; try done.
  all: try (intros w' pc' Hw' Hleft' Hin').
  all: try (intros w' Hw').
  all: try (eapply lookup_at_worker in Hw' as [[-> ?]|[? Hw']]; [| |eassumption];
            simplify_eq/=).
  all: try (apply lookup_spawned in Hw' as [Hw'|[-> ?]]; simplify_eq/=).
  all: try (by eauto).
  all: try (apply elem_of_nil in Hin'; done).
  all: try (apply elem_of_app in Hin' as [Hin'|Hin'];
            [by eauto|apply list_elem_of_singleton in Hin'; subst;
                      apply lookup_lt_Some in Hw'; lia]).
  all: try (destruct (Sl _ _ Hw' Hleft' Hin'); congruence).
  all: try (specialize (Ss _ Hw'); congruence).
  all: try (intros Hnil; first [specialize (Sn Hnil); congruence
                               | by destruct (threads (pool s))
                               | by destruct (Sq eq_refl) ]).
  all: try (pose proof (Lk w') as Lkw'; unfold worker_holds in Lkw'; rewrite Hw' in Lkw';
            simpl in Lkw'; intuition congruence).
  all: try (apply nil_length_inv; lia).
  all: try (split; [done|by eauto]).
  - intros _. apply Z.eqb_eq in H0. apply nil_length_inv. lia.
  - apply Z.eqb_neq in H0. rewrite Ct in H0.
    match goal with E : threads _ = [] |- _ => rewrite E in H0 end. done.
Qed.

(** [finish ()] reaches its [clear ()] calls with an empty queue. *)
Lemma clear_empty s k :
  WorkerInv s -> StopInv s -> caller s = FIN_Clear k -> tasks (pool s) = [].
Proof.
  intros [Wl Wj] [Sf Sl Ss Sn Sq Si] Hpc. rewrite Hpc in Wj. simpl in Wj.
  destruct (threads (pool s)) as [|w ths] eqn:E; [by apply Sn|].
  apply Forall_cons in Wj as [Hw _].
  refine (proj2 (Sl w WExited Hw eq_refl _)). by left.
Qed.

(** ** Task accounting *)

Lemma executed_cons t e l : executed t l -> executed t (e :: l).
Proof. intros [x Hx]. exists x. by right. Qed.

Lemma completed_cons t e l : completed t l -> completed t (e :: l).
Proof. intros [He Hd]. split; [by apply executed_cons|by right]. Qed.

Lemma worker_has_insert W w pc0 pc1 t :
  W !! w = Some pc0 -> worker_has W t ->
  worker_task pc0 = Some t \/ worker_has (<[w:=pc1]> W) t.
Proof.
  intros H0 (w' & pc' & Hw' & Ht). destruct (decide (w' = w)) as [->|Hne].
  - left. congruence.
  - right. exists w', pc'. by rewrite list_lookup_insert_ne.
Qed.

Lemma worker_has_here W w pc0 pc1 t :
  W !! w = Some pc0 -> worker_task pc1 = Some t -> worker_has (<[w:=pc1]> W) t.
Proof.
  intros H0 Ht. exists w, pc1. split; [|done].
  apply list_lookup_insert_eq. by eapply lookup_lt_Some.
Qed.

Lemma worker_has_spawned W t : worker_has W t -> worker_has (W ++ [WStart]) t.
Proof.
  intros (w & pc & Hw & Ht). exists w, pc. split; [|done].
  by apply lookup_app_l_Some.
Qed.

Lemma TaskInv_init prog : TaskInv (mkState PoolData_new ∅ [] CReady prog []).
Proof.
  constructor; simpl; try done.
  - intros t H. by apply elem_of_nil in H.
  - intros w t [H|H]; by rewrite lookup_nil in H.
  - intros t H. by apply elem_of_nil in H.
Qed.

Lemma TaskInv_step s x s' :
  WorkerInv s -> StopInv s -> TaskInv s -> step x s = Some s' -> TaskInv s'.
Proof.
  intros HW HS [Ta Tw Tc Ts Te] H.
  pose proof (clear_empty s) as Hclear.
  step_inv H.
  all: try match goal with k : FinishCont |- _ => destruct k end.
  all: try (specialize (Hclear _ HW HS eq_refl)).
  all: clear HW HS.
  all: rewrite ?Hpc in *; simpl in *.
  all: unfold spawn_worker; constructor; simpl; rewrite ?Hpc; simpl; try done.
  (* executed tasks held by workers *)
  all: try (intros w0 t0 [Hd|Hd];
            first [ eapply lookup_at_worker in Hd as [[-> ?]|[? Hd]]; [| |eassumption]
                  | apply lookup_spawned in Hd as [Hd|[-> ?]]
                  | idtac ];
            simplify_eq/=;
            first [ by (eexists; left)
                  | repeat apply executed_cons; eapply Tw; eauto ]).
  (* the task the caller has just executed *)
  all: try (intros t0 [= <-]; by (eexists; left)).
  all: try (intros t0 Hd; repeat apply executed_cons; by apply Tc).
  (* the caller's task was submitted *)
  all: try (intros t0 [= <-]; first [by left|right; by apply Ts]).
  (* queued tasks were submitted *)
  all: try (intros t0 Hin; rewrite ?elem_of_cons in Hin;
            destruct_or? Hin; simplify_eq/=;
            first [ by left | repeat right; by eauto | right; by left ]).
  (* submitted tasks are accounted for *)
  all: intros t0 Hin; rewrite ?elem_of_cons in Hin; destruct_or? Hin; simplify_eq/=.
  all: try (right; right; by left).
  all: specialize (Ta _ Hin); destruct Ta as [Hq|[Hh|[Hc|Hd]]]; simplify_eq/=.
  all: try (by (repeat right; repeat apply completed_cons)).
  all: try (left; first [done | apply elem_of_app; by left]).
  all: try (right; left; first [done | by apply worker_has_spawned]).
  all: try (rewrite Hclear in Hq; by apply elem_of_nil in Hq).
  all: try (right; right; by left).
  all: try (left; apply elem_of_app; right; by left).
  all: try (repeat right; split; [apply executed_cons; by apply Tc|by left]).
  (* a task moves from the queue to the worker that pops it *)
  all: try match goal with E : tasks _ = _ :: _ |- _ =>
         apply elem_of_cons in Hq as [->|Hq];
         [right; left; by eapply worker_has_here|by left]
       end.
  (* a task held by the worker that steps *)
  all: match goal with |- context [worker_has (<[?w:=?pc1]> _) _] =>
         eapply (worker_has_insert _ w _ pc1) in Hh as [Hh|Hh]; [| |eassumption];
         [simplify_eq/=|right; left; exact Hh]
       end.
  all: try (right; left; by eapply worker_has_here).
  all: repeat right; split;
    [repeat apply executed_cons; eapply Tw; eauto|right; by left].
Qed.

(** ** Group accounting *)

Lemma sum_list_with_insert {A} (f : A -> nat) (l : list A) i x y :
  l !! i = Some x ->
  sum_list_with f (<[i:=y]> l) + f x = sum_list_with f l + f y.
Proof.
  revert i. induction l as [|a l IH]; intros [|i] H; simplify_eq/=; [lia|].
  specialize (IH _ H). lia.
Qed.

Lemma sum_list_with_snoc {A} (f : A -> nat) (l : list A) x :
  sum_list_with f (l ++ [x]) = sum_list_with f l + f x.
Proof. rewrite sum_list_with_app. simpl. lia. Qed.

Lemma sum_list_with_le {A} (f g : A -> nat) (l : list A) :
  (forall x, f x <= g x) -> sum_list_with f l <= sum_list_with g l.
Proof.
  intros Hfg. induction l as [|a l IH]; simpl; [lia|].
  specialize (Hfg a). lia.
Qed.

Lemma sum_list_with_length {A} (f : A -> nat) (l : list A) :
  (forall x, f x <= 1) -> sum_list_with f l <= length l.
Proof.
  intros Hf. induction l as [|a l IH]; simpl; [lia|].
  specialize (Hf a). lia.
Qed.

(** The machine never holds more tasks than the program submits. *)
Lemma load_step s x s' : step x s = Some s' -> load s' <= load s.
Proof.
  intros H. step_inv H.
  all: unfold load, adds, spawn_worker; simpl; rewrite ?Hpc; simpl.
  all: try match goal with E : program _ = _ |- _ => rewrite E; simpl end.
  all: try match goal with E : tasks _ = _ |- _ => rewrite E; simpl end.
  all: rewrite ?length_app, ?sum_list_with_snoc; simpl.
  all: try match goal with
       | Hw : workers _ !! ?w = Some ?pc0 |- context [<[?w:=?pc1]> ?W] =>
           pose proof (sum_list_with_insert
                         (fun pc => holds_one (worker_task pc)) W w pc0 pc1 Hw);
           simpl in *
       end.
  all: try match goal with k : FinishCont |- _ => destruct k; simpl end.
  all: lia.
Qed.

Lemma pending_le_load g s :
  pending g s + holds_one (caller_task (caller s)) <= load s.
Proof.
  unfold pending, load.
  pose proof (sum_list_with_length (task_in g) (tasks (pool s))) as H1.
  pose proof (sum_list_with_le (worker_pending g)
                (fun pc => holds_one (worker_task pc)) (workers s)) as H2.
  assert (Ht : forall t, task_in g t <= 1).
  { intros t. unfold task_in. case_decide; lia. }
  specialize (H1 Ht). 
  assert (H3 : forall pc, worker_pending g pc <= holds_one (worker_task pc)).
  { intros pc. unfold worker_pending. destruct (worker_task pc); simpl; [apply Ht|lia]. }
  specialize (H2 H3). lia.
Qed.

Lemma addTask_count gd d' n :
  numPending gd = Z.of_nat n -> isEmpty gd = gate_of n ->
  (Z.of_nat n < INT_MAX)%Z ->
  TaskGroup.addTask gd = Some d' ->
  numPending d' = Z.of_nat (S n) /\ isEmpty d' = gate_of (S n).
Proof.
  intros Hn He Hlt. unfold TaskGroup.addTask, gate_of in *.
  rewrite wrap_int_id by (unfold is_int, INT_MIN, INT_MAX in *; lia).
  rewrite Hn, He. destruct n as [|n]; simpl.
  - intros [= <-]. simpl. split; [lia|done].
  - destruct (Z.eqb_spec (Z.pos (Pos.of_succ_nat n)) 0); [lia|].
    intros [= <-]. simpl. split; [lia|done].
Qed.

Lemma removeTask_count gd n :
  numPending gd = Z.of_nat (S n) -> isEmpty gd = gate_of (S n) ->
  (Z.of_nat (S n) <= INT_MAX)%Z ->
  numPending (TaskGroup.removeTask gd) = Z.of_nat n /\
  isEmpty (TaskGroup.removeTask gd) = gate_of n.
Proof.
  intros Hn He Hlt. unfold TaskGroup.removeTask, gate_of in *.
  rewrite wrap_int_id by (unfold is_int, INT_MIN, INT_MAX in *; lia).
  rewrite Hn, He.
  destruct (Z.eqb_spec (Z.of_nat (S n) - 1) 0) as [E|E]; simpl.
  - assert (n = 0) as -> by lia. done.
  - split; [lia|]. destruct n; [lia|done].
Qed.

Lemma drain_count gd d' n :
  isEmpty gd = gate_of n -> TaskGroup.drain gd = Some d' -> n = 0.
Proof.
  unfold TaskGroup.drain, gate_of. intros ->. case_decide; [done|]. simpl. done.
Qed.

Lemma task_in_same t : task_in (group t) t = 1.
Proof. unfold task_in. by rewrite decide_True. Qed.

Lemma pending_insert g (W : list WorkerPc) w pc0 pc1 :
  W !! w = Some pc0 ->
  sum_list_with (worker_pending g) (<[w:=pc1]> W) +
    from_option (task_in g) 0 (worker_task pc0) =
  sum_list_with (worker_pending g) W +
    from_option (task_in g) 0 (worker_task pc1).
Proof. apply (sum_list_with_insert (worker_pending g)). Qed.

Lemma GroupInv_init prog : GroupInv (mkState PoolData_new ∅ [] CReady prog []).
Proof. constructor; simpl; done. Qed.

Lemma GroupInv_step s x s' :
  WorkerInv s -> StopInv s -> GroupInv s ->
  (Z.of_nat (load s) <= INT_MAX)%Z ->
  step x s = Some s' -> GroupInv s'.
Proof.
  intros HW HS [Gc Ga] Hload H.
  pose proof (clear_empty s) as Hclear.
  pose proof (fun g => pending_le_load g s) as Hle.
  unfold pending, gate_of in *.
  step_inv H.
  all: try match goal with k : FinishCont |- _ => destruct k end.
  all: try (specialize (Hclear _ HW HS eq_refl)).
  all: clear HW HS.
  all: rewrite ?Hpc in *; simpl in *.
  all: unfold spawn_worker; constructor; unfold pending, gate_of; simpl;
    rewrite ?Hpc; simpl; try done.
  all: rewrite ?sum_list_with_snoc; simpl; rewrite ?Nat.add_0_r; try done.
  all: try (intros g0 d0 Hlk); try (intros g0 Hlk).
  all: specialize (Hle g0).
  all: try match goal with
       | Hw : workers _ !! ?w = Some ?pc0 |- context [<[?w:=?pc1]> ?W] =>
           pose proof (pending_insert g0 W w pc0 pc1 Hw) as Hsum;
           simpl in Hsum
       end.
  all: rewrite ?sum_list_with_app in *; simpl in *.
  all: try (rewrite lookup_insert in Hlk; case_decide; simplify_eq/=).
  all: try (rewrite lookup_delete in Hlk; case_decide; simplify_eq/=).
  all: try match goal with E : tasks _ = _ |- _ => rewrite E in *; simpl in * end.
  all: try (specialize (Gc _ _ Hlk); destruct Gc as [Gn Ge]).
  all: try (specialize (Ga _ Hlk)).
  all: try (unfold worker_pending, task_in in *; simpl in *;
            repeat case_decide; first [lia | split; [lia|]; repeat case_decide; lia]).
  - (* a new group has nothing pending *)
    match goal with E : groups _ !! _ = None |- _ => rewrite (Ga _ E) end. done.
  - (* addTask on the queued task's group *)
    match goal with
    | E : groups _ !! _ = Some ?gd, A : TaskGroup.addTask ?gd = Some _ |- _ =>
        destruct (Gc _ _ E) as [Gn Ge];
        eapply addTask_count in A as [An Ae]; [|exact Gn|exact Ge|]
    end.
    + rewrite task_in_same, An, Ae. unfold gate_of. split; [lia|].
      repeat case_decide; first [done|exfalso; lia].
    + unfold INT_MAX in *. lia.
  - (* the drained group had nothing pending *)
    match goal with
    | E : groups _ !! _ = Some ?gd, A : Semaphore_wait (isEmpty ?gd) = Some _ |- _ =>
        destruct (Gc _ _ E) as [Gn Ge]; rewrite Ge in A;
        case_decide; [done|discriminate A]
    end.
  - (* removeTask on the retired task's group *)
    match goal with
    | E : groups _ !! _ = Some ?gd |- _ => destruct (Gc _ _ E) as [Gn Ge]
    end.
    rewrite task_in_same in Hsum.
    eapply removeTask_count.
    + rewrite Gn. lia.
    + rewrite Ge. unfold gate_of. repeat case_decide; first [done|exfalso; lia].
    + unfold INT_MAX in *. lia.
Qed.

(** ** The invariant along every schedule *)

Lemma Inv_init nthreads prog : Inv (ThreadPool nthreads prog).
Proof.
  constructor.
  - apply LockInv_init.
  - apply CountInv_init.
  - apply WorkerInv_init.
  - apply StopInv_init.
  - apply TaskInv_init.
Qed.

Lemma Inv_step s x s' : Inv s -> step x s = Some s' -> Inv s'.
Proof.
  intros [HL HC HW HS HT] H. constructor.
  - by eapply LockInv_step.
  - by eapply CountInv_step.
  - by eapply WorkerInv_step.
  - by eapply StopInv_step.
  - by eapply TaskInv_step.
Qed.

Lemma Inv_run nthreads prog sched : Inv (run sched (ThreadPool nthreads prog)).
Proof. apply run_invariant; [apply Inv_step|apply Inv_init]. Qed.

Lemma BoundedInv_step s x s' : BoundedInv s -> step x s = Some s' -> BoundedInv s'.
Proof.
  intros [HI HG HB] H. constructor.
  - by eapply Inv_step.
  - destruct HI. by eapply GroupInv_step.
  - apply load_step in H. lia.
Qed.

Lemma BoundedInv_run nthreads prog sched :
  (Z.of_nat (adds prog) <= INT_MAX)%Z ->
  BoundedInv (run sched (ThreadPool nthreads prog)).
Proof.
  intros Hb. apply run_invariant; [apply BoundedInv_step|].
  constructor; [apply Inv_init|apply GroupInv_init|done].
Qed.

(** ** Properties of the log *)

Lemma HistInv_nil Q s : log s = [] -> HistInv Q s.
Proof. intros E l1 l2 e H. rewrite E in H. by destruct l1. Qed.

Lemma HistInv_same Q s s' : log s' = log s -> HistInv Q s -> HistInv Q s'.
Proof. intros E H l1 l2 e Hl. rewrite E in Hl. eauto. Qed.

Lemma HistInv_cons Q s s' e :
  log s' = e :: log s -> Q e (log s) -> HistInv Q s -> HistInv Q s'.
Proof.
  intros E He H l1 l2 e' Hl. rewrite E in Hl.
  destruct l1 as [|e1 l1]; simplify_eq/=; eauto.
Qed.

Lemma HistInv_cons2 Q s s' e1 e2 :
  log s' = e1 :: e2 :: log s -> Q e2 (log s) -> Q e1 (e2 :: log s) ->
  HistInv Q s -> HistInv Q s'.
Proof.
  intros E H2 H1 H l1 l2 e' Hl. rewrite E in Hl.
  destruct l1 as [|? [|? l1]]; simplify_eq/=; eauto.
Qed.

(** Every step leaves the log alone or records one or two events. *)
Ltac hist_step :=
  first [ eapply HistInv_same; [reflexivity|eassumption]
        | eapply HistInv_cons; [reflexivity| |eassumption]
        | eapply HistInv_cons2; [reflexivity| | |eassumption] ];
  simpl; try done.

(** No worker holds a task once every worker has exited. *)
Lemma all_exited_no_task s t :
  WorkerInv s -> Forall (exited (workers s)) (threads (pool s)) ->
  ~ worker_has (workers s) t.
Proof.
  intros [Wl _] Hall (w & pc & Hw & Ht).
  destruct (decide (pc = WExited)) as [->|Hne]; [done|].
  specialize (Wl _ _ Hw Hne). rewrite Forall_forall in Hall.
  specialize (Hall _ Wl). unfold exited in Hall. congruence.
Qed.



(** When [~TaskGroup] stops waiting, no task of the group is pending. *)
Lemma drain_completed s g gd v t :
  BoundedInv s -> caller s = TG_Wait g ->
  groups s !! g = Some gd -> Semaphore_wait (isEmpty gd) = Some v ->
  EvSubmit t ∈ log s -> group t = g -> completed t (log s).
Proof.
  intros [[_ _ HW HS [Ta _ _ _ _]] [Gc _] _] Hpc Hg Hv Hin Hgt.
  destruct (Gc _ _ Hg) as [Gn Ge]. rewrite Ge in Hv. unfold gate_of in Hv.
  case_decide as Hp; [|done]. unfold pending in Hp.
  destruct (Ta _ Hin) as [H|[H|[H|H]]]; [| | |done].
  - apply (sum_list_with_in _ (task_in g)) in H.
    unfold task_in in H at 1. rewrite decide_True in H by done. lia.
  - destruct H as (w & pc & Hw & Ht).
    apply list_elem_of_lookup_2 in Hw.
    apply (sum_list_with_in _ (worker_pending g)) in Hw.
    unfold worker_pending in Hw at 1. rewrite Ht in Hw. simpl in Hw.
    unfold task_in in Hw at 1. rewrite decide_True in Hw by done. lia.
  - by rewrite Hpc in H.
Qed.

Lemma drained_step s x s' :
  BoundedInv s -> HistInv drained_after_completion s ->
  step x s = Some s' -> HistInv drained_after_completion s'.
Proof.
  intros HI HH H.
  pose proof (drain_completed s) as Hdone.
  step_inv H.
  all: hist_step.
  intros t' Ht' Hg'. eapply Hdone; eauto.
Qed.

(** ** Resizing *)

Lemma ResizeInv_init nthreads prog :
  is_unsigned nthreads -> Forall command_ok prog ->
  ResizeInv (ThreadPool nthreads prog).
Proof.
  intros Hn Hp. constructor; simpl; try done.
  constructor; [|done]. simpl. unfold int_of_unsigned, is_unsigned in *.
  destruct (decide (nthreads < 2 ^ 31)%Z).
  - rewrite wrap_int_id; unfold is_int, INT_MIN, INT_MAX; lia.
  - rewrite wrap_int_high by lia. unfold is_int, INT_MIN, INT_MAX; lia.
Qed.

Lemma ResizeInv_step s x s' :
  ResizeInv s -> step x s = Some s' -> ResizeInv s'.
Proof.
  intros [Rp Rc Rt Rg Rz Rr Rs] H.
  step_inv H.
  all: try match goal with k : FinishCont |- _ => destruct k end.
  all: rewrite ?Hpc in *; simpl in *.
  all: try (apply Forall_cons in Rp as [Rc0 Rp]; simpl in Rc0).
  all: try (pose proof (Rc _ eq_refl) as Rc1;
            rewrite ?size_t_of_int_id in * by done).
  all: unfold spawn_worker; constructor; simpl; rewrite ?Hpc; simpl; try done.
  all: try (intros ? [= <-]).
  all: try (intros ? [= ->]).
  all: try (unfold is_int, INT_MIN, INT_MAX in *; lia).
  all: try (by eauto).
  all: try (intros N _ [= <-]).
  all: try match goal with E : (_ <? _)%Z = _ |- _ => revert E end.
  all: try match goal with E : (_ <? _)%Z = _ |- _ => revert E end.
  all: try match goal with E : (_ >? _)%Z = _ |- _ => revert E end.
  all: rewrite ?Z.ltb_ge, ?Z.ltb_lt, ?Z.gtb_ltb; intros.
  all: try (specialize (Rg _ eq_refl)).
  all: try (specialize (Rr _ eq_refl)).
  all: try (specialize (Rz _ eq_refl)).
  all: lia.
Qed.

Lemma ResizeInv_run nthreads prog sched :
  is_unsigned nthreads -> Forall command_ok prog ->
  ResizeInv (run sched (ThreadPool nthreads prog)).
Proof.
  intros Hn Hp. apply run_invariant; [apply ResizeInv_step|].
  by apply ResizeInv_init.
Qed.

Lemma resized_step s x s' :
  ResizeInv s -> HistInv numThreads_after_resize s ->
  step x s = Some s' -> HistInv numThreads_after_resize s'.
Proof.
  intros [Rp Rc Rt Rg Rz Rr Rs] HH H.
  step_inv H.
  all: hist_step.
  intros N HN. rewrite ?Hpc in Rs. specialize (Rs _ eq_refl HN).
  unfold int_of_size_t. rewrite wrap_int_id; [done|].
  unfold is_int, INT_MIN, INT_MAX in *. lia.
Qed.

(** ** The calls made so far *)

Lemma last_count_snoc made c :
  last_count (made ++ [c]) =
  match c with SetNumThreads count => Some count | _ => last_count made end.
Proof. unfold last_count. by rewrite foldl_app. Qed.

Lemma CallInv_init calls : CallInv calls (mkState PoolData_new ∅ [] CReady calls []).
Proof. right. by exists []. Qed.

Lemma CallInv_step calls s x s' :
  CallInv calls s -> step x s = Some s' -> CallInv calls s'.
Proof.
  intros [Ht|(made & Hc & Hl)] H.
  { left. step_inv H; simpl; done. }
  step_inv H.
  all: try match goal with k : FinishCont |- _ => destruct k end.
  all: unfold CallInv, pending_call, spawn_worker in *; simpl in *.
  all: rewrite ?Hpc in *; simpl in *.
  all: try match goal with E : program _ = _ |- _ => rewrite E in *; simpl in * end.
  all: first
    [ by left
    | right; exists made; split; [done|done]
    | right; eexists (made ++ [_]); rewrite last_count_snoc;
      split; [by rewrite <- ?app_assoc|done] ].
Qed.

(** ** The return of a shrinking call *)







Lemma CallInv_run nthreads prog sched :
  CallInv (SetNumThreads (int_of_unsigned nthreads) :: prog)
    (run sched (ThreadPool nthreads prog)).
Proof. apply run_invariant; [apply CallInv_step|apply CallInv_init]. Qed.

(** After the reset of [finish ()] the queue and the thread list are empty. *)
Lemma ClearedInv_step s x s' :
  ClearedInv s -> step x s = Some s' -> ClearedInv s'.
Proof.
  unfold ClearedInv. intros HC H.
  step_inv H.
  all: try match goal with k : FinishCont |- _ => destruct k end.
  all: rewrite ?Hpc in *; simpl in *.
  all: unfold spawn_worker; simpl; rewrite ?Hpc; simpl; try done.
  all: try (intros; by apply HC).
  all: intros Hc; destruct (HC Hc); split; congruence.
Qed.

Lemma ClearedInv_run nthreads prog sched :
  ClearedInv (run sched (ThreadPool nthreads prog)).
Proof. apply run_invariant; [apply ClearedInv_step|]. done. Qed.

(** ** The calling thread on its own *)

Lemma solo_S n s : solo (S n) s = solo n (exec s Caller).
Proof. done. Qed.

Lemma solo_0 s : solo 0 s = s.
Proof. done. Qed.

Lemma exec_step s x s' : step x s = Some s' -> exec s x = s'.
Proof. unfold exec. by intros ->. Qed.

Lemma exec_stuck s x : step x s = None -> exec s x = s.
Proof. unfold exec. by intros ->. Qed.

Lemma solo_add n m s : solo (n + m) s = solo m (solo n s).
Proof. unfold solo. by rewrite replicate_add, run_app. Qed.

(** The loop [while (numThreads < count)] creates the missing workers. *)
Lemma grow_solo k s count :
  caller s = SNT_Grow count ->
  (0 <= count <= INT_MAX)%Z ->
  (numThreads (pool s) + Z.of_nat k)%Z = count ->
  let s' := solo (S k) s in
  caller s' = SNT_Return count /\ grown k s s' /\ same_queue s s' /\
  threadMutex (pool s') = threadMutex (pool s) /\
  program s' = program s /\ log s' = log s.
Proof.
  revert s. induction k as [|k IH]; intros s Hpc Hc Hn.
  - rewrite solo_S, solo_0.
    erewrite exec_step; cycle 1.
    { simpl. unfold_caller. rewrite Hpc.
      rewrite size_t_of_int_id by done.
      by rewrite (proj2 (Z.ltb_ge _ _)) by lia. }
    repeat split; simpl; try done.
    + by rewrite app_nil_r.
    + lia.
    + by rewrite app_nil_r.
  - rewrite solo_S.
    erewrite exec_step; cycle 1.
    { simpl. unfold_caller. rewrite Hpc.
      rewrite size_t_of_int_id by done.
      by rewrite (proj2 (Z.ltb_lt _ _)) by lia. }
    specialize (IH (spawn_worker s)).
    destruct IH as (H1 & (H2 & H3 & H4) & (H5 & H6 & H7 & H8) & H9 & H10 & H11);
      [done|done|simpl; lia|].
    simpl in *. repeat split; try done.
    + rewrite H2, <- app_assoc. f_equal. simpl. f_equal.
      rewrite length_app. simpl. f_equal. lia.
    + rewrite H3. lia.
    + rewrite H4, <- app_assoc. done.
Qed.

Lemma PoolData_unlock_thread d :
  threadMutex d = None ->
  set_threadMutex None (set_threadMutex (Some Caller) d) = d.
Proof. destruct d; simpl. by intros ->. Qed.

Lemma setNumThreads_step_frame s s' :
  in_setNumThreads (caller s) = true -> step Caller s = Some s' ->
  same_queue s s'.
Proof.
  intros Hin H. simpl in H. unfold_caller in H.
  destruct (caller s); try done; simpl in H;
    unfold Mutex_lock, Mutex_unlock in H;
    repeat (case_match; simplify_eq/=); simplify_eq/=;
    by repeat split.
Qed.

Lemma setNumThreads_enter s n rest :
  caller s = CReady -> program s = SetNumThreads n :: rest ->
  threadMutex (pool s) = None -> (0 <= n)%Z ->
  solo 2 s =
    at_caller (SNT_Branch n)
      (with_pool (set_threadMutex (Some Caller) (pool s)) (with_program rest s)).
Proof.
  intros Hpc Hprog Hmx Hn.
  rewrite solo_S. erewrite exec_step; cycle 1.
  { simpl. unfold_caller. rewrite Hpc, Hprog. simpl.
    by rewrite (proj2 (Z.ltb_ge _ _)) by lia. }
  rewrite solo_S, solo_0. apply exec_step.
  simpl. unfold_caller. simpl. by rewrite Hmx.
Qed.

Lemma setNumThreads_return s n :
  caller s = SNT_Return n ->
  solo 1 s =
    at_caller CReady
      (record (EvResized n) (with_pool (set_threadMutex None (pool s)) s)).
Proof.
  intros Hpc. rewrite solo_S, solo_0. apply exec_step.
  simpl. unfold_caller. by rewrite Hpc.
Qed.

Section SetNumThreadsSolo.
Variables (s : State) (n : Z) (rest : list Command).
Hypothesis Hpc : caller s = CReady.
Hypothesis Hprog : program s = SetNumThreads n :: rest.
Hypothesis Hmx : threadMutex (pool s) = None.
Hypothesis Hn : (0 <= numThreads (pool s) <= n)%Z.
Hypothesis Hmax : (n <= INT_MAX)%Z.

Lemma setNumThreads_same :
  n = numThreads (pool s) ->
  let s' := solo 4 s in
  caller s' = CReady /\ program s' = rest /\
  pool s' = pool s /\ workers s' = workers s /\ groups s' = groups s /\
  log s' = EvResized n :: log s.
Proof.
  assert (Hs : size_t_of_int n = n) by (apply size_t_of_int_id; lia).
  pose proof (setNumThreads_enter s n rest Hpc Hprog Hmx ltac:(lia)) as H2.
  intros Heq. change 4 with (2 + (1 + 1)). rewrite !solo_add, H2.
  set (s2 := at_caller _ _).
  assert (H3 : solo 1 s2 = at_caller (SNT_Return n) s2).
  { rewrite solo_S, solo_0. apply exec_step. simpl. unfold_caller. simpl.
    by rewrite Hs, Heq, Z.gtb_ltb, Z.ltb_irrefl. }
  rewrite H3, (setNumThreads_return _ n) by done.
  simpl. rewrite PoolData_unlock_thread by done.
  repeat split; done.
Qed.

Lemma setNumThreads_grow :
  (numThreads (pool s) < n)%Z ->
  let k := Z.to_nat (n - numThreads (pool s)) in
  let s' := solo (k + 5) s in
  caller s' = CReady /\ program s' = rest /\
  grown k s s' /\ numThreads (pool s') = n /\ same_queue s s' /\
  log s' = EvResized n :: log s.
Proof.
  assert (Hs : size_t_of_int n = n) by (apply size_t_of_int_id; lia).
  pose proof (setNumThreads_enter s n rest Hpc Hprog Hmx ltac:(lia)) as H2.
  intros Hlt k.
  replace (k + 5) with (2 + (1 + (S k + 1))) by lia.
  rewrite !solo_add, H2.
  set (s2 := at_caller _ _).
  assert (H3 : solo 1 s2 = at_caller (SNT_Grow n) s2).
  { rewrite solo_S, solo_0. apply exec_step. simpl. unfold_caller. simpl.
    by rewrite Hs, Z.gtb_ltb, (proj2 (Z.ltb_lt _ _)) by lia. }
  rewrite H3. set (s3 := at_caller (SNT_Grow n) s2).
  destruct (grow_solo k s3 n eq_refl)
    as (Hc & (Gt & Gn & Gw) & (Qt & Qn & Qs & Qg) & Hm & Hp & Hl).
  { lia. } { simpl. lia. }
  rewrite (setNumThreads_return _ n) by done.
  simpl in *. repeat split; simpl; try done; try lia. by rewrite Hl.
Qed.
End SetNumThreadsSolo.

(** C9: [setNumThreads (n)] with [n] equal to the current count is a
    no-op (the pool's data, the workers and the groups are as before);
    with [n] greater it appends [n - numThreads] new workers and sets the
    count to [n], and leaves the task queue, its counter, the stopping
    flag and the groups untouched.  No statement of [setNumThreads]
    outside [finish ()] touches them. *)
Theorem C9_setNumThreads_frame (s : State) (n : Z) (rest : list Command) :
  caller s = CReady ->
  program s = SetNumThreads n :: rest ->
  threadMutex (pool s) = None ->
  (0 <= numThreads (pool s) <= n)%Z -> (n <= INT_MAX)%Z ->
  (n = numThreads (pool s) ->
   let s' := solo 4 s in
   caller s' = CReady /\ program s' = rest /\
   pool s' = pool s /\ workers s' = workers s /\ groups s' = groups s /\
   same_threads s s' /\ same_queue s s') /\
  ((numThreads (pool s) < n)%Z ->
   let k := Z.to_nat (n - numThreads (pool s)) in
   let s' := solo (k + 5) s in
   caller s' = CReady /\ program s' = rest /\
   grown k s s' /\ numThreads (pool s') = n /\ same_queue s s') /\
  (forall s1 s2, in_setNumThreads (caller s1) = true ->
     step Caller s1 = Some s2 -> same_queue s1 s2).
Proof.
  intros Hpc Hprog Hmx Hn Hmax. split; [|split].
  - intros Heq.
    destruct (setNumThreads_same s n rest Hpc Hprog Hmx Hn Hmax Heq)
      as (H1 & H2 & H3 & H4 & H5 & H6).
    cbv zeta. unfold same_threads, same_queue. rewrite H3, H4, H5.
    by repeat split.
  - intros Hlt.
    destruct (setNumThreads_grow s n rest Hpc Hprog Hmx Hn Hmax Hlt)
      as (H1 & H2 & H3 & H4 & H5 & H6).
    cbv zeta. split; [done|]. split; [done|]. split; [done|]. split; done.
  - apply setNumThreads_step_frame.
Qed.

Lemma C9_setNumThreads_frame_witness :
  let s := Scenario.resize_call in
  (2%Z = numThreads (pool s) ->
   let s' := solo 4 s in
   caller s' = CReady /\ program s' = [SetNumThreads 5] /\
   pool s' = pool s /\ workers s' = workers s /\ groups s' = groups s /\
   same_threads s s' /\ same_queue s s') /\
  ((numThreads (pool s) < 2)%Z ->
   let k := Z.to_nat (2 - numThreads (pool s)) in
   let s' := solo (k + 5) s in
   caller s' = CReady /\ program s' = [SetNumThreads 5] /\
   grown k s s' /\ numThreads (pool s') = 2%Z /\ same_queue s s') /\
  (forall s1 s2, in_setNumThreads (caller s1) = true ->
     step Caller s1 = Some s2 -> same_queue s1 s2).
Proof.
  apply (C9_setNumThreads_frame Scenario.resize_call 2 [SetNumThreads 5]);
    try (vm_compute; reflexivity).
  - vm_compute. split; discriminate.
  - vm_compute. discriminate.
Defined.

(** One call of [addTask] on a pool without threads. *)
Lemma addTask_inline s t rest :
  caller s = CReady -> program s = AddTask t :: rest ->
  threadMutex (pool s) = None -> numThreads (pool s) = 0%Z ->
  let s' := solo 7 s in
  caller s' = CReady /\ program s' = rest /\ pool s' = pool s /\
  groups s' = groups s /\ workers s' = workers s /\
  log s' = inline_events t ++ log s.
Proof.
  intros Hpc Hprog Hmx Hn.
  do 6 (rewrite solo_S; erewrite exec_step; cycle 1;
        [ simpl; unfold_caller; rewrite ?Hpc, ?Hprog; simpl;
          rewrite ?Hmx, ?Hn; simpl; reflexivity |]).
  rewrite solo_S, solo_0. erewrite exec_step; [|reflexivity].
  simpl. rewrite PoolData_unlock_thread by done. by repeat split.
Qed.

Lemma addTasks_inline ts : forall s rest,
  caller s = CReady -> program s = (AddTask <$> ts) ++ rest ->
  threadMutex (pool s) = None -> numThreads (pool s) = 0%Z ->
  let s' := solo (7 * length ts) s in
  caller s' = CReady /\ program s' = rest /\ pool s' = pool s /\
  groups s' = groups s /\ workers s' = workers s /\
  log s' = inline_log ts ++ log s.
Proof.
  induction ts as [|t ts IH]; intros s rest Hpc Hprog Hmx Hn.
  - simpl in *. by rewrite solo_0.
  - replace (7 * length (t :: ts)) with (7 + 7 * length ts) by (simpl; lia).
    rewrite solo_add.
    destruct (addTask_inline s t _ Hpc Hprog Hmx Hn)
      as (H1 & H2 & H3 & H4 & H5 & H6).
    destruct (IH (solo 7 s) rest H1 H2) as (I1 & I2 & I3 & I4 & I5 & I6).
    { by rewrite H3. } { by rewrite H3. }
    cbv zeta in *. repeat split; try congruence.
    rewrite I6, H6. simpl. by rewrite <- app_assoc.
Qed.

(** One call of [numThreads ()] by the calling thread. *)
Lemma numThreads_solo s rest :
  caller s = CReady -> program s = NumThreads :: rest ->
  threadMutex (pool s) = None ->
  let s' := solo 3 s in
  caller s' = CReady /\ program s' = rest /\ pool s' = pool s /\
  log s' = EvNumThreads (numThreads_result s) :: log s.
Proof.
  intros Hpc Hprog Hmx.
  do 2 (rewrite solo_S; erewrite exec_step; cycle 1;
        [ simpl; unfold_caller; rewrite ?Hpc, ?Hprog; simpl;
          rewrite ?Hmx; simpl; reflexivity |]).
  rewrite solo_S, solo_0. erewrite exec_step; [|reflexivity].
  simpl. rewrite PoolData_unlock_thread by done. by repeat split.
Qed.

(** ** Locks held during [execute ()] *)

Lemma worker_executing_unlocked s w :
  LockInv s -> executing (Worker w) s -> locks_held (Worker w) s = [].
Proof.
  intros [Ht Hs Hc Hk] [t Hw]. unfold locks_held.
  specialize (Hk w). unfold worker_holds in Hk. rewrite Hw in Hk. simpl in Hk.
  destruct (decide (taskMutex (pool s) = Some (Worker w))) as [E|E];
    [by apply Hk in E|].
  rewrite Ht, Hs.
  by destruct (caller_holds_stop _), (caller_holds_thread _).
Qed.

Lemma caller_executing_locked s :
  LockInv s -> executing Caller s -> locks_held Caller s = [ThreadMutex].
Proof.
  intros [Ht Hs Hc Hk] [t Hpc]. unfold locks_held.
  rewrite Hpc in *. simpl in *.
  destruct (decide (taskMutex (pool s) = Some Caller)) as [E|E];
    [by apply Hc in E|].
  by rewrite Ht, Hs.
Qed.

(** [addTask] on a pool without threads reaches [execute ()] holding
    [threadMutex]. *)
Lemma addTask_inline_executing s t rest :
  caller s = CReady -> program s = AddTask t :: rest ->
  threadMutex (pool s) = None -> numThreads (pool s) = 0%Z ->
  let s' := solo 4 s in
  caller s' = AT_Executing t /\ threadMutex (pool s') = Some Caller /\
  taskMutex (pool s') = taskMutex (pool s) /\
  stopMutex (pool s') = stopMutex (pool s).
Proof.
  intros Hpc Hprog Hmx Hn.
  do 3 (rewrite solo_S; erewrite exec_step; cycle 1;
        [ simpl; unfold_caller; rewrite ?Hpc, ?Hprog; simpl;
          rewrite ?Hmx, ?Hn; simpl; reflexivity |]).
  rewrite solo_S, solo_0. erewrite exec_step; [|reflexivity].
  by repeat split.
Qed.

(** C8 (the claim fails on the synchronous branch of [addTask]): along
    every schedule a worker inside [execute ()] holds no mutex of the
    pool, but the calling thread inside [execute ()] holds [threadMutex];
    and [addTask] on a pool without threads does reach [execute ()] in
    four statements, with [threadMutex] held. *)
Theorem C8_locks_during_execute nthreads prog sched :
  let s := run sched (ThreadPool nthreads prog) in
  (forall w, executing (Worker w) s -> locks_held (Worker w) s = []) /\
  (executing Caller s -> locks_held Caller s = [ThreadMutex]) /\
  (forall s0 t rest,
     caller s0 = CReady -> program s0 = AddTask t :: rest ->
     threadMutex (pool s0) = None -> numThreads (pool s0) = 0%Z ->
     executing Caller (solo 4 s0) /\
     threadMutex (pool (solo 4 s0)) = Some Caller).
Proof.
  intros s. pose proof (inv_lock _ (Inv_run nthreads prog sched)) as HL.
  split; [|split].
  - intros w. by apply worker_executing_unlocked.
  - by apply caller_executing_locked.
  - intros s0 t rest H1 H2 H3 H4.
    destruct (addTask_inline_executing s0 t rest H1 H2 H3 H4) as (Hc & Hm & _).
    split; [by exists t|done].
Qed.

(** The failing input of C8: a pool without threads inside the
    [execute ()] of a task given to [addTask]. *)
Example inline_executing_holds_threadMutex :
  executing Caller Scenario.inline_executing /\
  locks_held Caller Scenario.inline_executing = [ThreadMutex].
Proof.
  split; [exists Scenario.t0|]; vm_compute; reflexivity.
Qed.

(** ** Claims on single calls *)

(** C1 as stated fails: after [addTask] has run a task on a pool without
    threads and returned, the log holds the task's execution and
    deletion, but neither [TaskGroup::Data::addTask] nor
    [TaskGroup::Data::removeTask] has run on its group. *)
Lemma C1_group_bookkeeping_counterexample :
  caller Scenario.inline_returned = CReady /\
  EvExecEnd Caller Scenario.t0 ∈ log Scenario.inline_returned /\
  ~ (EvGroupAdd (group Scenario.t0) ∈ log Scenario.inline_returned /\
     EvGroupRemove (group Scenario.t0) ∈ log Scenario.inline_returned).
Proof.
  assert (E : log Scenario.inline_returned =
              inline_events Scenario.t0 ++ [EvResized 0])
    by (vm_compute; reflexivity).
  split; [vm_compute; reflexivity|]. rewrite E. unfold inline_events. split.
  - apply elem_of_app. left. right. left.
  - intros [H _]. apply elem_of_app in H as [H|H];
      repeat (apply elem_of_cons in H as [H|H]; [discriminate H|]);
      by apply elem_of_nil in H.
Qed.

(** C1, amended: on a pool without threads, [addTask] called on each
    task of [ts] in turn runs the task's [execute ()] on the calling
    thread and then deletes the task, in call order; the task groups are
    not touched at all (neither [addTask] nor [removeTask] runs on them),
    and the pool's data and workers are as before. *)
Theorem C1_inline_execution (s : State) (ts : list Task) (rest : list Command) :
  caller s = CReady ->
  program s = (AddTask <$> ts) ++ rest ->
  threadMutex (pool s) = None ->
  numThreads (pool s) = 0%Z ->
  let s' := solo (7 * length ts) s in
  caller s' = CReady /\ program s' = rest /\
  log s' = inline_log ts ++ log s /\
  groups s' = groups s /\ pool s' = pool s /\ workers s' = workers s /\
  (forall g, (EvGroupAdd g ∉ inline_log ts) /\ (EvGroupRemove g ∉ inline_log ts)).
Proof.
  intros Hpc Hprog Hmx Hn.
  destruct (addTasks_inline ts s rest Hpc Hprog Hmx Hn)
    as (H1 & H2 & H3 & H4 & H5 & H6).
  repeat split; try done.
  - clear. induction ts as [|t ts IH]; simpl.
    + apply not_elem_of_nil.
    + rewrite elem_of_app. intros [H|H]; [done|].
      repeat (apply elem_of_cons in H as [H|H]; [discriminate H|]).
      by apply elem_of_nil in H.
  - clear. induction ts as [|t ts IH]; simpl.
    + apply not_elem_of_nil.
    + rewrite elem_of_app. intros [H|H]; [done|].
      repeat (apply elem_of_cons in H as [H|H]; [discriminate H|]).
      by apply elem_of_nil in H.
Qed.

Lemma C1_inline_execution_witness :
  let s' := solo (7 * 2) Scenario.inline_call in
  caller s' = CReady /\ program s' = [] /\
  log s' = inline_log [Scenario.t0; Scenario.t1] ++ log Scenario.inline_call /\
  groups s' = groups Scenario.inline_call /\
  pool s' = pool Scenario.inline_call /\
  workers s' = workers Scenario.inline_call /\
  (forall g, (EvGroupAdd g ∉ inline_log [Scenario.t0; Scenario.t1]) /\
             (EvGroupRemove g ∉ inline_log [Scenario.t0; Scenario.t1])).
Proof.
  apply (C1_inline_execution Scenario.inline_call
           [Scenario.t0; Scenario.t1] []); vm_compute; reflexivity.
Defined.

(** C2: [setNumThreads (n)] with [n < 0] throws [Iex::ArgExc] at its
    first statement; the pool's data (thread count, worker list, task
    queue, stopping flag), the workers and the groups are unchanged. *)
Theorem C2_negative_count_rejected (s : State) (n : Z) (rest : list Command) :
  caller s = CReady ->
  program s = SetNumThreads n :: rest ->
  (n < 0)%Z ->
  exists s', step Caller s = Some s' /\
    caller s' = CThrown /\ log s' = EvArgExc :: log s /\
    pool s' = pool s /\ workers s' = workers s /\ groups s' = groups s /\
    numThreads_result s' = numThreads_result s.
Proof.
  intros Hpc Hprog Hn. eexists. split.
  - simpl. unfold_caller. rewrite Hpc, Hprog. simpl.
    by rewrite (proj2 (Z.ltb_lt _ _)) by done.
  - by repeat split.
Qed.

Lemma C2_negative_count_rejected_witness :
  exists s', step Caller Scenario.negative_call = Some s' /\
    caller s' = CThrown /\ log s' = EvArgExc :: log Scenario.negative_call /\
    pool s' = pool Scenario.negative_call /\
    workers s' = workers Scenario.negative_call /\
    groups s' = groups Scenario.negative_call /\
    numThreads_result s' = numThreads_result Scenario.negative_call.
Proof.
  apply (C2_negative_count_rejected Scenario.negative_call (-1) [NumThreads]);
    [vm_compute; reflexivity|vm_compute; reflexivity|lia].
Defined.

(** ** Claims on every schedule *)


Lemma drained_run nthreads prog sched :
  (Z.of_nat (adds prog) <= INT_MAX)%Z ->
  HistInv drained_after_completion (run sched (ThreadPool nthreads prog)).
Proof.
  intros Hb.
  refine (proj2 (run_invariant
    (fun s => BoundedInv s /\ HistInv drained_after_completion s) _ sched _ _)).
  - intros s x s' [HI HH] H.
    split; [by eapply BoundedInv_step|by eapply drained_step].
  - split; [|by apply HistInv_nil].
    constructor; [apply Inv_init|apply GroupInv_init|done].
Qed.

Lemma resized_run nthreads prog sched :
  is_unsigned nthreads -> Forall command_ok prog ->
  HistInv numThreads_after_resize (run sched (ThreadPool nthreads prog)).
Proof.
  intros Hn Hp.
  refine (proj2 (run_invariant
    (fun s => ResizeInv s /\ HistInv numThreads_after_resize s) _ sched _ _)).
  - intros s x s' [HI HH] H.
    split; [by eapply ResizeInv_step|by eapply resized_step].
  - split; [by apply ResizeInv_init|by apply HistInv_nil].
Qed.


(** With no thread in the pool, every submitted task has completed,
    but for the one the calling thread is running itself. *)
Lemma idle_pool_completed s t :
  Inv s -> threads (pool s) = [] -> EvSubmit t ∈ log s ->
  caller_task (caller s) = Some t \/ completed t (log s).
Proof.
  intros [_ _ HW [_ _ _ Sn _ _] [Ta _ _ _ _]] Hth Hin.
  destruct (Ta _ Hin) as [H|[H|[H|H]]]; [| |by left|by right].
  - rewrite (Sn Hth) in H. by apply elem_of_nil in H.
  - apply all_exited_no_task in H; [done|done|]. rewrite Hth. constructor.
Qed.


(** C5: along every schedule of a program that submits fewer than 2^31
    tasks, (a) [~TaskGroup] cannot move while the group's pending-count
    is not zero; (b) when it moves, the count is zero; (c) whenever it
    has returned, every task submitted to that group before had been
    executed and deleted before. *)
Theorem C5_drain_waits_for_group nthreads prog sched :
  (Z.of_nat (adds prog) <= INT_MAX)%Z ->
  let s := run sched (ThreadPool nthreads prog) in
  (forall g d, caller s = TG_Wait g -> groups s !! g = Some d ->
     numPending d <> 0%Z -> step Caller s = None) /\
  (forall g s', caller s = TG_Wait g -> step Caller s = Some s' ->
     exists d, groups s !! g = Some d /\ numPending d = 0%Z) /\
  HistInv drained_after_completion s.
Proof.
  intros Hb s. pose proof (BoundedInv_run nthreads prog sched Hb) as [HI [Gc Ga] HB].
  fold s in HI, Gc, Ga, HB.
  split; [|split].
  - intros g d Hpc Hg Hn. simpl. unfold_caller. rewrite Hpc. simpl.
    rewrite Hg. simpl. destruct (Gc _ _ Hg) as [Gn Ge].
    unfold TaskGroup.drain. rewrite Ge. unfold gate_of.
    case_decide as Hp; [|done]. rewrite Hp in Gn. done.
  - intros g s' Hpc H. simpl in H. unfold_caller in H. rewrite Hpc in H.
    destruct (groups s !! g) as [d|] eqn:Hg; [|done]. simpl in H.
    exists d. split; [done|]. destruct (Gc _ _ Hg) as [Gn Ge].
    unfold TaskGroup.drain in H. rewrite Ge in H. unfold gate_of in H.
    case_decide as Hp; [|done]. rewrite Hp in Gn. done.
  - by apply drained_run.
Qed.

(** C3: along every schedule of a program whose counts are [int]s,
    (a) when [setNumThreads (N)] is about to return, [N] is not negative
    and [numThreads ()] would return [N]; (b) at every statement outside
    a resize, [numThreads ()] would return the argument of the last
    [setNumThreads] that returned; (c) every value [numThreads ()] has
    returned is the argument of the last [setNumThreads] that had
    returned before; (d) a call of [numThreads ()] returns: run alone,
    the calling thread completes it in three statements, and the value
    returned is the one of (a) and (b); (e) unless [Iex::ArgExc] was
    thrown, the calls of the program are those made so far, the
    [setNumThreads] in progress and those still to make, and the last
    [setNumThreads] the log shows to have returned is the last one made;
    (f) so whenever the calling thread is outside [setNumThreads] (and
    [~ThreadPool] has not reset the pool), [numThreads ()] would return
    the argument [N] of the last [setNumThreads (N)] call the program
    has made, the constructor's included: every [setNumThreads (N)] that
    has returned has left the count at [N], whether it grew the pool,
    shrank it or left it as it was. *)
Theorem C3_numThreads_after_setNumThreads nthreads prog sched :
  is_unsigned nthreads -> Forall command_ok prog ->
  let s := run sched (ThreadPool nthreads prog) in
  (forall N, caller s = SNT_Return N ->
     (0 <= N)%Z /\ numThreads_result s = N) /\
  (forall N, caller_settled (caller s) = true ->
     last_resized (log s) = Some N -> numThreads_result s = N) /\
  HistInv numThreads_after_resize s /\
  (forall rest, caller s = CReady -> program s = NumThreads :: rest ->
     caller (solo 3 s) = CReady /\ program (solo 3 s) = rest /\
     log (solo 3 s) = EvNumThreads (numThreads_result s) :: log s) /\
  CallInv (SetNumThreads (int_of_unsigned nthreads) :: prog) s /\
  (forall made N,
     caller s <> CThrown -> caller_count (caller s) = None ->
     caller_settled (caller s) = true ->
     SetNumThreads (int_of_unsigned nthreads) :: prog = made ++ program s ->
     last_count made = Some N ->
     numThreads_result s = N).
Proof.
  intros Hn Hp s.
  pose proof (ResizeInv_run nthreads prog sched Hn Hp) as [Rp Rc Rt Rg Rz Rr Rs].
  fold s in Rp, Rc, Rt, Rg, Rz, Rr, Rs.
  assert (Hint : numThreads_result s = numThreads (pool s)).
  { unfold numThreads_result, int_of_size_t. fold s. apply wrap_int_id.
    unfold is_int, INT_MIN, INT_MAX in *. lia. }
  pose proof (CallInv_run nthreads prog sched) as HC. fold s in HC.
  split; [|split; [|split; [|split; [|split]]]].
  - intros N Hpc. rewrite Hint, (Rr _ Hpc).
    split; [|done]. apply (Rc N). by rewrite Hpc.
  - intros N Hc HN. rewrite Hint. by apply Rs.
  - by apply resized_run.
  - intros rest Hpc Hprog.
    pose proof (Inv_run nthreads prog sched) as [[Lt _ _ _] _ _ _ _].
    fold s in Lt. rewrite Hpc in Lt.
    destruct (numThreads_solo s rest Hpc Hprog Lt) as (H1 & H2 & _ & H4).
    done.
  - done.
  - intros made N Hth Hcc Hset Hmade HN.
    destruct HC as [HC|(made0 & Hc0 & Hl0)]; [done|].
    unfold pending_call in Hc0. rewrite Hcc in Hc0. simpl in Hc0.
    rewrite Hmade in Hc0. apply app_inv_tail in Hc0 as ->.
    rewrite Hint. apply Rs; [done|]. by rewrite Hl0.
Qed.

(** The scenario of the specification: four threads, ten tasks, a
    shrink to zero, a drain, a growth to two. *)
Example shrink_run_result :
  caller Scenario.shrink_run = CReady /\
  program Scenario.shrink_run = [] /\
  numThreads (pool Scenario.shrink_run) = 2%Z /\
  threads (pool Scenario.shrink_run) = [4; 5] /\
  firstn 5 (log Scenario.shrink_run) =
    [EvNumThreads 2; EvResized 2; EvDrained 0; EvResized 0; EvFinish []] /\
  sum_list_with (fun e => match e with EvExecEnd _ _ => 1 | _ => 0 end)
    (log Scenario.shrink_run) = 10.
Proof. repeat split; vm_compute; reflexivity. Qed.

Lemma C5_drain_waits_for_group_witness :
  let s := Scenario.shrink_run in
  (forall g d, caller s = TG_Wait g -> groups s !! g = Some d ->
     numPending d <> 0%Z -> step Caller s = None) /\
  (forall g s', caller s = TG_Wait g -> step Caller s = Some s' ->
     exists d, groups s !! g = Some d /\ numPending d = 0%Z) /\
  HistInv drained_after_completion s.
Proof.
  apply (C5_drain_waits_for_group 4 Scenario.shrink_program
           Scenario.shrink_schedule).
  vm_compute. discriminate.
Defined.

Lemma C3_numThreads_after_setNumThreads_witness :
  let s := Scenario.shrink_run in
  (forall N, caller s = SNT_Return N ->
     (0 <= N)%Z /\ numThreads_result s = N) /\
  (forall N, caller_settled (caller s) = true ->
     last_resized (log s) = Some N -> numThreads_result s = N) /\
  HistInv numThreads_after_resize s /\
  (forall rest, caller s = CReady -> program s = NumThreads :: rest ->
     caller (solo 3 s) = CReady /\ program (solo 3 s) = rest /\
     log (solo 3 s) = EvNumThreads (numThreads_result s) :: log s) /\
  CallInv (SetNumThreads (int_of_unsigned 4) :: Scenario.shrink_program) s /\
  (forall made N,
     caller s <> CThrown -> caller_count (caller s) = None ->
     caller_settled (caller s) = true ->
     SetNumThreads (int_of_unsigned 4) :: Scenario.shrink_program =
       made ++ program s ->
     last_count made = Some N ->
     numThreads_result s = N).
Proof.
  apply (C3_numThreads_after_setNumThreads 4 Scenario.shrink_program
           Scenario.shrink_schedule).
  - unfold is_unsigned. lia.
  - unfold Scenario.shrink_program. simpl.
    repeat constructor; unfold is_int, INT_MIN, INT_MAX; lia.
Defined.


(** In the scenario every call has returned, the last [setNumThreads]
    made is [setNumThreads (2)], and [setNumThreads (0)] returned, after
    [setNumThreads (4)] and ten pushes, with every task completed. *)
Example shrink_run_calls :
  let s := Scenario.shrink_run in
  caller s = CReady /\ program s = [] /\
  last_count (SetNumThreads (int_of_unsigned 4) :: Scenario.shrink_program) =
    Some 2%Z /\
  numThreads_result s = 2%Z /\
  nth_error (log s) 3 = Some (EvResized 0) /\
  last_resized (drop 4 (log s)) = Some 4%Z /\
  sum_list_with (fun e => match e with EvEnqueue _ => 1 | _ => 0 end)
    (drop 4 (log s)) = 10.
Proof. repeat split; vm_compute; reflexivity. Qed.

(** One task queued on a pool of one thread: [setNumThreads (0)] returns
    once the worker has executed and deleted the task and has left
    [run ()], with the queue empty. *)
Example stop_run_result :
  let s := Scenario.stop_run in
  caller s = CReady /\ program s = [] /\
  tasks (pool s) = [] /\ workers s = [WExited] /\
  numThreads_result s = 0%Z /\
  log s = [EvResized 0; EvFinish []; EvGroupRemove 0;
           EvDelete Scenario.t0; EvExecEnd (Worker 0) Scenario.t0;
           EvExecBegin (Worker 0) Scenario.t0; EvGroupAdd 0;
           EvEnqueue Scenario.t0; EvSubmit Scenario.t0; EvResized 1].
Proof. repeat split; vm_compute; reflexivity. Qed.

(** ** The constructor *)

Lemma run_stuck sched s : (forall x, step x s = None) -> run sched s = s.
Proof.
  intros Hs. induction sched as [|x sched IH]; [done|].
  simpl. by rewrite (exec_stuck _ _ (Hs x)).
Qed.

(** C10: [ThreadPool (nthreads)] passes its [unsigned] argument to
    [setNumThreads (int)].  From 2^31 on the converted count is negative:
    along every schedule no worker is created and the pool's data stay
    as [Data ()] left them, and the constructor's first statement throws
    [Iex::ArgExc].  Below 2^31 the conversion keeps the value and the
    constructor returns with [numThreads () == nthreads] and that many
    workers. *)
Theorem C10_constructor_unsigned_to_int (nthreads : Z) (prog : list Command) :
  is_unsigned nthreads ->
  ((2 ^ 31 <= nthreads)%Z ->
   (int_of_unsigned nthreads < 0)%Z /\
   forall sched,
     let s := run sched (ThreadPool nthreads prog) in
     workers s = [] /\ pool s = PoolData_new /\
     (Caller ∈ sched -> caller s = CThrown /\ log s = [EvArgExc])) /\
  ((nthreads < 2 ^ 31)%Z ->
   int_of_unsigned nthreads = nthreads /\
   exists n,
     let s := solo n (ThreadPool nthreads prog) in
     caller s = CReady /\ program s = prog /\
     numThreads_result s = nthreads /\
     length (workers s) = Z.to_nat nthreads /\
     log s = [EvResized nthreads]).
Proof.
  intros Hu. unfold is_unsigned in Hu. split.
  - intros Hge.
    assert (Hneg : (int_of_unsigned nthreads < 0)%Z).
    { unfold int_of_unsigned. rewrite wrap_int_high by lia. lia. }
    split; [done|].
    set (s0 := ThreadPool nthreads prog).
    set (s1 := at_caller CThrown (record EvArgExc (with_program prog s0))).
    assert (H1 : step Caller s0 = Some s1).
    { simpl. unfold_caller. simpl.
      by rewrite (proj2 (Z.ltb_lt _ _)) by done. }
    assert (Hw : forall s w, workers s = [] -> step (Worker w) s = None).
    { intros s w E. simpl. unfold WorkerThread_run. by rewrite E. }
    assert (H2 : forall x, step x s1 = None).
    { intros [|w]; [done|]. by apply Hw. }
    intros sched. induction sched as [|x sched IH].
    + cbv zeta. simpl. split; [done|]. split; [done|].
      intros Hx. by apply elem_of_nil in Hx.
    + cbv zeta in *. simpl. destruct x as [|w].
      * rewrite (exec_step _ _ _ H1), (run_stuck _ _ H2). by repeat split.
      * rewrite (exec_stuck s0 (Worker w)) by (by apply Hw).
        destruct IH as (I1 & I2 & I3). split; [done|]. split; [done|].
        intros Hx. apply elem_of_cons in Hx as [Hx|Hx]; [done|]. by apply I3.
  - intros Hlt.
    assert (Hid : int_of_unsigned nthreads = nthreads).
    { apply wrap_int_id. unfold is_int, INT_MIN, INT_MAX. lia. }
    split; [done|].
    set (s0 := ThreadPool nthreads prog).
    assert (Hprog : program s0 = SetNumThreads nthreads :: prog).
    { simpl. by rewrite Hid. }
    assert (Hint : forall s, numThreads (pool s) = nthreads ->
                             numThreads_result s = nthreads).
    { intros s E. unfold numThreads_result, int_of_size_t. rewrite E.
      apply wrap_int_id. unfold is_int, INT_MIN, INT_MAX. lia. }
    destruct (decide (nthreads = 0%Z)) as [E0|Hne].
    + exists 4.
      destruct (setNumThreads_same s0 nthreads prog eq_refl Hprog eq_refl)
        as (H1 & H2 & H3 & H4 & H5 & H6);
        [simpl; lia|unfold INT_MAX; lia|by rewrite E0|].
      cbv zeta. repeat split; try done.
      * apply Hint. by rewrite H3, E0.
      * rewrite H4, E0. done.
    + exists (Z.to_nat (nthreads - numThreads (pool s0)) + 5).
      destruct (setNumThreads_grow s0 nthreads prog eq_refl Hprog eq_refl)
        as (H1 & H2 & (G1 & G2 & G3) & H4 & H5 & H6);
        [simpl; lia|unfold INT_MAX; lia|simpl; lia|].
      cbv zeta. repeat split; try done.
      * by apply Hint.
      * rewrite G3. simpl. rewrite length_replicate. lia.
Qed.

Lemma C10_constructor_unsigned_to_int_witness :
  ((2 ^ 31 <= 3)%Z ->
   (int_of_unsigned 3 < 0)%Z /\
   forall sched,
     let s := run sched (ThreadPool 3 [NumThreads]) in
     workers s = [] /\ pool s = PoolData_new /\
     (Caller ∈ sched -> caller s = CThrown /\ log s = [EvArgExc])) /\
  ((3 < 2 ^ 31)%Z ->
   int_of_unsigned 3 = 3%Z /\
   exists n,
     let s := solo n (ThreadPool 3 [NumThreads]) in
     caller s = CReady /\ program s = [NumThreads] /\
     numThreads_result s = 3%Z /\
     length (workers s) = Z.to_nat 3 /\
     log s = [EvResized 3]).
Proof.
  apply (C10_constructor_unsigned_to_int 3 [NumThreads]).
  unfold is_unsigned. lia.
Defined.

(** The two sides of the boundary, run. *)
Example constructor_at_boundary :
  caller (solo 1 (ThreadPool (2 ^ 31) [])) = CThrown /\
  numThreads_result (solo 7 (ThreadPool 2 [])) = 2%Z.
Proof. split; vm_compute; reflexivity. Qed.

(** ** Order of execution *)

Lemma held_insert_same W w pc0 pc1 :
  W !! w = Some pc0 -> worker_unfinished pc0 = worker_unfinished pc1 ->
  held (<[w:=pc1]> W) = held W.
Proof.
  unfold held. revert w. induction W as [|pc W IH]; intros [|w] H0 He;
    simplify_eq/=; [by rewrite He|].
  by rewrite (IH _ H0 He).
Qed.

Lemma held_spawned W : held (W ++ [WStart]) = held W.
Proof. unfold held. rewrite omap_app. simpl. by rewrite app_nil_r. Qed.

Lemma held_none W :
  (forall w pc, W !! w = Some pc -> worker_unfinished pc = None) ->
  held W = [].
Proof.
  unfold held. induction W as [|pc W IH]; intros H; [done|]. simpl.
  rewrite (H 0 pc eq_refl). apply IH. intros w pc' Hw. by apply (H (S w)).
Qed.

Lemma held_only W w pc :
  W !! w = Some pc ->
  (forall w' pc', W !! w' = Some pc' -> w' <> w -> worker_unfinished pc' = None) ->
  held W = option_list (worker_unfinished pc).
Proof.
  unfold held. revert w. induction W as [|pc0 W IH]; intros [|w] Hw H;
    simplify_eq/=.
  - assert (Hn : held W = []).
    { apply held_none. intros w pc' Hw. by apply (H (S w)). }
    unfold held in Hn. rewrite Hn. by destruct (worker_unfinished pc).
  - rewrite (H 0 pc0 eq_refl) by done.
    apply (IH w); [done|]. intros w' pc' Hw' Hne. apply (H (S w')); [done|lia].
Qed.

(** With at most one listed thread, the worker that moves is the only
    one that has not exited. *)
Lemma others_exited s w pc0 :
  WorkerInv s -> length (threads (pool s)) <= 1 ->
  workers s !! w = Some pc0 -> pc0 <> WExited ->
  forall w' pc', workers s !! w' = Some pc' -> w' <> w -> pc' = WExited.
Proof.
  intros [Wl _] Hlen Hw Hne w' pc' Hw' Hneq.
  destruct (decide (pc' = WExited)) as [|Hne']; [done|].
  pose proof (Wl _ _ Hw Hne) as H1. pose proof (Wl _ _ Hw' Hne') as H2.
  destruct (threads (pool s)) as [|a [|b l]]; simpl in Hlen; [|..|lia].
  - by apply elem_of_nil in H1.
  - apply list_elem_of_singleton in H1, H2. congruence.
Qed.

Lemma held_at_worker s w pc0 pc1 :
  WorkerInv s -> length (threads (pool s)) <= 1 ->
  workers s !! w = Some pc0 -> pc0 <> WExited ->
  held (workers s) = option_list (worker_unfinished pc0) /\
  held (<[w:=pc1]> (workers s)) = option_list (worker_unfinished pc1).
Proof.
  intros HW Hlen Hw Hne.
  pose proof (others_exited s w pc0 HW Hlen Hw Hne) as Ho.
  split.
  - apply (held_only _ w); [done|]. intros w' pc' Hw' Hneq.
    by rewrite (Ho _ _ Hw' Hneq).
  - apply (held_only _ w).
    + apply list_lookup_insert_eq. by eapply lookup_lt_Some.
    + intros w' pc' Hw' Hneq. rewrite list_lookup_insert_ne in Hw' by done.
      by rewrite (Ho _ _ Hw' Hneq).
Qed.

(** A pool without threads holds no task. *)
Lemma no_threads_idle s :
  WorkerInv s -> StopInv s -> threads (pool s) = [] ->
  tasks (pool s) = [] /\ held (workers s) = [] /\
  forall t, ~ exists w, workers s !! w = Some (WExecuting t).
Proof.
  intros [Wl _] [_ _ _ Sn _ _] Hth.
  assert (Hex : forall w pc, workers s !! w = Some pc -> pc = WExited).
  { intros w pc Hw. destruct (decide (pc = WExited)) as [|Hne]; [done|].
    specialize (Wl _ _ Hw Hne). rewrite Hth in Wl. by apply elem_of_nil in Wl. }
  split; [by apply Sn|]. split.
  - apply held_none. intros w pc Hw. by rewrite (Hex _ _ Hw).
  - intros t [w Hw]. by specialize (Hex _ _ Hw).
Qed.

Lemma begun_cons t e l : begun t l -> begun t (e :: l).
Proof. intros [x Hx]. exists x. by right. Qed.

Lemma begun_cons_inv t e l :
  begun t (e :: l) -> (exists x, e = EvExecBegin x t) \/ begun t l.
Proof.
  intros [x Hx]. apply elem_of_cons in Hx as [Hx|Hx]; [left|right]; by exists x.
Qed.

Lemma OrderInv_step s x s' :
  Inv s -> OrderInv s -> step x s = Some s' -> OrderInv s'.
Proof.
  intros [_ [Cq Ct] HW HS _] [Op Oc Ot (fin & Os & Od & Ob)] H.
  pose proof (no_threads_idle s HW HS) as Hidle.
  pose proof (inline_nothreads s HS) as Hinl.
  pose proof (held_at_worker s) as Hheld.
  pose proof (clear_empty s) as Hclear.
  step_inv H.
  all: try match goal with k : FinishCont |- _ => destruct k end.
  all: try match goal with
       | Hw : workers _ !! ?w = Some ?pc0 |- context [at_worker ?w ?pc1 _] =>
           destruct (Hheld w pc0 pc1 HW Ot Hw ltac:(done)) as [Hh Hh'];
           rewrite Hh in Os; simpl in Os
       end.
  all: clear Hheld.
  all: try (specialize (Hclear _ HW HS eq_refl)).
  all: unfold running in *; rewrite ?Hpc in *; simpl in *.
  all: try (apply Forall_cons in Op as [Oc0 Op]; simpl in Oc0).
  all: unfold spawn_worker; constructor; unfold running; simpl;
    rewrite ?Hpc; simpl; try done.
  (* the count of the call in progress *)
  all: try (intros ? [= <-];
            first [ by apply Oc
                  | match goal with E : (_ <? 0)%Z = false |- _ =>
                      apply Z.ltb_ge in E end; lia ]).
  all: try lia.
  all: try (rewrite Hclear in *).
  (* the thread list *)
  all: try (rewrite length_app; simpl; specialize (Oc _ eq_refl);
            rewrite size_t_of_int_id in * by (unfold INT_MAX; lia);
            apply Z.ltb_lt in H0; lia).
  (* steps that finish no task *)
  all: try (exists fin; split;
            [ rewrite ?held_spawned, ?Hh'; simpl; rewrite ?app_nil_r in *;
              first [ done | by rewrite Os, <- ?app_assoc ] |];
            split; [intros t' Ht'; repeat apply executed_cons; by apply Od|];
            intros t' Hb;
            repeat (apply begun_cons_inv in Hb as [[x' Hx']|Hb]; [simplify_eq/=|]);
            try (right; first [ by left | right; eexists;
                                apply list_lookup_insert_eq;
                                by eapply lookup_lt_Some ]);
            destruct (Ob _ Hb) as [Hf|[Hr|[w' Hr]]]; [by left|simplify_eq/=|];
            try (right; by left);
            first [ right; right; by exists w'
                  | right; right; exists w'; by apply lookup_app_l_Some
                  | right; right; exists w';
                    rewrite list_lookup_insert_ne; [done|congruence] ]).
  - (* the calling thread returns from execute () *)
    destruct (Hidle (Hinl eq_refl)) as (Hq & Hh & Hno).
    rewrite Hq, Hh in *. simpl in Os.
    exists (fin ++ [t]). split; [by rewrite !app_nil_r|]. split.
    + intros t0 [Ht0|Ht0]%elem_of_app.
      * apply executed_cons. by apply Od.
      * apply list_elem_of_singleton in Ht0 as ->. exists Caller. by left.
    + intros t0 [[x' Hx']|Hb]%begun_cons_inv; [done|].
      destruct (Ob _ Hb) as [Hf|[Hr|Hr]].
      * left. apply elem_of_app. by left.
      * left. apply elem_of_app. right. simplify_eq. by left.
      * by apply Hno in Hr.
  - (* a worker returns from execute () *)
    exists (fin ++ [t]). split; [|split].
    + rewrite Hh'. simpl. by rewrite Os, <- app_assoc.
    + intros t0 [Ht0|Ht0]%elem_of_app.
      * apply executed_cons. by apply Od.
      * apply list_elem_of_singleton in Ht0 as ->. exists (Worker w). by left.
    + intros t0 [[x' Hx']|Hb]%begun_cons_inv; [done|].
      destruct (Ob _ Hb) as [Hf|[Hr|[w' Hr]]].
      * left. apply elem_of_app. by left.
      * right. by left.
      * destruct (decide (w' = w)) as [->|Hne].
        -- left. apply elem_of_app. right. simplify_eq. by left.
        -- right. right. exists w'. by rewrite list_lookup_insert_ne.
Qed.

Lemma OrderInv_init nthreads prog :
  (0 <= nthreads <= 1)%Z -> Forall single_thread prog ->
  OrderInv (ThreadPool nthreads prog).
Proof.
  intros Hn Hp. constructor; simpl; try done; [|lia|].
  - constructor; [|done]. simpl. unfold int_of_unsigned.
    rewrite wrap_int_id; [lia|]. unfold is_int, INT_MIN, INT_MAX. lia.
  - exists []. split; [done|]. split.
    + intros t Ht. by apply elem_of_nil in Ht.
    + intros t [x Hx]. by apply elem_of_nil in Hx.
Qed.

Lemma OrderInv_run nthreads prog sched :
  (0 <= nthreads <= 1)%Z -> Forall single_thread prog ->
  OrderInv (run sched (ThreadPool nthreads prog)).
Proof.
  intros Hn Hp.
  refine (proj2 (run_invariant (fun s => Inv s /\ OrderInv s) _ sched _ _)).
  - intros s x s' [HI HO] H. split; [by eapply Inv_step|by eapply OrderInv_step].
  - split; [apply Inv_init|by apply OrderInv_init].
Qed.

(** The tasks submitted and the tasks still to submit are the program's. *)
Lemma submitted_step s x s' :
  step x s = Some s' ->
  submitted (log s') ++ prog_tasks (program s') =
  submitted (log s) ++ prog_tasks (program s).
Proof.
  intros H. step_inv H; simpl; try done.
  all: try match goal with E : program _ = _ |- _ => rewrite E end; simpl; try done.
  by rewrite <- app_assoc.
Qed.

Lemma submitted_run nthreads prog sched :
  let s := run sched (ThreadPool nthreads prog) in
  submitted (log s) ++ prog_tasks (program s) = prog_tasks prog.
Proof.
  refine (run_invariant
    (fun s => submitted (log s) ++ prog_tasks (program s) = prog_tasks prog)
    _ sched _ _).
  - intros s x s' Hs H. by rewrite (submitted_step _ _ _ H).
  - done.
Qed.

(** In a list without duplicates, what comes before [b] is what stands
    before its only occurrence. *)
Lemma before_unique {A} (l d r l1 l2 l3 : list A) (a b : A) :
  NoDup l -> l = d ++ b :: r -> l = l1 ++ a :: l2 ++ b :: l3 -> a ∈ d.
Proof.
  intros Hnd Hd Hl.
  assert (Hlen : length d = length (l1 ++ a :: l2)).
  { eapply (NoDup_lookup l _ _ b); [done| |].
    - rewrite Hd. apply list_lookup_middle. done.
    - rewrite Hl. replace (l1 ++ a :: l2 ++ b :: l3) with ((l1 ++ a :: l2) ++ b :: l3)
        by (by rewrite <- app_assoc).
      apply list_lookup_middle. done. }
  assert (Hd' : d = l1 ++ a :: l2).
  { rewrite Hd in Hl.
    replace (l1 ++ a :: l2 ++ b :: l3) with ((l1 ++ a :: l2) ++ b :: l3) in Hl
      by (by rewrite <- app_assoc).
    by apply app_inj_1 in Hl as [? _]. }
  rewrite Hd'. apply elem_of_app. right. by left.
Qed.

(** At the call of [execute ()], the tasks submitted earlier have
    returned from theirs. *)
Lemma predecessors_executed s b :
  WorkerInv s -> StopInv s -> OrderInv s -> NoDup (submitted (log s)) ->
  caller s = AT_Execute b \/ (exists w, workers s !! w = Some (WExecute b)) ->
  forall a, submitted_before a b (log s) -> executed a (log s).
Proof.
  intros HW HS [_ _ Ot (fin & Os & Od & Ob)] Hnd Hb a (l1 & l2 & l3 & Hl).
  apply Od. destruct Hb as [Hr|[w Hr]].
  - destruct (no_threads_idle s HW HS) as (Hq & Hh & _).
    { apply (inline_nothreads _ HS). by rewrite Hr. }
    rewrite Hq, Hh, Hr in Os. simpl in Os.
    by eapply (before_unique _ fin [] l1 l2 l3 a b Hnd).
  - destruct (held_at_worker s w (WExecute b) (WExecute b) HW Ot Hr)
      as [Hh _]; [done|].
    rewrite Hh in Os. simpl in Os.
    by eapply (before_unique _ fin _ l1 l2 l3 a b Hnd).
Qed.

Lemma begins_step s x s' :
  Inv s -> OrderInv s -> NoDup (submitted (log s)) ->
  HistInv begins_in_order s ->
  step x s = Some s' -> HistInv begins_in_order s'.
Proof.
  intros [_ _ HW HS _] HO Hnd HH H.
  pose proof (predecessors_executed s) as Hpre.
  step_inv H.
  all: hist_step.
  - eapply Hpre; eauto.
  - eapply Hpre; eauto.
Qed.

Lemma begins_run nthreads prog sched :
  (0 <= nthreads <= 1)%Z -> Forall single_thread prog ->
  NoDup (prog_tasks prog) ->
  HistInv begins_in_order (run sched (ThreadPool nthreads prog)).
Proof.
  intros Hn Hp Hnd.
  refine (proj2 (run_invariant
    (fun s => (Inv s /\ OrderInv s /\
               submitted (log s) ++ prog_tasks (program s) = prog_tasks prog) /\
              HistInv begins_in_order s) _ sched _ _)).
  - intros s x s' [(HI & HO & Hs) HH] H. split; [split; [|split]|].
    + by eapply Inv_step.
    + by eapply OrderInv_step.
    + by rewrite (submitted_step _ _ _ H).
    + eapply begins_step; eauto.
      rewrite <- Hs in Hnd. by apply NoDup_app in Hnd as [? _].
  - split; [split; [|split]|].
    + apply Inv_init.
    + by apply OrderInv_init.
    + done.
    + by apply HistInv_nil.
Qed.

(** C6: on a pool that never has more than one worker thread, along
    every schedule, (a) if task [a] was given to [addTask] before task
    [b] and [b]'s [execute ()] has begun, then [a]'s [execute ()] has
    returned; (b) at every entry into a task's [execute ()] the log
    records, the [execute ()] of every task submitted before it had
    already returned: execution follows submission, one task at a time. *)
Theorem C6_single_worker_fifo nthreads prog sched (a b : Task) :
  (0 <= nthreads <= 1)%Z ->
  Forall single_thread prog ->
  NoDup (prog_tasks prog) ->
  let s := run sched (ThreadPool nthreads prog) in
  (submitted_before a b (log s) -> begun b (log s) -> executed a (log s)) /\
  HistInv begins_in_order s.
Proof.
  intros Hn Hp Hnd s. split; [|by apply begins_run].
  intros (l1 & l2 & l3 & Hl) Hb.
  pose proof (Inv_run nthreads prog sched) as [_ _ HW HS _].
  pose proof (OrderInv_run nthreads prog sched Hn Hp)
    as [_ _ Ot (fin & Os & Od & Ob)].
  pose proof (submitted_run nthreads prog sched) as Hsub.
  fold s in HW, HS, Ot, Os, Od, Ob, Hsub.
  assert (Hnd' : NoDup (submitted (log s))).
  { cbv zeta in Hsub. rewrite <- Hsub in Hnd. by apply NoDup_app in Hnd as [? _]. }
  apply Od.
  destruct (Ob _ Hb) as [Hf|[Hr|[w Hr]]].
  - (* b has returned as well *)
    apply list_elem_of_split in Hf as (d1 & d2 & Hf).
    assert (Ha : a ∈ d1).
    { eapply (before_unique _ d1 _ l1 l2 l3 a b Hnd'); [|done].
      rewrite Os, Hf, <- app_assoc. done. }
    rewrite Hf. apply elem_of_app. by left.
  - (* b is running on the calling thread *)
    destruct (no_threads_idle s HW HS) as (Hq & Hh & _).
    { apply (inline_nothreads _ HS). by rewrite Hr. }
    rewrite Hq, Hh, Hr in Os. simpl in Os.
    by eapply (before_unique _ fin [] l1 l2 l3 a b Hnd').
  - (* b is running on the worker *)
    destruct (held_at_worker s w (WExecuting b) (WExecuting b) HW Ot Hr)
      as [Hh _]; [done|].
    rewrite Hh in Os. simpl in Os.
    by eapply (before_unique _ fin _ l1 l2 l3 a b Hnd').
Qed.

Lemma C6_single_worker_fifo_witness :
  executed Scenario.t0 (log Scenario.fifo_run) /\
  HistInv begins_in_order Scenario.fifo_run.
Proof.
  destruct (C6_single_worker_fifo 1 Scenario.fifo_program
              Scenario.fifo_schedule Scenario.t0 Scenario.t1) as [Ha Hb].
  - lia.
  - unfold Scenario.fifo_program. repeat constructor.
  - refine (bool_decide_unpack _ _); vm_compute; exact I.
  - split; [|exact Hb]. apply Ha.
    + exists [], [], []. vm_compute. reflexivity.
    + exists (Worker 0). refine (bool_decide_unpack _ _); vm_compute; exact I.
Defined.

(** The run of two tasks on one worker. *)
Example fifo_run_result :
  caller Scenario.fifo_run = CReady /\ program Scenario.fifo_run = [] /\
  omap (fun e => match e with
                 | EvExecBegin _ _ | EvExecEnd _ _ => Some e
                 | _ => None
                 end) (rev (log Scenario.fifo_run)) =
    [EvExecBegin (Worker 0) Scenario.t0; EvExecEnd (Worker 0) Scenario.t0;
     EvExecBegin (Worker 0) Scenario.t1; EvExecEnd (Worker 0) Scenario.t1].
Proof. repeat split; vm_compute; reflexivity. Qed.

(** * Further properties: proofs *)

(** ** Sequences of calls on a task group *)

Section GroupCalls.
Local Open Scope Z_scope.

Lemma group_call_matches o d :
  gate_matches d -> INT_MIN < numPending d < INT_MAX ->
  exists d', group_call o d = Some d' /\ gate_matches d' /\
    numPending d' = numPending d + op_delta o.
Proof.
  unfold gate_matches, gate_at, INT_MIN, INT_MAX. intros Hg Hr.
  destruct o; simpl; unfold TaskGroup.addTask, TaskGroup.removeTask.
  - rewrite wrap_int_id by (unfold is_int, INT_MIN, INT_MAX; lia).
    destruct (Z.eqb_spec (numPending d) 0) as [E|E].
    + rewrite Hg, E. simpl. eexists. split; [reflexivity|]. simpl. done.
    + eexists. split; [reflexivity|]. simpl. split; [|done]. rewrite Hg.
      destruct (Z.ltb_spec 0 (numPending d)), (Z.ltb_spec 0 (numPending d + 1));
        first [done|lia].
  - rewrite wrap_int_id by (unfold is_int, INT_MIN, INT_MAX; lia).
    eexists. split; [reflexivity|].
    destruct (Z.eqb_spec (numPending d - 1) 0) as [E|E]; simpl.
    + split; [|done]. rewrite E, Hg. simpl.
      destruct (Z.ltb_spec 0 (numPending d)); [done|lia].
    + split; [|done]. rewrite Hg.
      destruct (Z.ltb_spec 0 (numPending d)), (Z.ltb_spec 0 (numPending d - 1));
        first [done|lia].
Qed.

Lemma group_calls_matches ops : forall d,
  gate_matches d ->
  INT_MIN + Z.of_nat (length ops) <= numPending d <= INT_MAX - Z.of_nat (length ops) ->
  exists d', group_calls ops d = Some d' /\ gate_matches d' /\
    numPending d' = numPending d + ops_delta ops.
Proof.
  induction ops as [|o ops IH]; intros d Hg Hr; simpl.
  - exists d. split; [done|]. split; [done|lia].
  - simpl in Hr.
    destruct (group_call_matches o d Hg) as (d1 & H1 & Hg1 & Hn1); [lia|].
    rewrite H1. simpl.
    destruct (IH d1 Hg1) as (d' & H' & Hg' & Hn').
    { rewrite Hn1. destruct o; simpl; lia. }
    exists d'. split; [done|]. split; [done|]. lia.
Qed.

(** X1: any sequence of [addTask] and [removeTask] calls on a new group,
    matched or not, runs without blocking as long as the [int] count
    cannot overflow; the count is the number of [addTask] calls less the
    number of [removeTask] calls, and the semaphore is 0 exactly at a
    positive count. *)
Theorem group_calls_never_block (ops : list GroupOp) :
  Z.of_nat (length ops) <= INT_MAX ->
  exists d, group_calls ops TaskGroup.Data = Some d /\
    numPending d = ops_delta ops /\
    isEmpty d = gate_at (ops_delta ops).
Proof.
  intros Hlen.
  destruct (group_calls_matches ops TaskGroup.Data) as (d & H & Hg & Hn).
  - done.
  - simpl. unfold INT_MIN, INT_MAX in *. lia.
  - exists d. split; [done|]. simpl in Hn. split; [done|].
    unfold gate_matches in Hg. by rewrite Hn in Hg.
Qed.

Lemma group_calls_never_block_witness :
  exists d, group_calls [OpRemove; OpAdd; OpAdd; OpRemove] TaskGroup.Data = Some d /\
    numPending d = ops_delta [OpRemove; OpAdd; OpAdd; OpRemove] /\
    isEmpty d = gate_at (ops_delta [OpRemove; OpAdd; OpAdd; OpRemove]).
Proof.
  apply (group_calls_never_block [OpRemove; OpAdd; OpAdd; OpRemove]).
  unfold INT_MAX. simpl. lia.
Defined.

(** X2: [addTask] followed by [removeTask] gives back the group as it was,
    and so does [removeTask] followed by [addTask]. *)
Theorem addTask_removeTask_round_trip (d : TaskGroupData) :
  gate_matches d -> INT_MIN < numPending d < INT_MAX ->
  (exists d', TaskGroup.addTask d = Some d' /\ TaskGroup.removeTask d' = d) /\
  TaskGroup.addTask (TaskGroup.removeTask d) = Some d.
Proof.
  unfold gate_matches, gate_at, INT_MIN, INT_MAX. intros Hg Hr. destruct d as [e n].
  simpl in *. unfold TaskGroup.addTask, TaskGroup.removeTask. simpl.
  rewrite !wrap_int_id by (unfold is_int, INT_MIN, INT_MAX; lia).
  split.
  - destruct (Z.eqb_spec n 0) as [E|E].
    + subst. simpl. eexists. split; [reflexivity|]. simpl. done.
    + eexists. split; [reflexivity|]. simpl.
      rewrite wrap_int_id by (unfold is_int, INT_MIN, INT_MAX; lia).
      destruct (Z.eqb_spec (n + 1 - 1) 0) as [E'|E']; [exfalso; lia|]. f_equal. lia.
  - destruct (Z.eqb_spec (n - 1) 0) as [E|E]; simpl.
    + rewrite wrap_int_id by (unfold is_int, INT_MIN, INT_MAX; lia).
      rewrite E. simpl. assert (n = 1) as -> by lia. simpl in Hg. subst. done.
    + rewrite wrap_int_id by (unfold is_int, INT_MIN, INT_MAX; lia).
      destruct (Z.eqb_spec (n - 1) 0) as [E'|E']; [exfalso; lia|].
      do 2 f_equal. lia.
Qed.

Lemma addTask_removeTask_round_trip_witness :
  (exists d', TaskGroup.addTask Scenario.busy_group = Some d' /\
     TaskGroup.removeTask d' = Scenario.busy_group) /\
  TaskGroup.addTask (TaskGroup.removeTask Scenario.busy_group) =
    Some Scenario.busy_group.
Proof.
  apply (addTask_removeTask_round_trip Scenario.busy_group).
  - reflexivity.
  - unfold INT_MIN, INT_MAX. simpl. lia.
Defined.
End GroupCalls.

(** ** Locks, counters and destruction *)

Lemma worker_holds_at W w pc :
  W !! w = Some pc -> worker_holds W w = worker_holds_task pc.
Proof. unfold worker_holds. by intros ->. Qed.

(** X3: along every schedule: (a) at most one worker is at a statement of
    [run ()] between taking and releasing [taskMutex]; (b) no worker is
    there while the calling thread is at a statement of [addTask] or
    [finish ()] that runs under [taskMutex]; (c) the calling thread holds
    [taskMutex] only while it holds [threadMutex]; (d) a worker never
    holds [threadMutex]; (e) between calls, and after an exception or
    the destructor, the calling thread holds no mutex at all. *)
Theorem mutual_exclusion nthreads prog sched :
  let s := run sched (ThreadPool nthreads prog) in
  (forall w1 w2 pc1 pc2,
     workers s !! w1 = Some pc1 -> workers s !! w2 = Some pc2 ->
     worker_holds_task pc1 = true -> worker_holds_task pc2 = true ->
     w1 = w2) /\
  (forall w pc,
     workers s !! w = Some pc -> worker_holds_task pc = true ->
     caller_holds_task (caller s) = false) /\
  (taskMutex (pool s) = Some Caller -> threadMutex (pool s) = Some Caller) /\
  (forall w, threadMutex (pool s) <> Some (Worker w)) /\
  (caller_outside (caller s) = true -> locks_held Caller s = []).
Proof.
  intros s. pose proof (inv_lock _ (Inv_run nthreads prog sched)) as [Lt Ls Lc Lk].
  fold s in Lt, Ls, Lc, Lk.
  split; [|split; [|split; [|split]]].
  - intros w1 w2 pc1 pc2 H1 H2 Hh1 Hh2.
    assert (E1 : taskMutex (pool s) = Some (Worker w1)).
    { apply Lk. by rewrite (worker_holds_at _ _ _ H1). }
    assert (E2 : taskMutex (pool s) = Some (Worker w2)).
    { apply Lk. by rewrite (worker_holds_at _ _ _ H2). }
    congruence.
  - intros w pc H1 Hh1.
    assert (E1 : taskMutex (pool s) = Some (Worker w)).
    { apply Lk. by rewrite (worker_holds_at _ _ _ H1). }
    apply not_true_is_false. intros E. apply Lc in E. congruence.
  - intros E. apply Lc in E. rewrite Lt.
    destruct (caller s); simpl in *; done.
  - intros w. rewrite Lt. by destruct (caller_holds_thread (caller s)).
  - intros Ho. unfold locks_held.
    rewrite Lt, Ls.
    destruct (decide (taskMutex (pool s) = Some Caller)) as [E|E].
    { apply Lc in E. destruct (caller s); simpl in *; done. }
    destruct (caller s); simpl in *; done.
Qed.

(** X4: along every schedule, [numTasks] is the length of the task list and
    [numThreads] the length of the thread list; so a worker that finds
    [numTasks > 0] finds a first element to pop, and its statement runs. *)
Theorem counters_are_list_sizes nthreads prog sched :
  let s := run sched (ThreadPool nthreads prog) in
  numTasks (pool s) = Z.of_nat (length (tasks (pool s))) /\
  numThreads (pool s) = Z.of_nat (length (threads (pool s))) /\
  (forall w, workers s !! w = Some WCheck -> (0 < numTasks (pool s))%Z ->
     exists t q, tasks (pool s) = t :: q /\
       step (Worker w) s =
         Some (at_worker w (WRelease t)
                 (with_pool (set_numTasks (Z.of_nat (length q)) (set_tasks q (pool s))) s))).
Proof.
  intros s. pose proof (inv_count _ (Inv_run nthreads prog sched)) as [Cq Ct].
  fold s in Cq, Ct. split; [done|]. split; [done|].
  intros w Hw Hpos. destruct (tasks (pool s)) as [|t q] eqn:E.
  { rewrite Cq in Hpos. simpl in Hpos. lia. }
  exists t, q. split; [done|]. simpl. unfold WorkerThread_run.
  rewrite Hw. simpl. destruct (Z.ltb_spec 0 (numTasks (pool s))); [|lia].
  rewrite E. do 4 f_equal. rewrite Cq. simpl. lia.
Qed.

(** X5: when [~ThreadPool] has returned: every worker thread the pool ever
    created has left [run ()]; the queue and the thread list are empty,
    the counters zero, the stopping flag reset and the three mutexes
    free; every task ever given to [addTask] has been executed and
    deleted; and no thread can run a statement of the pool any more. *)
Theorem destructor_postcondition nthreads prog sched :
  let s := run sched (ThreadPool nthreads prog) in
  caller s = CDestroyed ->
  (forall w pc, workers s !! w = Some pc -> pc = WExited) /\
  tasks (pool s) = [] /\ threads (pool s) = [] /\
  numTasks (pool s) = 0%Z /\ numThreads (pool s) = 0%Z /\
  stopping (pool s) = false /\
  taskMutex (pool s) = None /\ threadMutex (pool s) = None /\
  stopMutex (pool s) = None /\
  (forall t, EvSubmit t ∈ log s -> completed t (log s)) /\
  (forall x, step x s = None).
Proof.
  intros s Hpc.
  pose proof (Inv_run nthreads prog sched) as HI.
  pose proof (ClearedInv_run nthreads prog sched) as HC.
  fold s in HI, HC. destruct (HC ltac:(by rewrite Hpc)) as [Hth Hq].
  destruct HI as [[Lt Ls Lc Lk] [Cq Ct] [Wl Wj] [Sf Sl Ss Sn Sq Si] HT].
  assert (Hex : forall w pc, workers s !! w = Some pc -> pc = WExited).
  { intros w pc Hw. destruct (decide (pc = WExited)) as [|Hne]; [done|].
    specialize (Wl _ _ Hw Hne). rewrite Hth in Wl. by apply elem_of_nil in Wl. }
  rewrite Hpc in *. simpl in *.
  split; [done|]. split; [done|]. split; [done|].
  split; [by rewrite Cq, Hq|]. split; [by rewrite Ct, Hth|].
  split; [done|]. split; [|split; [done|split; [done|split]]].
  - destruct (taskMutex (pool s)) as [[|w]|] eqn:E; [| |done].
    + destruct Lc as [Lc _]. by specialize (Lc eq_refl).
    + destruct (Lk w) as [Lw _]. specialize (Lw eq_refl).
      unfold worker_holds in Lw.
      destruct (workers s !! w) as [pc|] eqn:Hw; [|done].
      rewrite (Hex _ _ Hw) in Lw. done.
  - intros t Hin.
    destruct (idle_pool_completed s t (Inv_run nthreads prog sched) Hth Hin)
      as [H|H]; [|done].
    by rewrite Hpc in H.
  - intros [|w]; simpl.
    + unfold caller_step. by rewrite Hpc.
    + unfold WorkerThread_run. destruct (workers s !! w) as [pc|] eqn:Hw; [|done].
      by rewrite (Hex _ _ Hw).
Qed.

Lemma destructor_postcondition_witness :
  let s := Runs.destroy_run in
  (forall w pc, workers s !! w = Some pc -> pc = WExited) /\
  tasks (pool s) = [] /\ threads (pool s) = [] /\
  numTasks (pool s) = 0%Z /\ numThreads (pool s) = 0%Z /\
  stopping (pool s) = false /\
  taskMutex (pool s) = None /\ threadMutex (pool s) = None /\
  stopMutex (pool s) = None /\
  (forall t, EvSubmit t ∈ log s -> completed t (log s)) /\
  (forall x, step x s = None).
Proof.
  apply (destructor_postcondition 2 Runs.destroy_program (rounds 60 2)).
  vm_compute. reflexivity.
Defined.

(** ** Groups and their tasks *)

Lemma sum_list_with_elem {A} (f : A -> nat) (l : list A) x :
  x ∈ l -> f x <= sum_list_with f l.
Proof.
  induction 1 as [x l|x y l _ IH]; simpl; lia.
Qed.

Lemma sum_list_with_lookup {A} (f : A -> nat) (l : list A) i x :
  l !! i = Some x -> f x <= sum_list_with f l.
Proof. intros H. apply sum_list_with_elem. by eapply list_elem_of_lookup_2. Qed.

(** A task that is queued or held by a worker counts in its group. *)
Lemma pending_task s t :
  t ∈ tasks (pool s) \/ worker_has (workers s) t -> 1 <= pending (group t) s.
Proof.
  unfold pending. intros [H|(w & pc & Hw & Ht)].
  - pose proof (sum_list_with_elem (task_in (group t)) _ _ H) as Hle.
    rewrite task_in_same in Hle. lia.
  - pose proof (sum_list_with_lookup (worker_pending (group t)) _ _ _ Hw) as Hle.
    unfold worker_pending in Hle at 1. rewrite Ht in Hle. simpl in Hle.
    rewrite task_in_same in Hle. lia.
Qed.

(** X6: along every schedule of a program that submits fewer than 2^31
    tasks: (a) the count of every live group is the number of its tasks
    that are in the queue or held by a worker, and the group invariant
    holds; (b) the group of a task that is in the queue or held by a
    worker is alive, with a positive count: [~TaskGroup] has not returned
    for it; (c) so the [removeTask] a worker calls after [execute ()]
    always finds its group, and the statement runs; (d) and once no task
    of a group is in the queue or held by a worker, [~TaskGroup] returns
    without waiting. *)
Theorem groups_outlive_their_tasks nthreads prog sched :
  (Z.of_nat (adds prog) <= INT_MAX)%Z ->
  let s := run sched (ThreadPool nthreads prog) in
  (forall g d, groups s !! g = Some d ->
     numPending d = Z.of_nat (pending g s) /\ TaskGroup.inv d) /\
  (forall t, t ∈ tasks (pool s) \/ worker_has (workers s) t ->
     exists d, groups s !! group t = Some d /\ (0 < numPending d)%Z) /\
  (forall w t, workers s !! w = Some (WRetire t) ->
     exists d, groups s !! group t = Some d /\
       step (Worker w) s =
         Some (at_worker w WUnlock
                 (record (EvGroupRemove (group t))
                    (record (EvDelete t)
                       (with_groups (<[group t := TaskGroup.removeTask d]> (groups s)) s))))) /\
  (forall g d, caller s = TG_Wait g -> groups s !! g = Some d ->
     pending g s = 0 ->
     step Caller s =
       Some (at_caller CReady
               (record (EvDrained g) (with_groups (delete g (groups s)) s)))).
Proof.
  intros Hb s.
  pose proof (BoundedInv_run nthreads prog sched Hb) as [HI [Gc Ga] HB].
  fold s in HI, Gc, Ga, HB.
  assert (Halive : forall t, t ∈ tasks (pool s) \/ worker_has (workers s) t ->
            exists d, groups s !! group t = Some d /\ (0 < numPending d)%Z).
  { intros t Ht. apply pending_task in Ht.
    destruct (groups s !! group t) as [d|] eqn:Hg.
    - exists d. split; [done|]. destruct (Gc _ _ Hg) as [-> _]. lia.
    - rewrite (Ga _ Hg) in Ht. lia. }
  split; [|split; [done|split]].
  - intros g d Hg. destruct (Gc _ _ Hg) as [Gn Ge]. split; [done|].
    pose proof (pending_le_load g s) as Hle.
    unfold TaskGroup.inv, TaskGroup.gate_open. rewrite Gn, Ge. unfold gate_of.
    split; [lia|]. case_decide; split; try lia.
  - intros w t Hw. destruct (Halive t) as (d & Hg & _).
    { right. by exists w, (WRetire t). }
    exists d. split; [done|]. simpl. unfold WorkerThread_run.
    rewrite Hw. simpl. rewrite Hg. done.
  - intros g d Hpc Hg Hz. destruct (Gc _ _ Hg) as [_ Ge].
    simpl. unfold_caller. rewrite Hpc. simpl. rewrite Hg. simpl.
    unfold TaskGroup.drain. by rewrite Ge, Hz.
Qed.

Lemma groups_outlive_their_tasks_witness :
  let s := Scenario.shrink_run in
  (forall g d, groups s !! g = Some d ->
     numPending d = Z.of_nat (pending g s) /\ TaskGroup.inv d) /\
  (forall t, t ∈ tasks (pool s) \/ worker_has (workers s) t ->
     exists d, groups s !! group t = Some d /\ (0 < numPending d)%Z) /\
  (forall w t, workers s !! w = Some (WRetire t) ->
     exists d, groups s !! group t = Some d /\
       step (Worker w) s =
         Some (at_worker w WUnlock
                 (record (EvGroupRemove (group t))
                    (record (EvDelete t)
                       (with_groups (<[group t := TaskGroup.removeTask d]> (groups s)) s))))) /\
  (forall g d, caller s = TG_Wait g -> groups s !! g = Some d ->
     pending g s = 0 ->
     step Caller s =
       Some (at_caller CReady
               (record (EvDrained g) (with_groups (delete g (groups s)) s)))).
Proof.
  apply (groups_outlive_their_tasks 4 Scenario.shrink_program
           Scenario.shrink_schedule).
  vm_compute. discriminate.
Defined.

(** ** The life of a task *)

Lemma is_task_same t : is_task t t = 1.
Proof. unfold is_task. by rewrite decide_True. Qed.

Lemma OnceInv_init nthreads prog :
  OnceInv prog (ThreadPool nthreads prog).
Proof.
  constructor; simpl; try done.
  intros u. unfold unbegun, in_stage. simpl. lia.
Qed.

Lemma OnceInv_step prog s x s' :
  WorkerInv s -> StopInv s -> OnceInv prog s ->
  step x s = Some s' -> OnceInv prog s'.
Proof.
  intros HW HS [Ob Oe Od Oc Ow] H.
  pose proof (clear_empty s) as Hclear.
  unfold unbegun, in_stage in *.
  step_inv H.
  all: try match goal with k : FinishCont |- _ => destruct k end.
  all: try (specialize (Hclear _ HW HS eq_refl)).
  all: clear HW HS.
  all: rewrite ?Hpc in *; simpl in *.
  all: unfold spawn_worker; constructor; unfold unbegun, in_stage; simpl;
    rewrite ?Hpc; simpl.
  (* the threads inside execute () *)
  all: try (intros t0 [= <-]; by left).
  all: try (intros t0 Hx; first [do 2 right; by apply Oc | right; by apply Oc | by apply Oc | done]).
  all: try (intros w0 t0 Hx;
            first [ eapply lookup_at_worker in Hx as [[-> ?]|[? Hx]]; [| |eassumption]
                  | apply lookup_spawned in Hx as [Hx|[-> ?]]
                  | idtac ];
            simplify_eq/=;
            first [ by left | do 2 right; by eapply Ow | right; by eapply Ow | by eapply Ow ]).
  (* the counts *)
  all: intros u; specialize (Ob u); specialize (Oe u); specialize (Od u).
  all: rewrite ?sum_list_with_snoc, ?sum_list_with_app; simpl.
  all: try match goal with E : program _ = _ |- _ => rewrite E in *; simpl in * end.
  all: try match goal with E : tasks _ = _ |- _ => rewrite E in *; simpl in * end.
  all: try match goal with
       | Hw : workers _ !! ?w = Some ?pc0 |- context [<[?w:=?pc1]> ?W] =>
           pose proof (sum_list_with_insert
                         (fun pc => at_stage Unbegun u (worker_stage pc)) W w pc0 pc1 Hw);
           pose proof (sum_list_with_insert
                         (fun pc => at_stage Running u (worker_stage pc)) W w pc0 pc1 Hw);
           pose proof (sum_list_with_insert
                         (fun pc => at_stage Ended u (worker_stage pc)) W w pc0 pc1 Hw);
           simpl in *
       end.
  all: unfold is_task in *; repeat case_decide; simplify_eq/=; lia.
Qed.

Lemma is_task_NoDup u l : NoDup l -> sum_list_with (is_task u) l <= 1.
Proof.
  induction 1 as [|t l Hnin _ IH]; simpl; [lia|].
  unfold is_task at 1. case_decide as E; [|lia]. subst.
  assert (sum_list_with (is_task u) l = 0); [|lia].
  clear IH. induction l as [|t l IH]; simpl; [done|].
  apply not_elem_of_cons in Hnin as [Hne Hnin].
  unfold is_task at 1. rewrite decide_False by done. by rewrite IH.
Qed.

Lemma begun_count u l : begun u l -> 1 <= sum_list_with (is_begin u) l.
Proof.
  intros [x Hx]. apply (sum_list_with_in _ (is_begin u)) in Hx.
  simpl in Hx. by rewrite is_task_same in Hx.
Qed.

Lemma executed_count u l : executed u l -> 1 <= sum_list_with (is_end u) l.
Proof.
  intros [x Hx]. apply (sum_list_with_in _ (is_end u)) in Hx.
  simpl in Hx. by rewrite is_task_same in Hx.
Qed.

Lemma deleted_count u l : EvDelete u ∈ l -> 1 <= sum_list_with (is_delete u) l.
Proof.
  intros Hx. apply (sum_list_with_in _ (is_delete u)) in Hx.
  simpl in Hx. by rewrite is_task_same in Hx.
Qed.

Lemma in_stage_worker s w pc st u :
  workers s !! w = Some pc -> worker_stage pc = Some (st, u) ->
  1 <= in_stage st u s.
Proof.
  intros Hw Hst. unfold in_stage.
  apply list_elem_of_lookup_2 in Hw.
  apply (sum_list_with_in _ (fun pc => at_stage st u (worker_stage pc))) in Hw.
  rewrite Hst in Hw. simpl in Hw. rewrite decide_True, is_task_same in Hw by done.
  lia.
Qed.

Lemma in_stage_caller s st u :
  caller_stage (caller s) = Some (st, u) -> 1 <= in_stage st u s.
Proof.
  intros Hst. unfold in_stage. rewrite Hst. simpl.
  rewrite decide_True, is_task_same by done. lia.
Qed.

(** A task held by a thread has not gone further than that thread. *)
Lemma stage_log prog s u :
  OnceInv prog s -> NoDup (prog_tasks prog) ->
  (1 <= in_stage Unbegun u s -> ~ begun u (log s)) /\
  (1 <= in_stage Running u s -> ~ executed u (log s)) /\
  (1 <= in_stage Ended u s -> EvDelete u ∉ log s).
Proof.
  intros [Ob Oe Od _ _] Hnd.
  specialize (Ob u). specialize (Oe u). specialize (Od u).
  pose proof (is_task_NoDup u _ Hnd) as Hk. unfold unbegun in Ob.
  split; [|split]; intros Hst Hl.
  - apply begun_count in Hl. lia.
  - apply executed_count in Hl. lia.
  - apply deleted_count in Hl. lia.
Qed.

Lemma at_most_once_step prog s x s' :
  Inv s -> OnceInv prog s -> NoDup (prog_tasks prog) ->
  HistInv at_most_once s ->
  step x s = Some s' -> HistInv at_most_once s'.
Proof.
  intros [_ _ _ _ [_ Tw Tc _ _]] HO Hnd HH H.
  pose proof (fun u => stage_log prog s u HO Hnd) as Hst.
  pose proof (in_stage_worker s) as Hiw.
  pose proof (in_stage_caller s) as Hic.
  destruct HO as [_ _ _ Oc Ow].
  step_inv H.
  all: hist_step.
  - (* the calling thread enters execute () *)
    apply (Hst t). by apply Hic.
  - (* execute () returns to the calling thread *)
    split; [by apply Oc|]. apply (Hst t). by apply Hic.
  - (* the calling thread deletes the task *)
    split; [by apply Tc|]. apply (Hst t). by apply Hic.
  - (* a worker enters execute () *)
    apply (Hst t). by eapply Hiw.
  - (* execute () returns to the worker *)
    split; [by apply Ow|]. apply (Hst t). by eapply Hiw.
  - (* the worker deletes the task *)
    split; [eapply Tw; eauto|]. apply (Hst t). by eapply Hiw.
Qed.

(** X7: along every schedule of a program that gives each task to [addTask]
    once: a task's [execute ()] is called at most once; it returns to
    the thread that called it, once; the task is deleted only after its
    [execute ()] has returned, and only once. *)
Theorem tasks_run_at_most_once nthreads prog sched :
  NoDup (prog_tasks prog) ->
  HistInv at_most_once (run sched (ThreadPool nthreads prog)).
Proof.
  intros Hnd.
  refine (proj2 (run_invariant
    (fun s => (Inv s /\ OnceInv prog s) /\ HistInv at_most_once s) _ sched _ _)).
  - intros s x s' [[HI HO] HH] H. split; [split|].
    + by eapply Inv_step.
    + destruct HI. by eapply OnceInv_step.
    + by eapply at_most_once_step.
  - split; [split|].
    + apply Inv_init.
    + apply OnceInv_init.
    + by apply HistInv_nil.
Qed.

Lemma tasks_run_at_most_once_witness :
  HistInv at_most_once Scenario.fifo_run.
Proof.
  apply (tasks_run_at_most_once 1 Scenario.fifo_program Scenario.fifo_schedule).
  refine (bool_decide_unpack _ _); vm_compute; exact I.
Defined.

(** ** The two semaphores of the pool *)

Lemma sum_list_with_all {A} (f : A -> nat) (l : list A) :
  Forall (fun x => f x = 1) l -> sum_list_with f l = length l.
Proof. induction 1 as [|x l Hx _ IH]; simpl; [done|]. lia. Qed.

Lemma sum_list_with_witness {A} (f : A -> nat) (l : list A) :
  1 <= sum_list_with f l -> exists i x, l !! i = Some x /\ 1 <= f x.
Proof.
  induction l as [|a l IH]; simpl; [lia|]. intros H.
  destruct (decide (1 <= f a)) as [Ha|Ha].
  - by exists 0, a.
  - destruct IH as (i & x & Hi & Hx); [lia|]. by exists (S i), x.
Qed.

(** The threads that are not in the list have left [run ()]. *)
Lemma retired_exited s w :
  WorkerInv s -> SemInv s -> w < retired s -> workers s !! w = Some WExited.
Proof.
  intros [Wl _] [[Hseq Hle] _ _ _ _] Hw.
  destruct (workers s !! w) as [pc|] eqn:E.
  - destruct (decide (pc = WExited)) as [->|Hne]; [done|].
    specialize (Wl _ _ E Hne). rewrite Hseq in Wl.
    apply elem_of_seq in Wl. lia.
  - apply lookup_ge_None in E. unfold retired in Hw. lia.
Qed.

Lemma listed_range s w pc :
  WorkerInv s -> SemInv s -> workers s !! w = Some pc -> pc <> WExited ->
  retired s <= w < length (workers s).
Proof.
  intros [Wl _] [[Hseq Hle] _ _ _ _] Hw Hne.
  specialize (Wl _ _ Hw Hne). rewrite Hseq in Wl.
  apply elem_of_seq in Wl. apply lookup_lt_Some in Hw. lia.
Qed.

(** Every retired thread holds the token it left with. *)
Lemma tokens_retired s :
  WorkerInv s -> SemInv s ->
  tokens_held s =
    retired s + sum_list_with holds_token (drop (retired s) (workers s)).
Proof.
  intros HW HS. unfold tokens_held.
  rewrite <- (take_drop (retired s) (workers s)) at 1.
  rewrite sum_list_with_app. f_equal.
  rewrite sum_list_with_all.
  - rewrite length_take. destruct HS as [[_ Hle] _ _ _ _]. unfold retired. lia.
  - apply Forall_forall. intros pc Hin.
    apply list_elem_of_lookup_1 in Hin as [i Hi].
    apply lookup_take_Some in Hi as [Hi Hlt].
    rewrite (retired_exited s i HW HS Hlt) in Hi. by simplify_eq.
Qed.

Lemma tokens_listed s w pc :
  WorkerInv s -> SemInv s -> workers s !! w = Some pc -> pc <> WExited ->
  retired s + holds_token pc <= tokens_held s.
Proof.
  intros HW HS Hw Hne. rewrite (tokens_retired s HW HS).
  destruct (listed_range s w pc HW HS Hw Hne) as [Hge Hlt].
  assert (Hd : drop (retired s) (workers s) !! (w - retired s) = Some pc).
  { rewrite lookup_drop. rewrite <- Hw. f_equal. lia. }
  apply list_elem_of_lookup_2 in Hd.
  apply (sum_list_with_in _ holds_token) in Hd. lia.
Qed.

Lemma stop_posts_idle s :
  caller_stopping (caller s) = false -> stop_posts s = 0%Z.
Proof. unfold stop_posts. by destruct (caller s). Qed.

Lemma owed_range pc : (0 <= owed pc <= 1)%Z.
Proof. destruct pc; simpl; lia. Qed.

(** A worker that has found the queue empty finds the stopping flag set. *)
Lemma stopped_sees_flag s w :
  Inv s -> SemInv s -> workers s !! w = Some WStopped ->
  stopping (pool s) = true.
Proof.
  intros [_ [Cq _] HW [Sf _ Ss _ _ _] _] HS Hw.
  destruct (stopping (pool s)) eqn:E; [done|]. exfalso.
  pose proof (tokens_listed s w WStopped HW HS Hw ltac:(done)) as Htok.
  pose proof (sem_task _ HS) as Ht.
  rewrite stop_posts_idle in Ht by congruence.
  rewrite Cq, (Ss _ Hw) in Ht. simpl in *.
  pose proof (owed_range (caller s)).
  destruct HS as [[_ Hle] _ _ _ _]. unfold retired in Htok. lia.
Qed.

Lemma SemInv_init nthreads prog : SemInv (ThreadPool nthreads prog).
Proof. constructor; simpl; try done. Qed.

Lemma SemInv_step s x s' :
  Inv s -> ResizeInv s -> SemInv s -> step x s = Some s' -> SemInv s'.
Proof.
  intros HI HR HS H.
  pose proof (fun w => stopped_sees_flag s w HI HS) as Hflag.
  pose proof (clear_empty s) as Hclear.
  destruct HI as [_ [Cq Ct] HW HSt _].
  destruct HR as [_ _ Rt _ _ _ _].
  destruct HS as [[Hseq Hle] Hp Hq Hth Htk].
  step_inv H.
  all: try match goal with k : FinishCont |- _ => destruct k end.
  all: try (specialize (Hclear _ HW HSt eq_refl)).
  all: try (specialize (Hp _ _ eq_refl)).
  all: try (specialize (Hq _ _ eq_refl)).
  all: clear HW HSt.
  all: unfold unstarted, tokens_held, acknowledged, stop_posts, retired in *.
  all: rewrite ?Hpc in *; simpl in *.
  all: try match goal with
       | Hx : workers _ !! _ = Some WStopped, E : stopping _ = false |- _ =>
           discriminate (Hflag _ Hx)
       end.
  all: clear Hflag.
  all: ltb_facts.
  all: try rewrite size_t_of_int_id in * by (unfold INT_MAX in *; lia).
  all: try rewrite wrap_int_id in * by (unfold is_int, INT_MIN, INT_MAX in *; lia).
  all: unfold spawn_worker; constructor;
    unfold unstarted, tokens_held, acknowledged, stop_posts, retired; simpl;
    rewrite ?Hpc; simpl.
  all: try (intros k0 i0 Hk0; first [exact (Hp _ _ Hk0) | exact (Hq _ _ Hk0)]).
  all: try (intros ? ? [= <- <-]).
  all: try (intros ? ? [= ]).
  all: rewrite ?length_insert, ?length_app, ?sum_list_with_snoc; simpl.
  all: try match goal with E : tasks _ = _ |- _ => rewrite E in *; simpl in * end.
  all: try match goal with
       | Hx : workers _ !! ?w = Some ?pc0 |- context [<[?w:=?pc1]> ?W] =>
           pose proof (sum_list_with_insert unstarted_pc W w pc0 pc1 Hx);
           pose proof (sum_list_with_insert holds_token W w pc0 pc1 Hx);
           simpl in *
       end.
  all: try done.
  all: try lia.
  all: try (split; [done|lia]).
  split; [|lia].
  replace (length (workers s) + 1 - (length (threads (pool s)) + 1))
    with (length (workers s) - length (threads (pool s))) by lia.
  rewrite seq_app. simpl. rewrite <- Hseq. do 2 f_equal. lia.
Qed.

Lemma SemInv_run nthreads prog sched :
  is_unsigned nthreads -> Forall command_ok prog ->
  Inv (run sched (ThreadPool nthreads prog)) /\
  ResizeInv (run sched (ThreadPool nthreads prog)) /\
  SemInv (run sched (ThreadPool nthreads prog)).
Proof.
  intros Hn Hp.
  apply (run_invariant (fun s => Inv s /\ ResizeInv s /\ SemInv s)).
  - intros s x s' (HI & HR & HS) H. split; [|split].
    + by eapply Inv_step.
    + by eapply ResizeInv_step.
    + by eapply SemInv_step.
  - split; [|split].
    + apply Inv_init.
    + by apply ResizeInv_init.
    + apply SemInv_init.
Qed.

(** ** Absence of deadlock *)

Lemma ScopeInv_init nthreads prog :
  well_scoped ∅ prog = true -> ScopeInv (ThreadPool nthreads prog).
Proof.
  intros H. constructor; simpl; done.
Qed.

Lemma ScopeInv_step s x s' :
  ScopeInv s -> step x s = Some s' -> ScopeInv s'.
Proof.
  intros [Sp St Sw] H.
  step_inv H.
  all: try match goal with k : FinishCont |- _ => destruct k end.
  all: unfold live_after in *.
  all: rewrite ?Hpc in *; simpl in *.
  all: try match goal with E : program _ = _ |- _ => rewrite E in *; simpl in * end.
  all: try (apply andb_prop in Sp as [Sp1 Sp2]; apply bool_decide_eq_true in Sp1).
  all: try match goal with
       | E : groups _ !! ?g = Some _ |- _ =>
           pose proof (elem_of_dom_2 (D:=gset nat) _ _ _ E)
       end.
  all: unfold spawn_worker; constructor; unfold live_after; simpl;
    rewrite ?Hpc; simpl.
  all: rewrite ?dom_insert_L, ?dom_delete_L.
  all: try match goal with
       | E : group ?t ∈ dom ?m |- _ =>
           replace ({[group t]} ∪ dom m) with (dom m) by set_solver
       end.
  all: try done.
  all: try (intros t0 [= <-]); try (intros t0 [= ]).
  all: try (by apply St).
  all: try (intros g0 [= <-]).
  all: try done.
Qed.

Lemma LiveInv_step s x s' : LiveInv s -> step x s = Some s' -> LiveInv s'.
Proof.
  intros (HB & HR & HS & HC) H. split; [|split; [|split]].
  - by eapply BoundedInv_step.
  - by eapply ResizeInv_step.
  - eapply SemInv_step; eauto. apply HB.
  - by eapply ScopeInv_step.
Qed.

Lemma LiveInv_init nthreads prog :
  well_formed nthreads prog -> LiveInv (ThreadPool nthreads prog).
Proof.
  intros (Hn & Hp & Hs & Hb). split; [|split; [|split]].
  - constructor; [apply Inv_init|apply GroupInv_init|done].
  - by apply ResizeInv_init.
  - apply SemInv_init.
  - by apply ScopeInv_init.
Qed.

Lemma LiveInv_run nthreads prog sched :
  well_formed nthreads prog -> LiveInv (run sched (ThreadPool nthreads prog)).
Proof.
  intros Hwf. apply run_invariant; [apply LiveInv_step|by apply LiveInv_init].
Qed.

(** The group of a task a worker holds is alive. *)
Lemma held_group_alive s w pc t :
  GroupInv s -> workers s !! w = Some pc -> worker_task pc = Some t ->
  is_Some (groups s !! group t).
Proof.
  intros [_ Ga] Hw Ht.
  destruct (groups s !! group t) as [d|] eqn:E; [done|].
  specialize (Ga _ E).
  assert (1 <= pending (group t) s); [|lia].
  apply pending_task. right. by exists w, pc.
Qed.

(** A worker that holds [taskMutex] can run its next statement. *)
Lemma holder_steps s w :
  Inv s -> GroupInv s -> taskMutex (pool s) = Some (Worker w) ->
  exists s', step (Worker w) s = Some s'.
Proof.
  intros [[Lt Ls Lc Lk] [Cq Ct] HW HS HT] HG Hm.
  pose proof (proj1 (Lk w) Hm) as Hh. unfold worker_holds in Hh.
  destruct (workers s !! w) as [pc|] eqn:Hw; [|done]. simpl in Hh.
  simpl. unfold WorkerThread_run. rewrite Hw. simpl.
  destruct pc; simpl in Hh; try done; simpl.
  - (* the test of numTasks *)
    destruct (Z.ltb_spec 0 (numTasks (pool s))) as [Hpos|Hpos]; [|by eexists].
    destruct (tasks (pool s)) as [|t q] eqn:E; [|by eexists].
    rewrite Cq in Hpos. simpl in Hpos. lia.
  - by eexists.
  - (* removeTask *)
    destruct (held_group_alive s w (WRetire t) t HG Hw eq_refl) as [d ->].
    by eexists.
  - (* stopped () *)
    unfold Data_stopped. rewrite Ls.
    destruct (caller_holds_stop (caller s)) eqn:E.
    + assert (taskMutex (pool s) = Some Caller); [|congruence].
      apply Lc. destruct (caller s); simpl in *; done.
    + simpl. destruct (stopping (pool s)); by eexists.
  - by eexists.
  - by eexists.
Qed.

(** A worker that has not left [run ()] can run, unless it waits for a
    task at a semaphore that is zero, or for [taskMutex] while another
    thread that can run holds it. *)
Lemma live_worker_steps s w pc :
  Inv s -> GroupInv s ->
  workers s !! w = Some pc -> pc <> WExited ->
  taskMutex (pool s) <> Some Caller ->
  (pc = WWaitTask -> taskSemaphore (pool s) <> 0) ->
  can_step s.
Proof.
  intros HI HG Hw Hne Hc Hsem.
  destruct (taskMutex (pool s)) as [[|w']|] eqn:Hm; [done| |].
  { destruct (holder_steps s w' HI HG Hm) as [s' H]. by exists (Worker w'), s'. }
  exists (Worker w). simpl. unfold WorkerThread_run. rewrite Hw. simpl.
  destruct HI as [[Lt Ls Lc Lk] [Cq Ct] HW HS HT].
  assert (Hfree : worker_holds_task pc = false).
  { apply not_true_is_false. intros Hh.
    assert (taskMutex (pool s) = Some (Worker w)); [|congruence].
    apply Lk. unfold worker_holds. by rewrite Hw. }
  destruct pc; simpl in Hfree; try done; simpl; rewrite ?Hm; simpl;
    try by eexists.
  destruct (taskSemaphore (pool s)) as [|v] eqn:E; [by destruct Hsem|].
  by eexists.
Qed.

Lemma sum_list_with_lookup_le {A} (f : A -> nat) (l : list A) i x :
  (forall y, f y <= 1) -> l !! i = Some x ->
  sum_list_with f l + 1 <= length l + f x.
Proof.
  intros Hf. revert i. induction l as [|a l IH]; intros [|i] H; simplify_eq/=.
  - pose proof (sum_list_with_length f l Hf). lia.
  - specialize (IH _ H). specialize (Hf a). lia.
Qed.

Lemma holds_token_le pc : holds_token pc <= 1.
Proof. destruct pc; simpl; lia. Qed.

(** While the pool is not being stopped, the threads of the list are
    inside [run ()]. *)
Lemma listed_live s w :
  Inv s -> SemInv s -> stopping (pool s) = false ->
  retired s <= w < length (workers s) ->
  exists pc, workers s !! w = Some pc /\ pc <> WExited.
Proof.
  intros [_ _ _ [_ Sl _ _ _ _] _] [[Hseq Hle] _ _ _ _] Hst Hr.
  destruct (lookup_lt_is_Some_2 (workers s) w) as [pc Hw]; [lia|].
  exists pc. split; [done|]. intros ->.
  destruct (Sl w WExited Hw eq_refl) as [Hs _]; [|congruence].
  rewrite Hseq. apply elem_of_seq. unfold retired in *. lia.
Qed.

(** With a task in the queue and the pool not being stopped, a worker
    can run. *)
Lemma queued_task_taken s :
  Inv s -> GroupInv s -> SemInv s ->
  caller_stopping (caller s) = false -> owed (caller s) = 0%Z ->
  taskMutex (pool s) <> Some Caller ->
  tasks (pool s) <> [] -> can_step s.
Proof.
  intros HI HG HS Hst Howed Hc Hq.
  pose proof HI as [_ [Cq Ct] HW [Sf Sl Ss Sn _ _] _].
  pose proof HS as [[Hseq Hle] _ _ _ Htk].
  rewrite stop_posts_idle, Howed in Htk by done.
  rewrite (tokens_retired s HW HS) in Htk.
  rewrite Hst in Sf.
  assert (Hlt : 1 <= length (threads (pool s))).
  { destruct (threads (pool s)); [by specialize (Sn eq_refl)|simpl; lia]. }
  assert (Hnt : (1 <= numTasks (pool s))%Z).
  { rewrite Cq. destruct (tasks (pool s)); [done|simpl; lia]. }
  destruct (decide (taskSemaphore (pool s) = 0)) as [Hz|Hnz].
  - (* a worker holds the token of the task *)
    destruct (sum_list_with_witness holds_token (drop (retired s) (workers s)))
      as (i & pc & Hi & Hpc); [unfold retired in *; lia|].
    rewrite lookup_drop in Hi.
    destruct (listed_live s (retired s + i) HI HS Sf) as (pc' & Hw & Hne).
    { apply lookup_lt_Some in Hi. lia. }
    assert (pc' = pc) as -> by congruence.
    eapply live_worker_steps; eauto. intros ->. simpl in Hpc. lia.
  - (* the first thread of the list can take it *)
    destruct (listed_live s (retired s) HI HS Sf) as (pc & Hw & Hne).
    { unfold retired. lia. }
    eapply live_worker_steps; eauto.
Qed.

Lemma no_deadlock_inv s :
  LiveInv s -> caller_done s = false -> can_step s.
Proof.
  intros ([HI HG HB] & HR & HS & [Cp Ct Cw]) Hnd.
  pose proof HI as [[Lt Ls Lc Lk] [Cq Cn] [Wl Wj] [Sf Sl Ss Sn Sq Si] HT].
  pose proof HS as [[Hseq Hle] Hpost Hwait Hth Htk].
  unfold caller_done in Hnd. unfold live_after in Cp.
  destruct (caller s) eqn:Hpc; simpl in *; try done.
  all: try (exists Caller; simpl; unfold_caller; rewrite Hpc; simpl;
            rewrite ?Lt, ?Ls; simpl; repeat case_match; by eexists).
  - (* the next call *)
    destruct (program s) as [|c rest] eqn:Hprog; [done|].
    exists Caller. simpl. unfold_caller. rewrite Hpc, Hprog. simpl in *.
    destruct c; simpl; try by eexists.
    + apply andb_prop in Cp as [Cp _]. apply bool_decide_eq_true in Cp.
      apply not_elem_of_dom in Cp. rewrite Cp. by eexists.
  - (* threadSemaphore.wait () *)
    destruct (threadSemaphore (pool s)) as [|v] eqn:E.
    + specialize (Hwait _ _ eq_refl). unfold acknowledged in Hth.
      rewrite Hpc in Hth.
      destruct (sum_list_with_witness unstarted_pc (workers s))
        as (w & pc & Hw & Hu); [unfold unstarted in Hth; lia|].
      exists (Worker w). simpl. unfold WorkerThread_run. rewrite Hw. simpl.
      destruct pc; simpl in Hu; try lia. by eexists.
    + exists Caller. simpl. unfold_caller. rewrite Hpc. simpl. rewrite E.
      by eexists.
  - (* join *)
    destruct rest as [|w rest].
    { exists Caller. simpl. unfold_caller. rewrite Hpc. by eexists. }
    destruct Wj as (joined & Hj & _).
    assert (Hin : w ∈ threads (pool s)).
    { rewrite Hj. apply elem_of_app. right. by left. }
    rewrite Hseq in Hin. apply elem_of_seq in Hin. unfold retired in Hin.
    destruct (lookup_lt_is_Some_2 (workers s) w) as [pc Hw]; [lia|].
    destruct (decide (pc = WExited)) as [->|Hne].
    { exists Caller. simpl. unfold_caller. rewrite Hpc, Hw. by eexists. }
    eapply live_worker_steps; eauto.
    + intros Hm. by apply Lc in Hm.
    + intros -> Hz.
      pose proof (sum_list_with_lookup_le holds_token _ _ _ holds_token_le Hw) as Hb.
      unfold stop_posts in Htk. rewrite Hpc in Htk. simpl in Htk, Hb.
      unfold tokens_held in Htk. rewrite Hz, Cn in Htk.
      assert (0 <= numTasks (pool s))%Z by (rewrite Cq; lia). lia.
  - (* Lock lock1 (taskMutex) *)
    exists Caller. simpl. unfold_caller. rewrite Hpc. simpl.
    destruct (taskMutex (pool s)) as [[|w]|] eqn:Hm; [|exfalso|by eexists].
    + destruct Lc as [Lc _]. by specialize (Lc eq_refl).
    + destruct (Lk w) as [Lw _]. specialize (Lw eq_refl).
      unfold worker_holds in Lw.
      destruct (workers s !! w) as [pc|] eqn:Hw; [|done]. simpl in Lw.
      assert (Hne : pc <> WExited) by (intros ->; done).
      specialize (Wl _ _ Hw Hne). rewrite Forall_forall in Wj.
      specialize (Wj _ Wl). unfold exited in Wj. congruence.
  - (* Lock taskLock (taskMutex) in addTask *)
    destruct (taskMutex (pool s)) as [[|w]|] eqn:Hm.
    + destruct Lc as [Lc _]. by specialize (Lc eq_refl).
    + destruct (holder_steps s w HI HG Hm) as [s' H]. by exists (Worker w), s'.
    + exists Caller. simpl. unfold_caller. rewrite Hpc. simpl. rewrite Hm.
      by eexists.
  - (* push_back and the group's addTask *)
    specialize (Ct _ eq_refl). apply elem_of_dom in Ct as [d Hd].
    exists Caller. simpl. unfold_caller. rewrite Hpc. simpl. rewrite Hd. simpl.
    destruct HG as [Gc _]. destruct (Gc _ _ Hd) as [Gn Ge].
    unfold TaskGroup.addTask. rewrite Ge, Gn. unfold gate_of.
    destruct (Z.eqb_spec (Z.of_nat (pending (group t) s)) 0) as [E|E].
    * rewrite decide_True by lia. by eexists.
    * by eexists.
  - (* ~TaskGroup *)
    specialize (Cw _ eq_refl). apply elem_of_dom in Cw as [d Hd].
    pose proof HG as [Gc _]. destruct (Gc _ _ Hd) as [Gn Ge].
    destruct (decide (pending g s = 0)) as [Hz|Hnz].
    { exists Caller. simpl. unfold_caller. rewrite Hpc. simpl. rewrite Hd. simpl.
      unfold TaskGroup.drain. rewrite Ge, Hz. by eexists. }
    assert (Hfree : taskMutex (pool s) <> Some Caller).
    { intros Hm. by apply Lc in Hm. }
    unfold pending in Hnz.
    destruct (decide (sum_list_with (worker_pending g) (workers s) = 0)) as [Hw0|Hw0].
    + apply (queued_task_taken s HI HG HS); rewrite ?Hpc; try done.
      intros Hq. rewrite Hq in Hnz. simpl in Hnz. lia.
    + destruct (sum_list_with_witness (worker_pending g) (workers s))
        as (w & pc & Hw & Hp); [lia|].
      eapply live_worker_steps; eauto.
      * intros ->. unfold worker_pending in Hp. simpl in Hp. lia.
      * intros ->. unfold worker_pending in Hp. simpl in Hp. lia.
Qed.

(** ** What the semaphores count *)

Lemma sum_list_with_Forall {A} (f g : A -> nat) (l : list A) :
  Forall (fun x => f x = g x) l -> sum_list_with f l = sum_list_with g l.
Proof. induction 1 as [|x l Hx _ IH]; simpl; [done|]. lia. Qed.

Lemma stop_posts_pos s :
  (0 < stop_posts s)%Z -> caller_stopping (caller s) = true.
Proof. unfold stop_posts. destruct (caller s); simpl; try done; lia. Qed.

(** While the pool is not being stopped, the tokens held are those of
    the threads that have left and of the workers just woken. *)
Lemma tokens_idle s :
  Inv s -> SemInv s -> stopping (pool s) = false ->
  tokens_held s = retired s + woken s.
Proof.
  intros HI HS Hst. pose proof HI as [_ _ HW [_ Sl _ _ _ _] _].
  rewrite (tokens_retired s HW HS). f_equal. unfold woken.
  rewrite <- (take_drop (retired s) (workers s)) at 2.
  rewrite sum_list_with_app.
  assert (Hz : sum_list_with waking (take (retired s) (workers s)) = 0).
  { rewrite (sum_list_with_Forall waking (fun _ => 0)).
    - clear. induction (take _ _); simpl; lia.
    - apply Forall_forall. intros pc Hin.
      apply list_elem_of_lookup_1 in Hin as [i Hi].
      apply lookup_take_Some in Hi as [Hi Hlt].
      rewrite (retired_exited s i HW HS Hlt) in Hi. by simplify_eq. }
  rewrite Hz. simpl. apply sum_list_with_Forall.
  apply Forall_forall. intros pc Hin.
  apply list_elem_of_lookup_1 in Hin as [i Hi]. rewrite lookup_drop in Hi.
  destruct (listed_live s (retired s + i) HI HS Hst) as (pc' & Hw & Hne).
  { apply lookup_lt_Some in Hi. lia. }
  assert (pc' = pc) as -> by congruence.
  destruct pc; simpl; try done.
  - by rewrite (stopped_sees_flag s _ HI HS Hw) in Hst.
  - destruct (Sl _ _ Hw eq_refl) as [Hs _]; [|congruence].
    destruct HS as [[Hseq Hle] _ _ _ _]. rewrite Hseq. apply elem_of_seq.
    apply lookup_lt_Some in Hw. unfold retired in *. lia.
Qed.

(** X8: along every schedule: (a) [threadSemaphore] counts the threads of
    the list that have entered [run ()] and that [finish ()] has not yet
    waited for; (b) so from the join of the threads to the reset of the
    pool, every thread has entered [run ()] (none is deleted before its
    [run ()] was called) and the semaphore is back at zero. *)
Theorem threads_started_before_join nthreads prog sched :
  is_unsigned nthreads -> Forall command_ok prog ->
  let s := run sched (ThreadPool nthreads prog) in
  (Z.of_nat (threadSemaphore (pool s)) + Z.of_nat (unstarted s) +
   acknowledged s = numThreads (pool s))%Z /\
  (caller_joining (caller s) = true ->
   threadSemaphore (pool s) = 0 /\
   forall w, workers s !! w <> Some WStart).
Proof.
  intros Hn Hp s.
  destruct (SemInv_run nthreads prog sched Hn Hp) as (HI & HR & HS).
  fold s in HI, HR, HS. pose proof (sem_thread _ HS) as Hth.
  split; [done|]. intros Hj.
  assert (Hack : acknowledged s = numThreads (pool s)).
  { unfold acknowledged. destruct (caller s); simpl in Hj; done. }
  split; [lia|]. intros w Hw.
  apply list_elem_of_lookup_2 in Hw.
  apply (sum_list_with_in _ unstarted_pc) in Hw. simpl in Hw.
  unfold unstarted in Hth. lia.
Qed.

(** X9: along every schedule: (a) outside [finish ()], the value of
    [taskSemaphore], the workers it has just woken and the post that
    [addTask] still owes add up to [numTasks]: no wake-up is lost and
    none is spare; (b) a worker that finds the queue empty does so with
    the stopping flag set; (c) when it then tests the flag it finds it
    set and leaves the loop: the loop never turns without a task. *)
Theorem taskSemaphore_accounting nthreads prog sched :
  is_unsigned nthreads -> Forall command_ok prog ->
  let s := run sched (ThreadPool nthreads prog) in
  (caller_stopping (caller s) = false ->
   (Z.of_nat (taskSemaphore (pool s)) + Z.of_nat (woken s) +
    owed (caller s) = numTasks (pool s))%Z) /\
  (forall w, workers s !! w = Some WCheck -> numTasks (pool s) = 0%Z ->
     stopping (pool s) = true) /\
  (forall w, workers s !! w = Some WStopped ->
     stopping (pool s) = true /\
     step (Worker w) s = Some (at_worker w WBreak s)).
Proof.
  intros Hn Hp s.
  destruct (SemInv_run nthreads prog sched Hn Hp) as (HI & HR & HS).
  fold s in HI, HR, HS.
  pose proof HI as [[Lt Ls Lc Lk] [Cq Ct] HW [Sf Sl Ss Sn Sq Si] HT].
  pose proof HS as [[Hseq Hle] _ _ _ Htk].
  split; [|split].
  - intros Hst. rewrite stop_posts_idle in Htk by done.
    rewrite (tokens_idle s HI HS) in Htk by congruence.
    unfold retired in Htk. lia.
  - intros w Hw Hz. rewrite Sf. apply stop_posts_pos.
    pose proof (tokens_listed s w WCheck HW HS Hw ltac:(done)) as Htok.
    pose proof (owed_range (caller s)).
    simpl in Htok. unfold retired in Htok. lia.
  - intros w Hw. pose proof (stopped_sees_flag s w HI HS Hw) as Hflag.
    split; [done|]. simpl. unfold WorkerThread_run. rewrite Hw. simpl.
    unfold Data_stopped. rewrite Ls.
    destruct (caller_holds_stop (caller s)) eqn:E.
    + assert (taskMutex (pool s) = Some Caller).
      { apply Lc. destruct (caller s); simpl in *; done. }
      assert (taskMutex (pool s) = Some (Worker w)); [|congruence].
      apply Lk. unfold worker_holds. by rewrite Hw.
    + simpl. by rewrite Hflag.
Qed.

(** X10: along every schedule: the thread list holds the threads created
    last, in the order of their creation; every thread created before
    them has left [run ()]; and while the pool is not being stopped,
    every thread of the list is inside [run ()]. *)
Theorem thread_list_is_last_generation nthreads prog sched :
  is_unsigned nthreads -> Forall command_ok prog ->
  let s := run sched (ThreadPool nthreads prog) in
  length (threads (pool s)) <= length (workers s) /\
  threads (pool s) =
    seq (length (workers s) - length (threads (pool s)))
        (length (threads (pool s))) /\
  (forall w, w < length (workers s) - length (threads (pool s)) ->
     workers s !! w = Some WExited) /\
  (stopping (pool s) = false ->
   forall w, w ∈ threads (pool s) ->
     exists pc, workers s !! w = Some pc /\ pc <> WExited).
Proof.
  intros Hn Hp s.
  destruct (SemInv_run nthreads prog sched Hn Hp) as (HI & HR & HS).
  fold s in HI, HR, HS.
  pose proof HS as [[Hseq Hle] _ _ _ _].
  split; [done|]. split; [done|]. split.
  - intros w Hw. apply (retired_exited s w); [apply HI|done|done].
  - intros Hst w Hin. apply (listed_live s w HI HS Hst).
    rewrite Hseq in Hin. apply elem_of_seq in Hin. unfold retired in *. lia.
Qed.

Lemma shrink_program_ok : Forall command_ok Scenario.shrink_program.
Proof.
  unfold Scenario.shrink_program. simpl.
  repeat constructor; unfold is_int, INT_MIN, INT_MAX; lia.
Qed.

Lemma threads_started_before_join_witness :
  let s := Scenario.shrink_run in
  (Z.of_nat (threadSemaphore (pool s)) + Z.of_nat (unstarted s) +
   acknowledged s = numThreads (pool s))%Z /\
  (caller_joining (caller s) = true ->
   threadSemaphore (pool s) = 0 /\
   forall w, workers s !! w <> Some WStart).
Proof.
  apply (threads_started_before_join 4 Scenario.shrink_program
           Scenario.shrink_schedule).
  - unfold is_unsigned. lia.
  - apply shrink_program_ok.
Defined.

Lemma taskSemaphore_accounting_witness :
  let s := Scenario.shrink_run in
  (caller_stopping (caller s) = false ->
   (Z.of_nat (taskSemaphore (pool s)) + Z.of_nat (woken s) +
    owed (caller s) = numTasks (pool s))%Z) /\
  (forall w, workers s !! w = Some WCheck -> numTasks (pool s) = 0%Z ->
     stopping (pool s) = true) /\
  (forall w, workers s !! w = Some WStopped ->
     stopping (pool s) = true /\
     step (Worker w) s = Some (at_worker w WBreak s)).
Proof.
  apply (taskSemaphore_accounting 4 Scenario.shrink_program
           Scenario.shrink_schedule).
  - unfold is_unsigned. lia.
  - apply shrink_program_ok.
Defined.

Lemma thread_list_is_last_generation_witness :
  let s := Scenario.shrink_run in
  length (threads (pool s)) <= length (workers s) /\
  threads (pool s) =
    seq (length (workers s) - length (threads (pool s)))
        (length (threads (pool s))) /\
  (forall w, w < length (workers s) - length (threads (pool s)) ->
     workers s !! w = Some WExited) /\
  (stopping (pool s) = false ->
   forall w, w ∈ threads (pool s) ->
     exists pc, workers s !! w = Some pc /\ pc <> WExited).
Proof.
  apply (thread_list_is_last_generation 4 Scenario.shrink_program
           Scenario.shrink_schedule).
  - unfold is_unsigned. lia.
  - apply shrink_program_ok.
Defined.

(** ** Termination *)

Lemma program_cost_nonneg prog : (0 <= program_cost prog)%Z.
Proof.
  induction prog as [|c prog IH]; simpl; [done|].
  destruct c; simpl; lia.
Qed.

Lemma measure_step s x s' :
  Inv s -> ResizeInv s -> SemInv s ->
  step x s = Some s' -> (measure s' < measure s)%Z.
Proof.
  intros HI HR HS H.
  destruct HI as [_ [Cq Ct] HW HSt _].
  destruct HR as [Rp Rc Rt Rg Rz Rr _].
  destruct HS as [_ Hp Hq _ _].
  step_inv H.
  all: try match goal with k : FinishCont |- _ => destruct k end.
  all: try (specialize (Hp _ _ eq_refl)).
  all: try (specialize (Hq _ _ eq_refl)).
  all: try (specialize (Rg _ eq_refl)).
  all: try (specialize (Rz _ eq_refl)).
  all: try (specialize (Rr _ eq_refl)).
  all: try (pose proof (Rc _ eq_refl) as Rc1).
  all: clear HW HSt Rc.
  all: unfold measure, caller_cost in *.
  all: rewrite ?Hpc in *; simpl in *.
  all: ltb_facts.
  all: try rewrite size_t_of_int_id in * by (unfold INT_MAX in *; lia).
  all: try rewrite wrap_int_id in * by (unfold is_int, INT_MIN, INT_MAX in *; lia).
  all: unfold spawn_worker; simpl; rewrite ?Hpc; simpl.
  all: rewrite ?length_app, ?sum_list_with_snoc; simpl.
  all: try match goal with E : program _ = _ |- _ => rewrite E in *; simpl in * end.
  all: try match goal with
       | Hx : workers _ !! ?w = Some ?pc0 |- context [<[?w:=?pc1]> ?W] =>
           pose proof (sum_list_with_insert worker_cost W w pc0 pc1 Hx);
           simpl in *
       end.
  all: try (rewrite Ct in *; simpl in *).
  all: lia.
Qed.

Lemma measure_nonneg s :
  Inv s -> ResizeInv s -> SemInv s -> (0 <= measure s)%Z.
Proof.
  intros [_ [Cq Ct] _ _ _] [_ Rc Rt Rg _ _ _] [_ Hp Hq _ _].
  pose proof (program_cost_nonneg (program s)).
  unfold measure, caller_cost.
  destruct (caller s) eqn:Hpc; simpl.
  all: try match goal with k : FinishCont |- _ => destruct k end.
  all: try (specialize (Hp _ _ eq_refl)).
  all: try (specialize (Hq _ _ eq_refl)).
  all: try (specialize (Rg _ eq_refl)).
  all: try (pose proof (Rc _ eq_refl) as Rc1).
  all: simpl; lia.
Qed.

Lemma MeasureInv_step s x s' :
  MeasureInv s -> step x s = Some s' -> MeasureInv s'.
Proof.
  intros (HI & HR & HS) H. split; [|split].
  - by eapply Inv_step.
  - by eapply ResizeInv_step.
  - by eapply SemInv_step.
Qed.

Lemma steps_measured sched : forall s,
  MeasureInv s ->
  (measure (run sched s) + Z.of_nat (steps_taken sched s) <= measure s)%Z.
Proof.
  induction sched as [|x sched IH]; intros s HM; simpl; [lia|].
  unfold exec. destruct (step x s) as [s'|] eqn:E.
  - pose proof HM as (HI & HR & HS).
    pose proof (measure_step s x s' HI HR HS E).
    specialize (IH s' (MeasureInv_step _ _ _ HM E)). lia.
  - by apply IH.
Qed.

Lemma steps_none sched : forall s,
  steps_taken sched s = 0 ->
  run sched s = s /\ forall x, x ∈ sched -> step x s = None.
Proof.
  induction sched as [|x sched IH]; intros s H; simpl in *.
  - split; [done|]. intros x Hx. by apply elem_of_nil in Hx.
  - unfold exec. destruct (step x s) as [s'|] eqn:E; [done|].
    destruct (IH s H) as [Hr Hn]. split; [done|].
    intros y Hy. apply elem_of_cons in Hy as [->|Hy]; [done|by apply Hn].
Qed.

Lemma program_threads_nonneg prog : (0 <= program_threads prog)%Z.
Proof.
  induction prog as [|c prog IH]; simpl; [done|].
  destruct c; simpl; lia.
Qed.

Lemma threads_ever_step s x s' :
  ResizeInv s -> step x s = Some s' -> (threads_ever s' <= threads_ever s)%Z.
Proof.
  intros [Rp Rc Rt Rg Rz Rr _] H.
  step_inv H.
  all: try match goal with k : FinishCont |- _ => destruct k end.
  all: try (specialize (Rg _ eq_refl)).
  all: try (specialize (Rz _ eq_refl)).
  all: try (pose proof (Rc _ eq_refl) as Rc1).
  all: clear Rc.
  all: unfold threads_ever, spawns_left in *.
  all: rewrite ?Hpc in *; simpl in *.
  all: ltb_facts.
  all: try rewrite size_t_of_int_id in * by (unfold INT_MAX in *; lia).
  all: unfold spawn_worker; simpl; rewrite ?Hpc; simpl.
  all: rewrite ?length_app, ?length_insert; simpl.
  all: try match goal with E : program _ = _ |- _ => rewrite E in *; simpl in * end.
  all: lia.
Qed.

Lemma workers_bounded s :
  ResizeInv s -> (Z.of_nat (length (workers s)) <= threads_ever s)%Z.
Proof.
  intros [_ Rc Rt Rg _ _ _].
  pose proof (program_threads_nonneg (program s)).
  unfold threads_ever, spawns_left.
  destruct (caller s) eqn:Hpc; simpl.
  all: try match goal with k : FinishCont |- _ => destruct k end.
  all: try (specialize (Rg _ eq_refl)).
  all: try (pose proof (Rc _ eq_refl) as Rc1).
  all: simpl; lia.
Qed.

Lemma round_stuck k s :
  length (workers s) <= k -> steps_taken (round k) s = 0 ->
  forall x, step x s = None.
Proof.
  intros Hk H0. destruct (steps_none _ _ H0) as [_ Hn].
  intros [|w].
  - apply Hn. by left.
  - destruct (decide (w < k)) as [Hlt|Hge].
    + apply Hn. right. apply list_elem_of_fmap. exists w. split; [done|].
      apply elem_of_seq. lia.
    + simpl. unfold WorkerThread_run.
      rewrite lookup_ge_None_2 by lia. done.
Qed.

Lemma RoundInv_step k s x s' :
  RoundInv k s -> step x s = Some s' -> RoundInv k s'.
Proof.
  intros [HL Hk] H. split; [by eapply LiveInv_step|].
  destruct HL as (_ & HR & _). pose proof (threads_ever_step s x s' HR H). lia.
Qed.

Lemma RoundInv_measure k s : RoundInv k s -> MeasureInv s.
Proof. intros [([HI _ _] & HR & HS & _) _]. by split. Qed.

Lemma stuck_done k s :
  RoundInv k s -> (forall x, step x s = None) -> caller_done s = true.
Proof.
  intros [HL _] Hn. destruct (caller_done s) eqn:E; [done|].
  destruct (no_deadlock_inv s HL E) as (x & s' & H). by rewrite Hn in H.
Qed.

(** Any run of a well-formed program can be continued until the calling
    thread has made all its calls. *)
Lemma completion s :
  LiveInv s -> exists sched, caller_done (run sched s) = true.
Proof.
  intros HL.
  assert (Hm : exists n, (measure s <= Z.of_nat n)%Z).
  { exists (Z.to_nat (measure s)). lia. }
  destruct Hm as [n Hm]. revert s HL Hm.
  induction n as [|n IH]; intros s HL Hm.
  - exists []. simpl. destruct (caller_done s) eqn:E; [done|].
    destruct (no_deadlock_inv s HL E) as (x & s' & H).
    pose proof HL as ([HI _ _] & HR & HS & _).
    pose proof (measure_step s x s' HI HR HS H).
    pose proof (LiveInv_step s x s' HL H) as ([HI' _ _] & HR' & HS' & _).
    pose proof (measure_nonneg s' HI' HR' HS'). lia.
  - destruct (caller_done s) eqn:E; [by exists []|].
    destruct (no_deadlock_inv s HL E) as (x & s' & H).
    pose proof HL as ([HI _ _] & HR & HS & _).
    pose proof (measure_step s x s' HI HR HS H).
    destruct (IH s' (LiveInv_step s x s' HL H)) as [sched Hd]; [lia|].
    exists (x :: sched). simpl. unfold exec. by rewrite H.
Qed.

(** X11: along every schedule of a well-formed program, while the calling
    thread has a statement left to run (it is inside a call, or has
    calls to make), some thread can run: [finish ()], [~TaskGroup] and
    the locks never leave every thread waiting.  And the run can be
    continued until the calling thread has made all its calls. *)
Theorem pool_never_deadlocks nthreads prog sched :
  well_formed nthreads prog ->
  let s := run sched (ThreadPool nthreads prog) in
  (caller_done s = false -> exists x s', step x s = Some s') /\
  (exists sched', caller_done (run (sched ++ sched') (ThreadPool nthreads prog)) = true).
Proof.
  intros Hwf s. pose proof (LiveInv_run nthreads prog sched Hwf) as HL.
  fold s in HL. split.
  - by apply no_deadlock_inv.
  - destruct (completion s HL) as [sched' Hd]. exists sched'.
    by rewrite run_app.
Qed.

(** X12: whatever the schedule, the threads of the pool together run no more
    statements than the cost of the program: ten per post, thirteen per
    thread, a fixed number per call.  No schedule keeps the pool busy
    for ever. *)
Theorem every_schedule_is_bounded nthreads prog sched :
  is_unsigned nthreads -> Forall command_ok prog ->
  (Z.of_nat (steps_taken sched (ThreadPool nthreads prog)) <=
   program_cost (SetNumThreads (int_of_unsigned nthreads) :: prog))%Z.
Proof.
  intros Hn Hp.
  pose proof (steps_measured sched (ThreadPool nthreads prog)) as Hs.
  assert (HM : MeasureInv (ThreadPool nthreads prog)).
  { split; [apply Inv_init|]. split; [by apply ResizeInv_init|apply SemInv_init]. }
  specialize (Hs HM).
  assert (HM' : MeasureInv (run sched (ThreadPool nthreads prog))).
  { apply run_invariant; [apply MeasureInv_step|done]. }
  destruct HM' as (HI & HR & HS).
  pose proof (measure_nonneg _ HI HR HS).
  assert (E : measure (ThreadPool nthreads prog) =
              program_cost (SetNumThreads (int_of_unsigned nthreads) :: prog)).
  { unfold measure, caller_cost. simpl. lia. }
  rewrite E in Hs. lia.
Qed.

Lemma shrink_program_well_formed : well_formed 4 Scenario.shrink_program.
Proof.
  split; [unfold is_unsigned; lia|]. split; [apply shrink_program_ok|].
  split; [vm_compute; reflexivity|]. vm_compute. discriminate.
Qed.

Lemma pool_never_deadlocks_witness :
  let s := Scenario.shrink_run in
  (caller_done s = false -> exists x s', step x s = Some s') /\
  (exists sched',
     caller_done (run (Scenario.shrink_schedule ++ sched')
                    (ThreadPool 4 Scenario.shrink_program)) = true).
Proof.
  apply (pool_never_deadlocks 4 Scenario.shrink_program Scenario.shrink_schedule).
  apply shrink_program_well_formed.
Defined.

Lemma every_schedule_is_bounded_witness :
  (Z.of_nat (steps_taken Scenario.shrink_schedule
               (ThreadPool 4 Scenario.shrink_program)) <=
   program_cost (SetNumThreads (int_of_unsigned 4) :: Scenario.shrink_program))%Z.
Proof.
  apply (every_schedule_is_bounded 4 Scenario.shrink_program
           Scenario.shrink_schedule).
  - unfold is_unsigned. lia.
  - apply shrink_program_ok.
Defined.

Lemma submitted_logged t l : t ∈ submitted l -> EvSubmit t ∈ l.
Proof.
  induction l as [|e l IH]; simpl.
  { intros H. by apply elem_of_nil in H. }
  destruct e; try (intros H; right; by apply IH).
  rewrite elem_of_app, list_elem_of_singleton. intros [H| ->].
  - right. by apply IH.
  - by left.
Qed.

(** In a state where no thread can run, every task given to [addTask]
    has been executed and deleted. *)
Lemma quiescent_completed s t :
  LiveInv s -> (forall x, step x s = None) ->
  EvSubmit t ∈ log s -> completed t (log s).
Proof.
  intros HL Hq Hin.
  assert (Hstuck : ~ can_step s).
  { intros (x & s' & H). by rewrite Hq in H. }
  assert (Hd : caller_done s = true).
  { destruct (caller_done s) eqn:E; [done|].
    destruct Hstuck. by apply no_deadlock_inv. }
  destruct HL as ([HI HG _] & _ & HS & _).
  pose proof HI as [[_ _ Lc _] _ _ _ [Ta _ _ _ _]].
  assert (Hout : caller_holds_task (caller s) = false /\
                 caller_stopping (caller s) = false /\
                 owed (caller s) = 0%Z /\ caller_task (caller s) = None).
  { unfold caller_done in Hd. destruct (caller s); simpl in *; done. }
  destruct Hout as (Hh & Hst & Ho & Hct).
  assert (Hfree : taskMutex (pool s) <> Some Caller).
  { intros Hm. apply Lc in Hm. congruence. }
  destruct (Ta _ Hin) as [H|[H|[H|H]]]; [| |congruence|done].
  - destruct Hstuck. apply (queued_task_taken s HI HG HS Hst Ho Hfree).
    intros E. rewrite E in H. by apply elem_of_nil in H.
  - destruct H as (w & pc & Hw & Ht). destruct Hstuck.
    apply (live_worker_steps s w pc HI HG Hw); [|done|].
    + intros ->. done.
    + intros ->. done.
Qed.

Lemma rounds_quiescent k n : forall s,
  RoundInv k s -> (measure s <= Z.of_nat n)%Z ->
  forall x, step x (run (rounds n k) s) = None.
Proof.
  induction n as [|n IH]; intros s HR Hm.
  - simpl. intros x.
    destruct (step x s) as [s'|] eqn:E; [|done]. exfalso.
    pose proof (RoundInv_measure k s HR) as (HI & HRz & HS).
    pose proof (measure_step s x s' HI HRz HS E).
    pose proof (RoundInv_measure k s' (RoundInv_step k s x s' HR E)) as (HI' & HR' & HS').
    pose proof (measure_nonneg s' HI' HR' HS'). lia.
  - change (rounds (S n) k) with (round k ++ rounds n k). rewrite run_app.
    pose proof (steps_measured (round k) s (RoundInv_measure k s HR)) as Hs.
    destruct (steps_taken (round k) s) as [|m] eqn:E.
    + destruct (steps_none _ _ E) as [-> _].
      assert (Hq : forall x, step x s = None).
      { apply (round_stuck k s); [|done].
        destruct HR as [(_ & HRz & _) Hk].
        pose proof (workers_bounded s HRz). lia. }
      by rewrite (run_stuck _ _ Hq).
    + apply IH; [|lia].
      apply (run_invariant (RoundInv k)); [apply RoundInv_step|done].
Qed.

(** X13: under round-robin scheduling of the calling thread and [k] workers,
    [k] at least the number of threads a well-formed program creates,
    after as many rounds as the program costs the calling thread has
    made all its calls (or left by [Iex::ArgExc]), no thread has a
    statement left to run, and every task given to [addTask] has been
    executed and deleted, whether or not the program waits for its
    groups; if the
    calling thread has made all its calls (none threw, the pool was
    not destroyed before the end), these are all the tasks of the
    program. *)
Theorem round_robin_completes nthreads prog k n :
  well_formed nthreads prog ->
  (program_threads (SetNumThreads (int_of_unsigned nthreads) :: prog) <= Z.of_nat k)%Z ->
  (program_cost (SetNumThreads (int_of_unsigned nthreads) :: prog) <= Z.of_nat n)%Z ->
  let s := run (rounds n k) (ThreadPool nthreads prog) in
  caller_done s = true /\
  (forall x, step x s = None) /\
  (forall t, EvSubmit t ∈ log s -> completed t (log s)) /\
  (caller s = CReady -> forall t, t ∈ prog_tasks prog -> completed t (log s)).
Proof.
  intros Hwf Hk Hn s.
  assert (HR : RoundInv k (ThreadPool nthreads prog)).
  { split; [by apply LiveInv_init|].
    unfold threads_ever, spawns_left. simpl in *. lia. }
  assert (Hq : forall x, step x s = None).
  { apply rounds_quiescent; [done|]. unfold measure, caller_cost. simpl in *. lia. }
  assert (HL : LiveInv s) by (by apply LiveInv_run).
  assert (Hall : forall t, EvSubmit t ∈ log s -> completed t (log s)).
  { intros t. by apply quiescent_completed. }
  assert (Hd : caller_done s = true).
  { apply (stuck_done k s); [|done].
    apply (run_invariant (RoundInv k)); [apply RoundInv_step|done]. }
  split; [done|]. split; [done|]. split; [done|].
  intros Hpc t Hin. apply Hall. apply submitted_logged.
  unfold caller_done in Hd. rewrite Hpc in Hd.
  pose proof (submitted_run nthreads prog (rounds n k)) as Hsub.
  cbv zeta in Hsub. fold s in Hsub.
  destruct (program s); [|done]. simpl in Hsub.
  by rewrite app_nil_r in Hsub; rewrite Hsub.
Qed.

Lemma round_robin_completes_witness :
  let s := run (rounds 327 6) (ThreadPool 4 Scenario.shrink_program) in
  caller_done s = true /\
  (forall x, step x s = None) /\
  (forall t, EvSubmit t ∈ log s -> completed t (log s)) /\
  (caller s = CReady ->
   forall t, t ∈ prog_tasks Scenario.shrink_program -> completed t (log s)).
Proof.
  apply (round_robin_completes 4 Scenario.shrink_program 6 327).
  - apply shrink_program_well_formed.
  - vm_compute. discriminate.
  - vm_compute. discriminate.
Defined.

(** The scenario of the specification costs 327 statements at most; the
    round-robin run of 200 rounds takes fewer. *)
Example shrink_program_cost :
  program_cost (SetNumThreads (int_of_unsigned 4) :: Scenario.shrink_program) = 327%Z /\
  steps_taken Scenario.shrink_schedule (ThreadPool 4 Scenario.shrink_program) <= 327 /\
  caller_done Scenario.shrink_run = true.
Proof.
  split; [vm_compute; reflexivity|]. split.
  - refine (bool_decide_unpack _ _); vm_compute; exact I.
  - vm_compute; reflexivity.
Qed.

(** ** Single calls *)

(** X14: the global pool is built without threads: until [setNumThreads] is
    called on it, [addGlobalTask] runs every task on the calling thread
    and deletes it, in call order, before it returns; no thread is
    created and the pool's data stay as [Data ()] left them. *)
Theorem global_pool_runs_inline (ts : list Task) (rest : list Command) :
  let s := solo (4 + 7 * length ts)
             (globalThreadPool ((addGlobalTask <$> ts) ++ rest)) in
  caller s = CReady /\ program s = rest /\
  workers s = [] /\ pool s = PoolData_new /\
  log s = inline_log ts ++ [EvResized 0].
Proof.
  cbv zeta. rewrite solo_add.
  set (s0 := globalThreadPool _).
  assert (Hprog : program s0 = SetNumThreads 0 :: (addGlobalTask <$> ts) ++ rest).
  { unfold s0, globalThreadPool, g_threadPool, ThreadPool. cbn [program].
    replace (int_of_unsigned 0) with 0%Z by (vm_compute; reflexivity). done. }
  assert (Hpool : pool s0 = PoolData_new) by reflexivity.
  destruct (setNumThreads_same s0 0 ((addGlobalTask <$> ts) ++ rest) eq_refl Hprog)
    as (H1 & H2 & H3 & H4 & H5 & H6).
  { by rewrite Hpool. }
  { rewrite Hpool. simpl. lia. }
  { unfold INT_MAX. lia. }
  { by rewrite Hpool. }
  rewrite Hpool in H3.
  destruct (addTasks_inline ts (solo 4 s0) rest H1 H2)
    as (I1 & I2 & I3 & I4 & I5 & I6).
  { by rewrite H3. }
  { by rewrite H3. }
  split; [exact I1|]. split; [exact I2|]. split; [by rewrite I5, H4|].
  split; [by rewrite I3, H3|]. rewrite I6, H6. reflexivity.
Qed.

Lemma alone_S x n s : alone x (S n) s = alone x n (exec s x).
Proof. done. Qed.

Lemma alone_0 x s : alone x 0 s = s.
Proof. done. Qed.

(** X15: with at least one thread in the pool and no worker inside the queue
    lock, [addTask (t)] run to its end appends [t] to the queue, adds one
    to [numTasks], calls the group's [addTask], posts [taskSemaphore]
    once and releases both mutexes; threads and workers are untouched. *)
Theorem addTask_enqueues (s : State) (t : Task) (rest : list Command)
    (d d' : TaskGroupData) :
  caller s = CReady -> program s = AddTask t :: rest ->
  threadMutex (pool s) = None -> taskMutex (pool s) = None ->
  numThreads (pool s) <> 0%Z ->
  groups s !! group t = Some d -> TaskGroup.addTask d = Some d' ->
  let s' := solo 8 s in
  caller s' = CReady /\ program s' = rest /\
  tasks (pool s') = tasks (pool s) ++ [t] /\
  numTasks (pool s') = (numTasks (pool s) + 1)%Z /\
  taskSemaphore (pool s') = S (taskSemaphore (pool s)) /\
  groups s' = <[group t := d']> (groups s) /\
  taskMutex (pool s') = None /\ threadMutex (pool s') = None /\
  threads (pool s') = threads (pool s) /\
  numThreads (pool s') = numThreads (pool s) /\
  stopping (pool s') = stopping (pool s) /\
  workers s' = workers s /\
  log s' = enqueue_events t ++ log s.
Proof.
  intros Hpc Hprog Hmx Htx Hn Hg Ha.
  apply Z.eqb_neq in Hn.
  do 7 (rewrite solo_S; erewrite exec_step; cycle 1;
        [ simpl; unfold_caller; rewrite ?Hpc, ?Hprog; simpl;
          rewrite ?Hmx, ?Htx, ?Hn, ?Hg; simpl; rewrite ?Ha; simpl;
          reflexivity |]).
  rewrite solo_S, solo_0. erewrite exec_step; [|reflexivity].
  simpl. by repeat split.
Qed.

(** X16: a worker waiting at a posted [taskSemaphore], run on its own with
    the queue lock free: (a) with a task at the head of the queue, in
    nine statements it pops that task, runs its [execute ()], deletes
    it, calls the group's [removeTask] and is back at the wait, the lock
    released; (b) with an empty queue and the stopping flag set, in five
    statements it has left [run ()], the lock released. *)
Theorem worker_turn (s : State) (w : nat) (v : nat) :
  workers s !! w = Some WWaitTask ->
  taskSemaphore (pool s) = S v ->
  taskMutex (pool s) = None ->
  (forall t q d,
     tasks (pool s) = t :: q -> (0 < numTasks (pool s))%Z ->
     groups s !! group t = Some d ->
     let s' := alone (Worker w) 9 s in
     workers s' = workers s /\
     tasks (pool s') = q /\
     numTasks (pool s') = (numTasks (pool s) - 1)%Z /\
     taskSemaphore (pool s') = v /\ taskMutex (pool s') = None /\
     groups s' = <[group t := TaskGroup.removeTask d]> (groups s) /\
     caller s' = caller s /\ program s' = program s /\
     log s' = worker_events w t ++ log s) /\
  (numTasks (pool s) = 0%Z -> stopping (pool s) = true ->
   stopMutex (pool s) = None ->
   let s' := alone (Worker w) 5 s in
   workers s' = <[w := WExited]> (workers s) /\
   tasks (pool s') = tasks (pool s) /\
   taskSemaphore (pool s') = v /\ taskMutex (pool s') = None /\
   stopping (pool s') = true /\
   groups s' = groups s /\ caller s' = caller s /\ log s' = log s).
Proof.
  intros Hw Hsem Hmx. apply lookup_lt_Some in Hw as Hlt. split.
  - intros t q d Hq Hpos Hg. apply Z.ltb_lt in Hpos.
    do 8 (rewrite alone_S; erewrite exec_step; cycle 1;
          [ simpl; unfold WorkerThread_run; simpl;
            rewrite ?list_lookup_insert_eq by (rewrite ?length_insert; done);
            rewrite ?Hw; simpl; rewrite ?Hsem, ?Hmx, ?Hpos, ?Hq, ?Hg; simpl;
            reflexivity |]).
    rewrite alone_S, alone_0. erewrite exec_step; cycle 1.
    { simpl. unfold WorkerThread_run. simpl.
      rewrite ?list_lookup_insert_eq by (rewrite ?length_insert; done).
      reflexivity. }
    simpl. rewrite !list_insert_insert_eq.
    rewrite (list_insert_id _ _ _ Hw). by repeat split.
  - intros Hz Hst Hsm.
    do 4 (rewrite alone_S; erewrite exec_step; cycle 1;
          [ simpl; unfold WorkerThread_run, Data_stopped; simpl;
            rewrite ?list_lookup_insert_eq by (rewrite ?length_insert; done);
            rewrite ?Hw; simpl; rewrite ?Hsem, ?Hmx, ?Hz, ?Hsm, ?Hst; simpl;
            reflexivity |]).
    rewrite alone_S, alone_0. erewrite exec_step; cycle 1.
    { simpl. unfold WorkerThread_run. simpl.
      rewrite ?list_lookup_insert_eq by (rewrite ?length_insert; done).
      reflexivity. }
    simpl. rewrite !list_insert_insert_eq. by repeat split.
Qed.

Lemma addTask_enqueues_witness :
  let s := Runs.enqueue_call in
  let s' := solo 8 s in
  caller s' = CReady /\ program s' = [] /\
  tasks (pool s') = tasks (pool s) ++ [Scenario.t0] /\
  numTasks (pool s') = (numTasks (pool s) + 1)%Z /\
  taskSemaphore (pool s') = S (taskSemaphore (pool s)) /\
  groups s' = <[group Scenario.t0 := mkTaskGroupData 0 1%Z]> (groups s) /\
  taskMutex (pool s') = None /\ threadMutex (pool s') = None /\
  threads (pool s') = threads (pool s) /\
  numThreads (pool s') = numThreads (pool s) /\
  stopping (pool s') = stopping (pool s) /\
  workers s' = workers s /\
  log s' = enqueue_events Scenario.t0 ++ log s.
Proof.
  apply (addTask_enqueues Runs.enqueue_call Scenario.t0 [] TaskGroup.Data
           (mkTaskGroupData 0 1%Z)).
  - vm_compute. reflexivity.
  - vm_compute. reflexivity.
  - vm_compute. reflexivity.
  - vm_compute. reflexivity.
  - vm_compute. discriminate.
  - vm_compute. reflexivity.
  - vm_compute. reflexivity.
Defined.

Lemma worker_turn_witness :
  let s := Runs.waiting_worker in
  (forall t q d,
     tasks (pool s) = t :: q -> (0 < numTasks (pool s))%Z ->
     groups s !! group t = Some d ->
     let s' := alone (Worker 0) 9 s in
     workers s' = workers s /\
     tasks (pool s') = q /\
     numTasks (pool s') = (numTasks (pool s) - 1)%Z /\
     taskSemaphore (pool s') = 0 /\ taskMutex (pool s') = None /\
     groups s' = <[group t := TaskGroup.removeTask d]> (groups s) /\
     caller s' = caller s /\ program s' = program s /\
     log s' = worker_events 0 t ++ log s) /\
  (numTasks (pool s) = 0%Z -> stopping (pool s) = true ->
   stopMutex (pool s) = None ->
   let s' := alone (Worker 0) 5 s in
   workers s' = <[0 := WExited]> (workers s) /\
   tasks (pool s') = tasks (pool s) /\
   taskSemaphore (pool s') = 0 /\ taskMutex (pool s') = None /\
   stopping (pool s') = true /\
   groups s' = groups s /\ caller s' = caller s /\ log s' = log s).
Proof.
  apply (worker_turn Runs.waiting_worker 0 0).
  - vm_compute. reflexivity.
  - vm_compute. reflexivity.
  - vm_compute. reflexivity.
Defined.

(** The worker of the scenario runs the task it was given. *)
Example waiting_worker_runs :
  let s' := alone (Worker 0) 9 Runs.waiting_worker in
  tasks (pool s') = [] /\ workers s' = [WWaitTask] /\
  log s' = worker_events 0 Scenario.t0 ++ enqueue_events Scenario.t0 ++ [EvResized 1] /\
  (numPending <$> groups s' !! 0) = Some 0%Z.
Proof. repeat split; vm_compute; reflexivity. Qed.

Lemma PoolData_eta d :
  mkPoolData (taskSemaphore d) (taskMutex d) (tasks d) (numTasks d)
    (threadSemaphore d) (threadMutex d) (threads d) (numThreads d)
    (stopping d) (stopMutex d) = d.
Proof. by destruct d. Qed.

(** X17: [~ThreadPool] on a pool without threads (the global pool that was
    never resized, or any pool after [setNumThreads (0)]): [finish ()]
    posts nothing, waits for nothing and joins nothing; the destructor
    returns in ten statements of the calling thread, with the pool's
    data, the workers and the groups as they were. *)
Theorem destructor_without_threads (s : State) (rest : list Command) :
  caller s = CReady -> program s = DeletePool :: rest ->
  threadMutex (pool s) = None -> taskMutex (pool s) = None ->
  stopMutex (pool s) = None ->
  threads (pool s) = [] -> numThreads (pool s) = 0%Z ->
  tasks (pool s) = [] -> numTasks (pool s) = 0%Z ->
  stopping (pool s) = false ->
  let s' := solo 10 s in
  caller s' = CDestroyed /\ program s' = rest /\
  pool s' = pool s /\ workers s' = workers s /\ groups s' = groups s /\
  log s' = EvFinish [] :: log s.
Proof.
  intros Hpc Hprog Hmx Htx Hsx Hth Hn Hq Hnt Hst.
  do 9 (rewrite solo_S; erewrite exec_step; cycle 1;
        [ simpl; unfold_caller; rewrite ?Hpc, ?Hprog; simpl;
          rewrite ?Hmx, ?Htx, ?Hsx, ?Hn, ?Hth; simpl;
          reflexivity |]).
  rewrite solo_S, solo_0. erewrite exec_step; [|reflexivity].
  simpl. rewrite Hq. repeat split.
  rewrite <- (PoolData_eta (pool s)) at 2.
  unfold Mutex_unlock. by rewrite Hmx, Htx, Hsx, Hth, Hn, Hq, Hnt, Hst.
Qed.

Lemma destructor_without_threads_witness :
  let s := Runs.idle_pool in
  let s' := solo 10 s in
  caller s' = CDestroyed /\ program s' = [] /\
  pool s' = pool s /\ workers s' = workers s /\ groups s' = groups s /\
  log s' = EvFinish [] :: log s.
Proof.
  apply (destructor_without_threads Runs.idle_pool []);
    vm_compute; reflexivity.
Defined.

(** ** The queue is first in, first out *)

Lemma FifoInv_init nthreads prog : FifoInv prog (ThreadPool nthreads prog).
Proof.
  constructor; simpl.
  - exists []. split; [done|]. split.
    + intros w pc t H. by rewrite lookup_nil in H.
    + intros w t H. by apply elem_of_nil in H.
  - intros u. lia.
Qed.

Lemma FifoInv_step prog s x s' :
  WorkerInv s -> StopInv s -> FifoInv prog s ->
  step x s = Some s' -> FifoInv prog s'.
Proof.
  intros HW HS [(taken & Hq & Hheld & Hbegun) Ho] H.
  pose proof (clear_empty s) as Hclear.
  step_inv H.
  all: try match goal with k : FinishCont |- _ => destruct k end.
  all: try (specialize (Hclear _ HW HS eq_refl)).
  all: clear HW HS.
  all: rewrite ?Hpc in *; simpl in *.
  all: unfold spawn_worker; constructor; simpl; rewrite ?Hpc; simpl.
  (* each task is pushed once *)
  all: try (intros u; specialize (Ho u);
            try match goal with E : program _ = _ |- _ => rewrite E in *; simpl in * end;
            unfold is_task in *; repeat case_decide; simplify_eq/=; lia).
  (* the queue *)
  all: first [ match goal with E : tasks _ = ?t :: _ |- _ => exists (taken ++ [t]) end
             | exists taken ].
  all: try match goal with E : tasks _ = _ |- _ => rewrite E in *; simpl in * end.
  all: split; [first [ done | by rewrite Hq, <- ?app_assoc
                     | by rewrite Hq, app_assoc | idtac ]|].
  all: try (split;
    [ intros w0 pc0 t0 Hw0 Ht0;
      first [ eapply lookup_at_worker in Hw0 as [[-> ->]|[? Hw0]]; [| |eassumption]
            | apply lookup_spawned in Hw0 as [Hw0|[-> ->]]
            | idtac ];
      simplify_eq/=;
      first [ by eauto
            | apply elem_of_app; right; by left
            | apply elem_of_app; left; by eauto ]
    | intros w0 t0 Hb0; rewrite ?elem_of_cons in Hb0; destruct_or? Hb0;
      simplify_eq/=;
      first [ by eauto
            | apply elem_of_app; left; by eauto ] ]).
Qed.

Lemma enqueued_count u l :
  sum_list_with (is_task u) (enqueued l) = sum_list_with (is_enqueue u) l.
Proof.
  induction l as [|e l IH]; simpl; [done|].
  destruct e; simpl; rewrite ?sum_list_with_app; simpl; lia.
Qed.

Lemma count_NoDup (l : list Task) :
  (forall u, sum_list_with (is_task u) l <= 1) -> NoDup l.
Proof.
  induction l as [|t l IH]; intros H; [constructor|].
  constructor.
  - intros Hin. apply (sum_list_with_in _ (is_task t)) in Hin.
    specialize (H t). simpl in H. rewrite !is_task_same in *. lia.
  - apply IH. intros u. specialize (H u). simpl in H. lia.
Qed.

Lemma enqueued_NoDup prog s :
  FifoInv prog s -> NoDup (prog_tasks prog) -> NoDup (enqueued (log s)).
Proof.
  intros [_ Ho] Hnd. apply count_NoDup. intros u.
  rewrite enqueued_count. specialize (Ho u).
  pose proof (is_task_NoDup u _ Hnd). lia.
Qed.

Lemma FifoInv_run nthreads prog sched :
  FifoInv prog (run sched (ThreadPool nthreads prog)).
Proof.
  refine (proj2 (run_invariant (fun s => Inv s /\ FifoInv prog s) _ sched _ _)).
  - intros s x s' [HI HF] H. split; [by eapply Inv_step|].
    destruct HI. by eapply FifoInv_step.
  - split; [apply Inv_init|apply FifoInv_init].
Qed.

(** X18: along every schedule, with any number of workers: (a) the queue is
    the tail of the sequence of tasks pushed so far, in the order of the
    pushes, and the tasks the workers hold or have begun are in its
    head; (b) so, in a program that gives each task to [addTask] once,
    when a worker has begun task [b], no task pushed before [b] is still
    in the queue: the workers take the tasks in the order of the pushes. *)
Theorem queue_is_fifo nthreads prog sched :
  NoDup (prog_tasks prog) ->
  let s := run sched (ThreadPool nthreads prog) in
  (exists taken,
     enqueued (log s) = taken ++ tasks (pool s) /\
     (forall t, worker_has (workers s) t -> t ∈ taken) /\
     (forall w t, EvExecBegin (Worker w) t ∈ log s -> t ∈ taken)) /\
  (forall a b w,
     enqueued_before a b (log s) -> EvExecBegin (Worker w) b ∈ log s ->
     a ∉ tasks (pool s)).
Proof.
  intros Hnd s. pose proof (FifoInv_run nthreads prog sched) as HF.
  fold s in HF. pose proof (enqueued_NoDup prog s HF Hnd) as Hnd'.
  destruct HF as [(taken & Hq & Hheld & Hbegun) _]. split.
  - exists taken. split; [done|]. split; [|done].
    intros t (w & pc & Hw & Ht). by eapply Hheld.
  - intros a b w (l1 & l2 & l3 & Hl) Hb.
    specialize (Hbegun _ _ Hb).
    apply list_elem_of_split in Hbegun as (d & r & Hd).
    assert (Ha : a ∈ taken).
    { rewrite Hd. apply elem_of_app. left.
      eapply (before_unique _ d (r ++ tasks (pool s)) l1 l2 l3 a b Hnd'); [|done].
      rewrite Hq, Hd, <- app_assoc. done. }
    rewrite Hq in Hnd'. apply NoDup_app in Hnd' as (_ & Hdis & _).
    by apply Hdis.
Qed.

Lemma queue_is_fifo_witness :
  let s := Scenario.shrink_run in
  (exists taken,
     enqueued (log s) = taken ++ tasks (pool s) /\
     (forall t, worker_has (workers s) t -> t ∈ taken) /\
     (forall w t, EvExecBegin (Worker w) t ∈ log s -> t ∈ taken)) /\
  (forall a b w,
     enqueued_before a b (log s) -> EvExecBegin (Worker w) b ∈ log s ->
     a ∉ tasks (pool s)).
Proof.
  apply (queue_is_fifo 4 Scenario.shrink_program Scenario.shrink_schedule).
  refine (bool_decide_unpack _ _); vm_compute; exact I.
Defined.
